(** * fasm2bels: the Bel / Site / Module model of [verilog_modeling.py]

    A shallow embedding of [src/xc7/fasm2bels/verilog_modeling.py].

    Conventions of the embedding:
    - A Python [dict] is an association list in insertion order
      ([dict_get], [dict_set], [dict_del], [dict_update]); a Python [set]
      is a [gset].
    - Python objects that are shared and mutated ([Bel], [Site]) live in a
      store ([World]) and are named by references; [id(a) == id(b)] is
      equality of references.
    - A method that can raise returns a [result]; a method that also
      mutates its receiver runs in the state-and-exception monad [M], whose
      state survives a raise (Python does not roll back).
    - A [string] is a Python [str] whose code points are below 256, one
      character per code point; comparison, [find], [split] and slices
      count characters as Python counts code points. *)

From stdpp Require Import gmap strings list sorting functions pretty.
From Stdlib Require Import ZArith Ascii.

Set Default Proof Using "Type".


(** ** Exceptions and results *)

Inductive exn : Set :=
| AssertionError | KeyError | IndexError | ValueError
| TypeError | RuntimeError | AttributeError.

Inductive result (A : Type) : Type :=
| Ok (a : A)
| Raise (e : exn).
Arguments Ok {A} a.
Arguments Raise {A} e.

#[global] Instance exn_eq_dec : EqDecision exn.
Proof. solve_decision. Defined.

#[global] Instance result_ret : MRet result := λ A a, Ok a.
#[global] Instance result_bind : MBind result := λ A B k m,
  match m with Ok a => k a | Raise e => Raise e end.

Definition is_raise {A} (r : result A) : Prop := ∃ e, r = Raise e.

(** [assert cond] *)
Definition assert_r (b : bool) : result unit :=
  if b then Ok tt else Raise AssertionError.

(** [d[k]] on a lookup that answers [None] when the key is missing. *)
Definition getitem {A} (o : option A) : result A :=
  match o with Some a => Ok a | None => Raise KeyError end.

(** [for x in l: body(x)] where the body only reads. *)
Fixpoint for_r {A} (l : list A) (body : A → result unit) : result unit :=
  match l with
  | [] => Ok tt
  | x :: l' => _ ← body x; for_r l' body
  end.

(** [for x in l: acc = body(x, acc)] where the body updates local variables. *)
Fixpoint fold_r {A St} (body : A → St → result St) (l : list A) (st : St)
  : result St :=
  match l with
  | [] => Ok st
  | x :: l' => st' ← body x st; fold_r body l' st'
  end.

(** ** The state-and-exception monad *)

Definition M (St A : Type) : Type := St → result A * St.

Definition ret {St A} (a : A) : M St A := λ s, (Ok a, s).
Definition raise {St A} (e : exn) : M St A := λ s, (Raise e, s).
Definition bind {St A B} (m : M St A) (k : A → M St B) : M St B :=
  λ s, match m s with
       | (Ok a, s') => k a s'
       | (Raise e, s') => (Raise e, s')
       end.
Definition gets {St A} (f : St → A) : M St A := λ s, (Ok (f s), s).
Definition modify {St} (f : St → St) : M St unit := λ s, (Ok tt, f s).
Definition lift_r {St A} (r : result A) : M St A := λ s, (r, s).
Definition assert_ {St} (b : bool) : M St unit := lift_r (assert_r b).

Declare Scope py_scope.
Delimit Scope py_scope with py.
Notation "x <- m ;; k" := (bind m (λ x, k))
  (at level 100, m at next level, right associativity) : py_scope.
Notation "m ;; k" := (bind m (λ _, k))
  (at level 100, right associativity) : py_scope.

Fixpoint for_ {St A} (l : list A) (body : A → M St unit) : M St unit :=
  match l with
  | [] => ret tt
  | x :: l' => (body x ;; for_ l' body)%py
  end.

(** ** Python dictionaries: association lists in insertion order *)

Section dict.
Context {K V : Type} `{EqDecision K}.

Fixpoint dict_get (k : K) (d : list (K * V)) : option V :=
  match d with
  | [] => None
  | (k', v) :: d' => if decide (k = k') then Some v else dict_get k d'
  end.

Definition dict_mem (k : K) (d : list (K * V)) : bool :=
  bool_decide (is_Some (dict_get k d)).

(** [d[k] = v]: an existing key keeps its position. *)
Fixpoint dict_set (k : K) (v : V) (d : list (K * V)) : list (K * V) :=
  match d with
  | [] => [(k, v)]
  | (k', v') :: d' =>
      if decide (k = k') then (k, v) :: d' else (k', v') :: dict_set k v d'
  end.

(** [del d[k]] for a key that is present. *)
Fixpoint dict_del (k : K) (d : list (K * V)) : list (K * V) :=
  match d with
  | [] => []
  | (k', v') :: d' =>
      if decide (k = k') then d' else (k', v') :: dict_del k d'
  end.

Definition dict_keys (d : list (K * V)) : list K := d.*1.
Definition dict_values (d : list (K * V)) : list V := d.*2.

(** [d1.update(d2)] *)
Definition dict_update (d1 d2 : list (K * V)) : list (K * V) :=
  foldl (λ d kv, dict_set kv.1 kv.2 d) d1 d2.
End dict.

Abbreviation dict K V := (list (K * V)) (only parsing).

(** ** Data model *)

Definition bel_ref := nat.
Definition site_ref := nat.

(** What a BEL pin is connected to: a wire name, the constant 0 or 1, or
    [None]. *)
Inductive connection : Set :=
| ConnWire (w : string)
| ConnConst (b : bool)
| ConnNone.

#[global] Instance connection_eq_dec : EqDecision connection.
Proof. solve_decision. Defined.

Record Bel : Type := mkBel {
  bel_module : string;
  bel_name : string;
  bel_connections : dict string connection;
  bel_unused_connections : gset string;
  bel_parameters : dict string string;
  bel_outputs : gset string;
  bel_prefix : option string;
  bel_site : option string;
  bel_keep : bool;
  bel_bel : option string;
}.

(** [Bel.__init__] *)
Definition Bel_init (module : string) (name : option string) (keep : bool) : Bel :=
  {| bel_module := module;
     bel_name := match name with None => module | Some n => n end;
     bel_connections := [];
     bel_unused_connections := ∅;
     bel_parameters := [];
     bel_outputs := ∅;
     bel_prefix := None;
     bel_site := None;
     bel_keep := keep;
     bel_bel := None |}.

Definition set_prefix (prefix : string) (b : Bel) : Bel :=
  mkBel (bel_module b) (bel_name b) (bel_connections b)
    (bel_unused_connections b) (bel_parameters b) (bel_outputs b)
    (Some prefix) (bel_site b) (bel_keep b) (bel_bel b).

Definition set_site (site : string) (b : Bel) : Bel :=
  mkBel (bel_module b) (bel_name b) (bel_connections b)
    (bel_unused_connections b) (bel_parameters b) (bel_outputs b)
    (bel_prefix b) (Some site) (bel_keep b) (bel_bel b).

Definition set_bel (bel : string) (b : Bel) : Bel :=
  mkBel (bel_module b) (bel_name b) (bel_connections b)
    (bel_unused_connections b) (bel_parameters b) (bel_outputs b)
    (bel_prefix b) (bel_site b) (bel_keep b) (Some bel).

(** ['{}_{}'.format(prefix, s)] when a prefix is set. *)
Definition _prefix_things (b : Bel) (s : string) : string :=
  match bel_prefix b with
  | Some p => p +:+ "_" +:+ s
  | None => s
  end.

Definition get_cell (b : Bel) : string := _prefix_things b (bel_name b).

(** The site object of the device database handed to [Site.__init__]:
    only its [name] and [site_pins] are read. *)
Record SitePin : Set := mkSitePin { pin_name : string; pin_wire : string }.
Record SiteInfo : Set := mkSiteInfo {
  info_name : string;
  info_site_pins : list SitePin;
}.

Record Site : Type := mkSite {
  site_bels : list bel_ref;
  site_sinks : dict string (list (bel_ref * string));
  site_sources : dict string (option (bel_ref * string));
  site_outputs : dict string string;
  site_internal_sources : dict string (option (bel_ref * string));
  site_set_features : gset string;
  site_post_route_cleanup : option nat;
  site_bel_map : dict string bel_ref;
  site_site_wire_to_wire_pkey : dict string Z;
  site_tile : string;
  site_site : SiteInfo;
}.

(** ** [Site.check_site] *)

Definition check_bel_pair (bel_ids : gset bel_ref)
    (bel_pair : option (bel_ref * string)) : result unit :=
  match bel_pair with
  | Some (bel, _) => assert_r (bool_decide (bel ∈ bel_ids))
  | None => Ok tt
  end.

Definition check_site (self : Site) : result unit :=
  let internal_sources : gset string :=
    list_to_set (dict_keys (site_internal_sources self)) in
  let sinks : gset string := list_to_set (dict_keys (site_sinks self)) in
  let sources : gset string := list_to_set (dict_keys (site_sources self)) in
  _ ← assert_r (bool_decide (size (internal_sources ∩ sinks) = 0%nat));
  _ ← assert_r (bool_decide (size (internal_sources ∩ sources) = 0%nat));
  let bel_ids : gset bel_ref := list_to_set (site_bels self) in
  _ ← for_r (dict_values (site_sources self)) (check_bel_pair bel_ids);
  _ ← for_r (dict_values (site_sinks self)) (λ sinks,
        for_r sinks (λ '(bel, _), assert_r (bool_decide (bel ∈ bel_ids))));
  for_r (dict_values (site_internal_sources self)) (check_bel_pair bel_ids).

(** ** Python string operations *)

Definition nl : string := String "010"%char EmptyString.
Definition dq : string := String "034"%char EmptyString.

(** [s.split(sep)] for a one-character separator. *)
Fixpoint split (sep : ascii) (s : string) : list string :=
  match s with
  | EmptyString => [EmptyString]
  | String a s' =>
      if decide (a = sep) then EmptyString :: split sep s'
      else match split sep s' with
           | h :: t => String a h :: t
           | [] => [String a EmptyString]
           end
  end.

(** [sep.join(l)] *)
Definition join (sep : string) (l : list string) : string := String.concat sep l.

(** [s.find(c)] for a one-character needle: the first index, or [-1]. *)
Fixpoint find (c : ascii) (s : string) : Z :=
  match s with
  | EmptyString => -1
  | String a s' =>
      if decide (a = c) then 0
      else let r := find c s' in if decide (r = -1)%Z then -1 else r + 1
  end%Z.

(** [c in s] *)
Definition contains (c : ascii) (s : string) : bool :=
  bool_decide (find c s ≠ (-1)%Z).

(** A slice bound as Python clamps it. *)
Definition slice_bound (len : nat) (i : Z) : nat :=
  if decide (i < 0)%Z then Z.to_nat (Z.of_nat len + i)
  else Nat.min (Z.to_nat i) len.

(** [s[a:b]] *)
Definition slice (a b : Z) (s : string) : string :=
  let len := String.length s in
  let a' := slice_bound len a in
  let b' := slice_bound len b in
  String.substring a' (b' - a') s.

(** [s[a:]] *)
Definition slice_from (a : Z) (s : string) : string :=
  let len := String.length s in
  let a' := slice_bound len a in
  String.substring a' (len - a') s.

(** [s[-1]] *)
Fixpoint last_char (s : string) : result ascii :=
  match s with
  | EmptyString => Raise IndexError
  | String a EmptyString => Ok a
  | String _ s' => last_char s'
  end.

(** [l[i]] for [i >= 0] *)
Definition index {A} (l : list A) (i : nat) : result A :=
  match l !! i with Some a => Ok a | None => Raise IndexError end.

(** [int(s)]: surrounding blanks, an optional sign, and decimal digits
    that single underscores may separate.  The blanks [int] strips are the
    characters 9 to 13 and 32, and of the characters from 128 on the two
    Unicode blanks 133 and 160; the separators 28 to 31, which [str.strip]
    would take, are not among them.  No character from 128 to 255 is a
    decimal digit. *)
Definition is_space (c : ascii) : bool :=
  let n := nat_of_ascii c in
  bool_decide (9 ≤ n ≤ 13 ∨ n = 32 ∨ n = 133 ∨ n = 160)%nat.

Definition digit_of (c : ascii) : option Z :=
  let n := nat_of_ascii c in
  if bool_decide (48 ≤ n ≤ 57)%nat then Some (Z.of_nat (n - 48)) else None.

Fixpoint lstrip (s : string) : string :=
  match s with
  | String c s' => if is_space c then lstrip s' else s
  | EmptyString => EmptyString
  end.

Definition strip (s : string) : string :=
  String.rev (lstrip (String.rev (lstrip s))).

Fixpoint int_digits (s : string) (acc : Z) (after_digit : bool) : option Z :=
  match s with
  | EmptyString => if after_digit then Some acc else None
  | String c s' =>
      match digit_of c with
      | Some d => int_digits s' (10 * acc + d)%Z true
      | None =>
          if decide (c = "_"%char) then
            if after_digit then int_digits s' acc false else None
          else None
      end
  end.

Definition int (s : string) : result Z :=
  let body :=
    match strip s with
    | String "-" s' => Z.opp <$> int_digits s' 0 false
    | String "+" s' => int_digits s' 0 false
    | s' => int_digits s' 0 false
    end in
  match body with Some z => Ok z | None => Raise ValueError end.

(** [str(n)] *)
Definition str (n : Z) : string := pretty n.

(** [min(l)] and [max(l)] of integers. *)
Definition py_min (l : list Z) : result Z :=
  match l with
  | [] => Raise ValueError
  | x :: l' => Ok (foldl Z.min x l')
  end.

Definition py_max (l : list Z) : result Z :=
  match l with
  | [] => Raise ValueError
  | x :: l' => Ok (foldl Z.max x l')
  end.

(** [sorted(l)] of strings. *)
Definition sorted (l : list string) : list string := merge_sort String.le l.

(** A generator body that yields one value per element. *)
Fixpoint map_r {A B} (f : A → result B) (l : list A) : result (list B) :=
  match l with
  | [] => Ok []
  | x :: l' => y ← f x; ys ← map_r f l'; Ok (y :: ys)
  end.

(** ** [Site.__init__] *)

(** A FASM set-feature line: its [feature] name and [value]. *)
Record Feature : Set := mkFeature { feature : string; value : Z }.

Definition add_feature (aparts : list string) (f : Feature)
    (set_features : gset string) : result (gset string) :=
  if decide (value f = 0)%Z then Ok set_features
  else
    let parts := split "." (feature f) in
    p0 ← index parts 0; a0 ← index aparts 0;
    _ ← assert_r (bool_decide (p0 = a0));
    p1 ← index parts 1; a1 ← index aparts 1;
    _ ← assert_r (bool_decide (p1 = a1));
    Ok (set_features ∪ {[ join "." (drop 2 parts) ]}).

Definition Site_init (features : list Feature) (site : SiteInfo)
    (tile : option string) : result Site :=
  f0 ← index features 0;
  let aparts := split "." (feature f0) in
  set_features ← fold_r (add_feature aparts) features ∅;
  tile' ← match tile with
          | None => index aparts 0
          | Some t => Ok t
          end;
  Ok {| site_bels := [];
        site_sinks := [];
        site_sources := [];
        site_outputs := [];
        site_internal_sources := [];
        site_set_features := set_features;
        site_post_route_cleanup := None;
        site_bel_map := [];
        site_site_wire_to_wire_pkey := [];
        site_tile := tile';
        site_site := site |}.

Definition has_feature (self : Site) (feature : string) : bool :=
  bool_decide (feature ∈ site_set_features self).

(** ** [make_bus] *)

Definition make_bus_wire (w : string)
    (st : dict string (option Z) * dict string (list Z))
  : result (dict string (option Z) * dict string (list Z)) :=
  let '(output, buses) := st in
  let idx := find "[" w in
  if decide (idx ≠ -1)%Z then
    c ← last_char w;
    _ ← assert_r (bool_decide (c = "]"%char));
    let bus := slice 0 idx w in
    let buses := if dict_mem bus buses then buses else dict_set bus [] buses in
    values ← getitem (dict_get bus buses);
    n ← int (slice (idx + 1) (-1) w);
    Ok (output, dict_set bus (values ++ [n]) buses)
  else Ok (dict_set w None output, buses).

Definition make_bus_check (bv : string * list Z) (output : dict string (option Z))
  : result (dict string (option Z)) :=
  let '(bus, values) := bv in
  lo ← py_min values;
  _ ← assert_r (bool_decide (lo = 0)%Z);
  hi ← py_max values;
  _ ← assert_r (bool_decide (hi = Z.of_nat (length values) - 1)%Z);
  _ ← assert_r (bool_decide
         (length values = size (list_to_set values : gset Z)));
  hi' ← py_max values;
  Ok (dict_set bus (Some hi') output).

Definition make_bus (wires : list string) : result (list (string * option Z)) :=
  '(output, buses) ← fold_r make_bus_wire wires ([], []);
  output ← fold_r make_bus_check buses output;
  map_r (λ name, v ← getitem (dict_get name output); Ok (name, v))
        (sorted (dict_keys output)).

(** ** The object store *)

Record World : Type := mkWorld {
  bel_at : bel_ref → Bel;
  site_at : site_ref → Site;
}.

Definition upd_bel (r : bel_ref) (f : Bel → Bel) (w : World) : World :=
  mkWorld (<[r := f (bel_at w r)]> (bel_at w)) (site_at w).

Definition upd_site (r : site_ref) (f : Site → Site) (w : World) : World :=
  mkWorld (bel_at w) (<[r := f (site_at w r)]> (site_at w)).

(** Field updates of a [Site]. *)
Definition with_bels (v : list bel_ref) (s : Site) : Site :=
  mkSite v (site_sinks s) (site_sources s) (site_outputs s)
    (site_internal_sources s) (site_set_features s)
    (site_post_route_cleanup s) (site_bel_map s)
    (site_site_wire_to_wire_pkey s) (site_tile s) (site_site s).

Definition with_sinks (v : dict string (list (bel_ref * string))) (s : Site)
  : Site :=
  mkSite (site_bels s) v (site_sources s) (site_outputs s)
    (site_internal_sources s) (site_set_features s)
    (site_post_route_cleanup s) (site_bel_map s)
    (site_site_wire_to_wire_pkey s) (site_tile s) (site_site s).

Definition with_sources (v : dict string (option (bel_ref * string)))
    (s : Site) : Site :=
  mkSite (site_bels s) (site_sinks s) v (site_outputs s)
    (site_internal_sources s) (site_set_features s)
    (site_post_route_cleanup s) (site_bel_map s)
    (site_site_wire_to_wire_pkey s) (site_tile s) (site_site s).

Definition with_outputs (v : dict string string) (s : Site) : Site :=
  mkSite (site_bels s) (site_sinks s) (site_sources s) v
    (site_internal_sources s) (site_set_features s)
    (site_post_route_cleanup s) (site_bel_map s)
    (site_site_wire_to_wire_pkey s) (site_tile s) (site_site s).

Definition with_internal_sources
    (v : dict string (option (bel_ref * string))) (s : Site) : Site :=
  mkSite (site_bels s) (site_sinks s) (site_sources s) (site_outputs s)
    v (site_set_features s)
    (site_post_route_cleanup s) (site_bel_map s)
    (site_site_wire_to_wire_pkey s) (site_tile s) (site_site s).

Definition with_bel_map (v : dict string bel_ref) (s : Site) : Site :=
  mkSite (site_bels s) (site_sinks s) (site_sources s) (site_outputs s)
    (site_internal_sources s) (site_set_features s)
    (site_post_route_cleanup s) v
    (site_site_wire_to_wire_pkey s) (site_tile s) (site_site s).

Definition with_site_wire_to_wire_pkey (v : dict string Z) (s : Site) : Site :=
  mkSite (site_bels s) (site_sinks s) (site_sources s) (site_outputs s)
    (site_internal_sources s) (site_set_features s)
    (site_post_route_cleanup s) (site_bel_map s)
    v (site_tile s) (site_site s).

(** Field updates of a [Bel] made by the [Site] mutators. *)
Definition with_connections (v : dict string connection) (b : Bel) : Bel :=
  mkBel (bel_module b) (bel_name b) v
    (bel_unused_connections b) (bel_parameters b) (bel_outputs b)
    (bel_prefix b) (bel_site b) (bel_keep b) (bel_bel b).

Definition with_bel_outputs (v : gset string) (b : Bel) : Bel :=
  mkBel (bel_module b) (bel_name b) (bel_connections b)
    (bel_unused_connections b) (bel_parameters b) v
    (bel_prefix b) (bel_site b) (bel_keep b) (bel_bel b).

(** ** The [Site] mutators *)

Section site_mutators.
Local Open Scope py_scope.
Variable self : site_ref.

Definition the_site : M World Site := gets (λ w, site_at w self).
Definition the_bel (bel : bel_ref) : M World Bel := gets (λ w, bel_at w bel).

Definition add_sink (bel : bel_ref) (bel_pin sink : string) : M World unit :=
  b <- the_bel bel ;;
  assert_ (negb (dict_mem bel_pin (bel_connections b))) ;;
  s <- the_site ;;
  (if dict_mem sink (site_sinks s) then ret tt
   else modify (upd_site self (λ s, with_sinks (dict_set sink [] (site_sinks s)) s))) ;;
  modify (upd_bel bel (λ b,
    with_connections (dict_set bel_pin (ConnWire sink) (bel_connections b)) b)) ;;
  s <- the_site ;;
  l <- lift_r (getitem (dict_get sink (site_sinks s))) ;;
  modify (upd_site self (λ s,
    with_sinks (dict_set sink (l ++ [(bel, bel_pin)]) (site_sinks s)) s)).

Definition add_source (bel : bel_ref) (bel_pin source : string)
  : M World unit :=
  s <- the_site ;;
  assert_ (negb (dict_mem source (site_sources s))) ;;
  b <- the_bel bel ;;
  assert_ (negb (dict_mem bel_pin (bel_connections b))) ;;
  modify (upd_bel bel (λ b,
    with_connections (dict_set bel_pin (ConnWire source) (bel_connections b)) b)) ;;
  modify (upd_bel bel (λ b, with_bel_outputs (bel_outputs b ∪ {[bel_pin]}) b)) ;;
  modify (upd_site self (λ s,
    with_sources (dict_set source (Some (bel, bel_pin)) (site_sources s)) s)).

Definition add_output_from_internal (source internal_source : string)
  : M World unit :=
  s <- the_site ;;
  assert_ (negb (dict_mem source (site_sources s))) ;;
  assert_ (dict_mem internal_source (site_internal_sources s)) ;;
  modify (upd_site self (λ s,
    with_outputs (dict_set source internal_source (site_outputs s)) s)) ;;
  s <- the_site ;;
  v <- lift_r (getitem (dict_get internal_source (site_internal_sources s))) ;;
  modify (upd_site self (λ s,
    with_sources (dict_set source v (site_sources s)) s)).

Definition add_output_from_output (source other_source : string)
  : M World unit :=
  s <- the_site ;;
  assert_ (negb (dict_mem source (site_sources s))) ;;
  assert_ (dict_mem other_source (site_sources s)) ;;
  modify (upd_site self (λ s,
    with_outputs (dict_set source other_source (site_outputs s)) s)).

Definition add_internal_source (bel : bel_ref) (bel_pin wire_name : string)
  : M World unit :=
  modify (upd_bel bel (λ b,
    with_connections (dict_set bel_pin (ConnWire wire_name) (bel_connections b)) b)) ;;
  modify (upd_bel bel (λ b, with_bel_outputs (bel_outputs b ∪ {[bel_pin]}) b)) ;;
  s <- the_site ;;
  assert_ (negb (dict_mem wire_name (site_internal_sources s))) ;;
  modify (upd_site self (λ s,
    with_internal_sources
      (dict_set wire_name (Some (bel, bel_pin)) (site_internal_sources s)) s)).

Definition connect_internal (bel : bel_ref) (bel_pin source : string)
  : M World unit :=
  s <- the_site ;;
  assert_ (dict_mem source (site_internal_sources s)) ;;
  b <- the_bel bel ;;
  assert_ (negb (dict_mem bel_pin (bel_connections b))) ;;
  modify (upd_bel bel (λ b,
    with_connections (dict_set bel_pin (ConnWire source) (bel_connections b)) b)).

Definition add_bel (bel : bel_ref) (name : option string) : M World unit :=
  modify (upd_site self (λ s, with_bels (site_bels s ++ [bel]) s)) ;;
  match name with
  | None => ret tt
  | Some name =>
      s <- the_site ;;
      assert_ (negb (dict_mem name (site_bel_map s))) ;;
      modify (upd_site self (λ s,
        with_bel_map (dict_set name bel (site_bel_map s)) s))
  end.
End site_mutators.

(** ** [Bel.output_verilog] *)

(** ['{}'.format(c)] of a connection. *)
Definition format_connection (c : connection) : string :=
  match c with
  | ConnWire w => w
  | ConnConst b => if b then "1" else "0"
  | ConnNone => "None"
  end.

Definition param_le (a b : string * string) : Prop := String.le a.1 b.1.
#[global] Instance param_le_dec : RelDecision param_le.
Proof. intros a b. unfold param_le. apply _. Defined.

Section bel_output.
(** [top.is_top_level], as the caller's [Module] answers it. *)
Variable is_top_level_of_top : string → bool.
Variable self : Bel.
Variable indent : string.

(** [top.is_top_level(connection)]: a constant or [None] is in no port set. *)
Definition connection_is_top_level (c : connection) : bool :=
  match c with
  | ConnWire w => is_top_level_of_top w
  | _ => false
  end.

Definition connection_wire_of (c : connection) : connection :=
  if connection_is_top_level c then c
  else match c with
       | ConnConst _ => c
       | ConnWire w => ConnWire (_prefix_things self w)
       | ConnNone => ConnNone
       end.

Definition port_line (wire connection : string) : string :=
  indent +:+ indent +:+ "." +:+ wire +:+ "(" +:+ connection +:+ ")".

(** The local variables of the first loop: [connections], [buses],
    [bus_is_output]. *)
Definition collected : Type :=
  dict string string * dict string (dict Z connection) * dict string bool.

Definition collect_connection (wc : string * connection) (st : collected)
  : result collected :=
  let '(wire, connection) := wc in
  let '(connections, buses, bus_is_output) := st in
  let connection_wire := connection_wire_of connection in
  if contains "[" wire then
    match split "[" wire with
    | [bus_name; address] =>
        c ← last_char address;
        _ ← assert_r (bool_decide (c = "]"%char));
        let wire_is_output := bool_decide (wire ∈ bel_outputs self) in
        '(buses, bus_is_output) ←
          (if negb (dict_mem bus_name buses) then
             Ok (dict_set bus_name [] buses,
                 dict_set bus_name wire_is_output bus_is_output)
           else
             b ← getitem (dict_get bus_name bus_is_output);
             _ ← assert_r (bool_decide (b = wire_is_output));
             Ok (buses, bus_is_output));
        bus ← getitem (dict_get bus_name buses);
        n ← int (slice 0 (-1) address);
        Ok (connections,
            dict_set bus_name (dict_set n connection_wire bus) buses,
            bus_is_output)
    | _ => Raise ValueError
    end
  else
    Ok (dict_set wire (port_line wire (format_connection connection_wire))
          connections,
        buses, bus_is_output).

Definition bus_decl (bus_wire : string) (width_n1 : Z) : string :=
  indent +:+ "wire [" +:+ str width_n1 +:+ ":0] " +:+ bus_wire +:+ ";".

Definition assign_from_bus (wire bus_wire : string) (idx : Z) : string :=
  indent +:+ "assign " +:+ wire +:+ " = " +:+ bus_wire
    +:+ "[" +:+ str idx +:+ "];".

Definition assign_to_bus (wire bus_wire : string) (idx : Z) : string :=
  indent +:+ "assign " +:+ bus_wire +:+ "[" +:+ str idx +:+ "] = "
    +:+ wire +:+ ";".

(** The lines yielded for the entries of one bus. *)
Definition bus_assigns (is_output : bool) (bus_wire : string)
    (bus : dict Z connection) : list string :=
  flat_map (λ '(idx, wire),
    match wire with
    | ConnNone => []
    | _ =>
        if is_output
        then [assign_from_bus (format_connection wire) bus_wire idx]
        else [assign_to_bus (format_connection wire) bus_wire idx]
    end) bus.

(** One iteration of [for bus_name, bus in buses.items()]: the port entry
    it records in [connections] and the lines it yields. *)
Definition emit_bus (bus_is_output : dict string bool)
    (b : string * dict Z connection)
    (st : dict string string * list string)
  : result (dict string string * list string) :=
  let '(bus_name, bus) := b in
  let '(connections, lines) := st in
  let bus_wire := _prefix_things self bus_name in
  let connections :=
    dict_set bus_name
      (indent +:+ indent +:+ "." +:+ bus_name +:+ "(" +:+ bus_wire +:+ ")")
      connections in
  width_n1 ← py_max (dict_keys bus);
  is_output ← getitem (dict_get bus_name bus_is_output);
  Ok (connections,
      lines ++ bus_decl bus_wire width_n1
            :: bus_assigns is_output bus_wire bus).

Definition attribute_comment : list string :=
  match bel_site self with
  | None => []
  | Some site =>
      let comment :=
        (if bel_keep self then ["KEEP"; "DONT_TOUCH"] else [])
        ++ ["LOC = " +:+ dq +:+ site +:+ dq]
        ++ match bel_bel self with
           | Some bel =>
               if decide (bel = "") then []
               else ["BEL = " +:+ dq +:+ bel +:+ dq]
           | None => []
           end in
      [indent +:+ "(" +:+ "* " +:+ join ", " comment +:+ " *" +:+ ")"]
  end.

Definition Bel_output_verilog : result (list string) :=
  '(connections, buses, bus_is_output) ←
    fold_r collect_connection (bel_connections self) ([], [], []);
  '(connections, bus_lines) ←
    fold_r (emit_bus bus_is_output) buses (connections, []);
  let connections :=
    foldl (λ connections unused_connection,
             dict_set unused_connection
               (indent +:+ indent +:+ "." +:+ unused_connection +:+ "()")
               connections)
          connections (elements (bel_unused_connections self)) in
  let parameters :=
    map (λ '(param, value),
           indent +:+ indent +:+ "." +:+ param +:+ "(" +:+ value +:+ ")")
        (merge_sort param_le (bel_parameters self)) in
  ports ← map_r (λ port, getitem (dict_get port connections))
                (sorted (dict_keys connections));
  Ok ([""] ++ bus_lines ++ [""]
      ++ attribute_comment
      ++ [indent +:+ bel_module self +:+ " #("]
      ++ (if decide (parameters = []) then []
          else [join ("," +:+ nl) parameters])
      ++ [indent +:+ ") " +:+ get_cell self +:+ " ("]
      ++ (if decide (connections = []) then []
          else [join ("," +:+ nl) ports])
      ++ [indent +:+ ");"]).
End bel_output.

(** ** [Module] *)

(** What [Site.integrate_site] returns: a dict with exactly these keys. *)
Record IntegratedSite : Type := mkIntegratedSite {
  wires : gset string;
  unrouted_sinks : gset Z;
  unrouted_sources : gset Z;
  wire_pkey_to_wire : dict Z string;
  source_bels : dict Z (bel_ref * string);
  wire_assigns : dict string string;
  shorted_nets : dict Z Z;
}.

(** [s.remove(x)] *)
Definition set_remove `{Countable A} (x : A) (s : gset A) : result (gset A) :=
  if bool_decide (x ∈ s) then Ok (s ∖ {[x]}) else Raise KeyError.

(** An object is identical to the singleton [True] or [False] only if it is
    that singleton; the keys of [sinks] and [sources] are [str] objects. *)
Inductive pyobj : Set :=
| PyStr (s : string)
| PyBool (b : bool).

Definition py_is_bool (a : pyobj) (b : bool) : bool :=
  match a with
  | PyBool a' => bool_decide (a' = b)
  | PyStr _ => false
  end.

(** [make_site_pin_map] *)
Definition make_site_pin_map (site_pins : list SitePin) : gmap string string :=
  foldl (λ site_pin_map site_pin,
           <[pin_name site_pin := pin_wire site_pin]> site_pin_map)
        ∅ site_pins.

(** [merge_exclusive_sets]: the new contents of [set_a]. *)
Definition merge_exclusive_sets `{Countable A} (set_a set_b : gset A)
  : result (gset A) :=
  _ ← assert_r (bool_decide (size (set_a ∩ set_b) = 0%nat));
  Ok (set_a ∪ set_b).

(** [merge_exclusive_dicts]: the new contents of [dict_a]. *)
Definition merge_exclusive_dicts `{Countable K} {V} (dict_a dict_b : dict K V)
  : result (dict K V) :=
  _ ← assert_r (bool_decide
        (size ((list_to_set (dict_keys dict_a) : gset K)
               ∩ list_to_set (dict_keys dict_b)) = 0%nat));
  Ok (dict_update dict_a dict_b).

Section module.
(** The collaborators that live outside this file: the connection
    database and its wire index ([connection_db_utils.get_wire_pkey]),
    and the router's nets and constants ([make_routes]). *)
Context {Conn Net : Type}.
Variable get_wire_pkey : Conn → string → string → Z.
Variables ZERO_NET ONE_NET : Z.
Variable is_net_alive : Net → bool.
Variable make_fixed_route : Net → Conn → dict Z string → list string.

(** The attributes [nets] and [net_map] do not exist before
    [make_routes] assigns them: [None] stands for a missing attribute. *)
Record Module_ : Type := mkModule {
  mod_name : string;
  mod_iostandard : option string;
  mod_conn : Conn;
  mod_sites : list site_ref;
  mod_source_bels : dict Z (bel_ref * string);
  mod_shorted_nets : dict Z Z;
  mod_wire_pkey_to_wire : dict Z string;
  mod_unrouted_sinks : gset Z;
  mod_unrouted_sources : gset Z;
  mod_active_pips : gset (Z * Z);
  mod_root_in : gset string;
  mod_root_out : gset string;
  mod_root_inout : gset string;
  mod_wires : gset string;
  mod_wire_assigns : dict string string;
  mod_site_to_signal : dict string string;
  mod_nets : option (dict Z Net);
  mod_net_map : option (dict Z Z);
}.

(** [Module.__init__] *)
Definition Module_init (conn : Conn) (name : string) : Module_ :=
  {| mod_name := name; mod_iostandard := None; mod_conn := conn;
     mod_sites := []; mod_source_bels := []; mod_shorted_nets := [];
     mod_wire_pkey_to_wire := []; mod_unrouted_sinks := ∅;
     mod_unrouted_sources := ∅; mod_active_pips := ∅;
     mod_root_in := ∅; mod_root_out := ∅; mod_root_inout := ∅;
     mod_wires := ∅; mod_wire_assigns := []; mod_site_to_signal := [];
     mod_nets := None; mod_net_map := None |}.

Definition with_iostandard (v : option string) (m : Module_) : Module_ :=
  mkModule (mod_name m) v (mod_conn m) (mod_sites m)
    (mod_source_bels m) (mod_shorted_nets m) (mod_wire_pkey_to_wire m)
    (mod_unrouted_sinks m) (mod_unrouted_sources m) (mod_active_pips m)
    (mod_root_in m) (mod_root_out m) (mod_root_inout m) (mod_wires m)
    (mod_wire_assigns m) (mod_site_to_signal m) (mod_nets m) (mod_net_map m).

Definition with_sites (v : list site_ref) (m : Module_) : Module_ :=
  mkModule (mod_name m) (mod_iostandard m) (mod_conn m) v
    (mod_source_bels m) (mod_shorted_nets m) (mod_wire_pkey_to_wire m)
    (mod_unrouted_sinks m) (mod_unrouted_sources m) (mod_active_pips m)
    (mod_root_in m) (mod_root_out m) (mod_root_inout m) (mod_wires m)
    (mod_wire_assigns m) (mod_site_to_signal m) (mod_nets m) (mod_net_map m).

Definition with_source_bels (v : dict Z (bel_ref * string)) (m : Module_)
  : Module_ :=
  mkModule (mod_name m) (mod_iostandard m) (mod_conn m) (mod_sites m)
    v (mod_shorted_nets m) (mod_wire_pkey_to_wire m)
    (mod_unrouted_sinks m) (mod_unrouted_sources m) (mod_active_pips m)
    (mod_root_in m) (mod_root_out m) (mod_root_inout m) (mod_wires m)
    (mod_wire_assigns m) (mod_site_to_signal m) (mod_nets m) (mod_net_map m).

Definition with_shorted_nets (v : dict Z Z) (m : Module_) : Module_ :=
  mkModule (mod_name m) (mod_iostandard m) (mod_conn m) (mod_sites m)
    (mod_source_bels m) v (mod_wire_pkey_to_wire m)
    (mod_unrouted_sinks m) (mod_unrouted_sources m) (mod_active_pips m)
    (mod_root_in m) (mod_root_out m) (mod_root_inout m) (mod_wires m)
    (mod_wire_assigns m) (mod_site_to_signal m) (mod_nets m) (mod_net_map m).

Definition with_wire_pkey_to_wire (v : dict Z string) (m : Module_)
  : Module_ :=
  mkModule (mod_name m) (mod_iostandard m) (mod_conn m) (mod_sites m)
    (mod_source_bels m) (mod_shorted_nets m) v
    (mod_unrouted_sinks m) (mod_unrouted_sources m) (mod_active_pips m)
    (mod_root_in m) (mod_root_out m) (mod_root_inout m) (mod_wires m)
    (mod_wire_assigns m) (mod_site_to_signal m) (mod_nets m) (mod_net_map m).

Definition with_unrouted_sinks (v : gset Z) (m : Module_) : Module_ :=
  mkModule (mod_name m) (mod_iostandard m) (mod_conn m) (mod_sites m)
    (mod_source_bels m) (mod_shorted_nets m) (mod_wire_pkey_to_wire m)
    v (mod_unrouted_sources m) (mod_active_pips m)
    (mod_root_in m) (mod_root_out m) (mod_root_inout m) (mod_wires m)
    (mod_wire_assigns m) (mod_site_to_signal m) (mod_nets m) (mod_net_map m).

Definition with_unrouted_sources (v : gset Z) (m : Module_) : Module_ :=
  mkModule (mod_name m) (mod_iostandard m) (mod_conn m) (mod_sites m)
    (mod_source_bels m) (mod_shorted_nets m) (mod_wire_pkey_to_wire m)
    (mod_unrouted_sinks m) v (mod_active_pips m)
    (mod_root_in m) (mod_root_out m) (mod_root_inout m) (mod_wires m)
    (mod_wire_assigns m) (mod_site_to_signal m) (mod_nets m) (mod_net_map m).

Definition with_wires (v : gset string) (m : Module_) : Module_ :=
  mkModule (mod_name m) (mod_iostandard m) (mod_conn m) (mod_sites m)
    (mod_source_bels m) (mod_shorted_nets m) (mod_wire_pkey_to_wire m)
    (mod_unrouted_sinks m) (mod_unrouted_sources m) (mod_active_pips m)
    (mod_root_in m) (mod_root_out m) (mod_root_inout m) v
    (mod_wire_assigns m) (mod_site_to_signal m) (mod_nets m) (mod_net_map m).

Definition with_wire_assigns (v : dict string string) (m : Module_)
  : Module_ :=
  mkModule (mod_name m) (mod_iostandard m) (mod_conn m) (mod_sites m)
    (mod_source_bels m) (mod_shorted_nets m) (mod_wire_pkey_to_wire m)
    (mod_unrouted_sinks m) (mod_unrouted_sources m) (mod_active_pips m)
    (mod_root_in m) (mod_root_out m) (mod_root_inout m) (mod_wires m)
    v (mod_site_to_signal m) (mod_nets m) (mod_net_map m).

Definition with_root_in (v : gset string) (m : Module_) : Module_ :=
  mkModule (mod_name m) (mod_iostandard m) (mod_conn m) (mod_sites m)
    (mod_source_bels m) (mod_shorted_nets m) (mod_wire_pkey_to_wire m)
    (mod_unrouted_sinks m) (mod_unrouted_sources m) (mod_active_pips m)
    v (mod_root_out m) (mod_root_inout m) (mod_wires m)
    (mod_wire_assigns m) (mod_site_to_signal m) (mod_nets m) (mod_net_map m).

Definition with_site_to_signal (v : dict string string) (m : Module_)
  : Module_ :=
  mkModule (mod_name m) (mod_iostandard m) (mod_conn m) (mod_sites m)
    (mod_source_bels m) (mod_shorted_nets m) (mod_wire_pkey_to_wire m)
    (mod_unrouted_sinks m) (mod_unrouted_sources m) (mod_active_pips m)
    (mod_root_in m) (mod_root_out m) (mod_root_inout m) (mod_wires m)
    (mod_wire_assigns m) v (mod_nets m) (mod_net_map m).

(** [Module.set_site_to_signal] *)
Definition set_site_to_signal (site_to_signal : dict string string)
  : M Module_ unit :=
  modify (with_site_to_signal site_to_signal).

(** [Module._check_top_name] *)
Definition _check_top_name (self : Module_) (tile site name : string)
  : string :=
  match dict_get site (mod_site_to_signal self) with
  | None => tile +:+ "_" +:+ site +:+ "_" +:+ name
  | Some signal => signal
  end.

(** [Module.add_top_in_port] *)
Definition add_top_in_port (tile site name : string) : M Module_ string :=
  (self <- gets id ;;
   let port := _check_top_name self tile site name in
   assert_ (negb (bool_decide (port ∈ mod_root_in self))) ;;
   modify (λ self, with_root_in (mod_root_in self ∪ {[port]}) self) ;;
   ret port)%py.

(** [Module.is_top_level] *)
Definition is_top_level (self : Module_) (wire : string) : bool :=
  bool_decide (wire ∈ mod_root_in self)
  || bool_decide (wire ∈ mod_root_out self)
  || bool_decide (wire ∈ mod_root_inout self).

(** [Module.set_iostandard] *)
Definition set_iostandard (iostandards : list (list string))
  : M Module_ unit :=
  (l0 <- lift_r (index iostandards 0) ;;
   let possible_iostandards : gset string := list_to_set l0 in
   let possible_iostandards :=
     foldl (λ possible l, possible ∩ list_to_set l)
           possible_iostandards iostandards in
   if negb (bool_decide (size possible_iostandards = 1%nat))
   then raise RuntimeError
   else
     match elements possible_iostandards with
     | x :: _ => modify (with_iostandard (Some x))
     | [] => raise KeyError
     end)%py.

(** *** [Site.integrate_site] *)

Definition empty_integration : IntegratedSite :=
  mkIntegratedSite ∅ ∅ ∅ [] [] [] [].

Definition add_wire (wire : string) (r : IntegratedSite) : IntegratedSite :=
  mkIntegratedSite (wires r ∪ {[wire]}) (unrouted_sinks r)
    (unrouted_sources r) (wire_pkey_to_wire r) (source_bels r)
    (wire_assigns r) (shorted_nets r).

Definition add_unrouted_sink (k : Z) (r : IntegratedSite) : IntegratedSite :=
  mkIntegratedSite (wires r) (unrouted_sinks r ∪ {[k]})
    (unrouted_sources r) (wire_pkey_to_wire r) (source_bels r)
    (wire_assigns r) (shorted_nets r).

Definition add_unrouted_source (k : Z) (r : IntegratedSite)
  : IntegratedSite :=
  mkIntegratedSite (wires r) (unrouted_sinks r)
    (unrouted_sources r ∪ {[k]}) (wire_pkey_to_wire r) (source_bels r)
    (wire_assigns r) (shorted_nets r).

Definition set_wire_pkey_to_wire (k : Z) (wire : string)
    (r : IntegratedSite) : IntegratedSite :=
  mkIntegratedSite (wires r) (unrouted_sinks r)
    (unrouted_sources r) (dict_set k wire (wire_pkey_to_wire r))
    (source_bels r) (wire_assigns r) (shorted_nets r).

Definition set_source_bel (k : Z) (v : bel_ref * string)
    (r : IntegratedSite) : IntegratedSite :=
  mkIntegratedSite (wires r) (unrouted_sinks r)
    (unrouted_sources r) (wire_pkey_to_wire r)
    (dict_set k v (source_bels r)) (wire_assigns r) (shorted_nets r).

Definition set_wire_assign (lhs rhs : string) (r : IntegratedSite)
  : IntegratedSite :=
  mkIntegratedSite (wires r) (unrouted_sinks r)
    (unrouted_sources r) (wire_pkey_to_wire r) (source_bels r)
    (dict_set lhs rhs (wire_assigns r)) (shorted_nets r).

Definition set_shorted_net (source sink : Z) (r : IntegratedSite)
  : IntegratedSite :=
  mkIntegratedSite (wires r) (unrouted_sinks r)
    (unrouted_sources r) (wire_pkey_to_wire r) (source_bels r)
    (wire_assigns r) (dict_set source sink (shorted_nets r)).

Definition with_pools (sinks sources : gset Z) (r : IntegratedSite)
  : IntegratedSite :=
  mkIntegratedSite (wires r) sinks sources (wire_pkey_to_wire r)
    (source_bels r) (wire_assigns r) (shorted_nets r).

(** Running a method body that has local variables [L] next to the
    objects it mutates: the locals are dropped when the body raises. *)
Definition mod_l {L W} (f : L → L) : M (L * W) unit :=
  modify (λ st, (f st.1, st.2)).
Definition mod_w {L W} (f : W → W) : M (L * W) unit :=
  modify (λ st, (st.1, f st.2)).
Definition lift_w {L W A} (m : M W A) : M (L * W) A :=
  λ st, let '(r, w') := m st.2 in (r, (st.1, w')).
Definition run_local {L W} (l0 : L) (m : M (L * W) unit) : M W L :=
  λ w, match m (l0, w) with
       | (Ok _, (l, w')) => (Ok l, w')
       | (Raise e, (_, w')) => (Raise e, w')
       end.

Section integrate.
Local Open Scope py_scope.
Variable self : site_ref.
Variable conn : Conn.
Variable module : Module_.

(** The names fixed before the loops: [self.tile], [prefix],
    [site_pin_map]; and the wire dictionaries the loops iterate.  The
    method builds the map from [frozenset(self.site.site_pins)], which
    Python iterates in an order of its own: [info_site_pins] lists the site
    pins in the order of that iteration. *)
Variable s : Site.
Let tile := site_tile s.
Let prefix := site_tile s +:+ "_" +:+ info_name (site_site s).
Let site_pin_map := make_site_pin_map (info_site_pins (site_site s)).

Definition check_connection (wire : connection) : M World unit :=
  match wire with
  | ConnConst _ => ret tt
  | ConnWire wire =>
      assert_ (dict_mem wire (site_sinks s)
               || dict_mem wire (site_sources s)
               || dict_mem wire (site_internal_sources s)
               || is_top_level module wire)
  | ConnNone => assert_ false
  end.

Definition integrate_bel (bel : bel_ref) : M World unit :=
  modify (upd_bel bel (set_prefix prefix)) ;;
  modify (upd_bel bel (set_site (info_name (site_site s)))) ;;
  b <- gets (λ w, bel_at w bel) ;;
  for_ (dict_values (bel_connections b)) check_connection.

Definition integrate_internal_source (wire : string)
  : M (IntegratedSite * World) unit :=
  let prefix_wire := prefix +:+ "_" +:+ wire in
  mod_l (add_wire prefix_wire).

Definition integrate_sink (wire : string)
  : M (IntegratedSite * World) unit :=
  if py_is_bool (PyStr wire) (is_top_level module wire) then ret tt
  else
    let prefix_wire := prefix +:+ "_" +:+ wire in
    mod_l (add_wire prefix_wire) ;;
    pin <- lift_r (getitem (site_pin_map !! wire)) ;;
    let wire_pkey := get_wire_pkey conn tile pin in
    mod_l (set_wire_pkey_to_wire wire_pkey prefix_wire) ;;
    mod_w (upd_site self (λ s', with_site_wire_to_wire_pkey
             (dict_set wire wire_pkey (site_site_wire_to_wire_pkey s')) s')) ;;
    mod_l (add_unrouted_sink wire_pkey).

Definition integrate_source (wire : string)
  : M (IntegratedSite * World) unit :=
  if py_is_bool (PyStr wire) (is_top_level module wire) then ret tt
  else
    let prefix_wire := prefix +:+ "_" +:+ wire in
    mod_l (add_wire prefix_wire) ;;
    pin <- lift_r (getitem (site_pin_map !! wire)) ;;
    let wire_pkey := get_wire_pkey conn tile pin in
    mod_l (set_wire_pkey_to_wire wire_pkey prefix_wire) ;;
    mod_w (upd_site self (λ s', with_site_wire_to_wire_pkey
             (dict_set wire wire_pkey (site_site_wire_to_wire_pkey s')) s')) ;;
    mod_l (add_unrouted_source wire_pkey) ;;
    source_bel <- lift_r (getitem (dict_get wire (site_sources s))) ;;
    match source_bel with
    | Some source_bel => mod_l (set_source_bel wire_pkey source_bel)
    | None => ret tt
    end.

(** One iteration of [for source_wire, sink_wire in self.outputs.items()];
    it touches local variables only. *)
Definition integrate_output (o : string * string) (r : IntegratedSite)
  : result IntegratedSite :=
  let '(source_wire, sink_wire) := o in
  let wire_source := prefix +:+ "_" +:+ sink_wire in
  let wire := prefix +:+ "_" +:+ source_wire in
  let r := add_wire wire r in
  let r := set_wire_assign wire wire_source r in
  match site_pin_map !! sink_wire with
  | None => Ok r
  | Some sink_pin =>
      let sink_wire_pkey := get_wire_pkey conn tile sink_pin in
      source_pin ← getitem (site_pin_map !! source_wire);
      let source_wire_pkey := get_wire_pkey conn tile source_pin in
      if bool_decide (sink_wire_pkey ∈ unrouted_sinks r) then
        let r := set_shorted_net source_wire_pkey sink_wire_pkey r in
        sources' ← set_remove source_wire_pkey (unrouted_sources r);
        let r := with_pools (unrouted_sinks r) sources' r in
        sinks' ← set_remove sink_wire_pkey (unrouted_sinks r);
        Ok (with_pools sinks' (unrouted_sources r) r)
      else Ok r
  end.

(** The method up to the loop over [self.outputs]: the checks and the
    loops over the BELs, the internal sources, the sinks and the sources. *)
Definition integrate_wires : M (IntegratedSite * World) unit :=
  lift_r (check_site s) ;;
  lift_w (for_ (site_bels s) integrate_bel) ;;
  for_ (dict_keys (site_internal_sources s)) integrate_internal_source ;;
  for_ (dict_keys (site_sinks s)) integrate_sink ;;
  for_ (dict_keys (site_sources s)) integrate_source.

Definition integrate_site_body : M (IntegratedSite * World) unit :=
  integrate_wires ;;
  r <- gets fst ;;
  r' <- lift_r (fold_r integrate_output (site_outputs s) r) ;;
  mod_l (λ _, r').
End integrate.

Definition integrate_site (self : site_ref) (conn : Conn) (module : Module_)
  : M World IntegratedSite :=
  λ w, run_local empty_integration
         (integrate_site_body self conn module (site_at w self)) w.

(** *** [Module.add_site] *)

Definition in_module {A} (m : M Module_ A) : M (Module_ * World) A :=
  λ st, let '(r, m') := m st.1 in (r, (m', st.2)).

Definition merge_into {A} (get_a : Module_ → A) (set_a : A → Module_ → Module_)
    (merge : A → A → result A) (b : A) : M (Module_ * World) unit :=
  (a <- gets (λ st, get_a st.1) ;;
   a' <- lift_r (merge a b) ;;
   mod_l (set_a a'))%py.

Definition add_site (site : site_ref) : M (Module_ * World) unit :=
  (self <- gets fst ;;
   integrated_site <- lift_w (integrate_site site (mod_conn self) self) ;;
   merge_into mod_wires with_wires merge_exclusive_sets
     (wires integrated_site) ;;
   merge_into mod_unrouted_sinks with_unrouted_sinks merge_exclusive_sets
     (unrouted_sinks integrated_site) ;;
   merge_into mod_unrouted_sources with_unrouted_sources merge_exclusive_sets
     (unrouted_sources integrated_site) ;;
   merge_into mod_wire_pkey_to_wire with_wire_pkey_to_wire
     merge_exclusive_dicts (wire_pkey_to_wire integrated_site) ;;
   merge_into mod_source_bels with_source_bels merge_exclusive_dicts
     (source_bels integrated_site) ;;
   merge_into mod_wire_assigns with_wire_assigns merge_exclusive_dicts
     (wire_assigns integrated_site) ;;
   merge_into mod_shorted_nets with_shorted_nets merge_exclusive_dicts
     (shorted_nets integrated_site) ;;
   mod_l (λ m, with_sites (mod_sites m ++ [site]) m))%py.

(** *** [Module.output_nets] *)

Definition find_pin_text (cell pin : string) : string :=
  nl +:+ "set pin [get_pins " +:+ cell +:+ "/" +:+ pin +:+ "]" +:+ nl
  +:+ "if { $pin == {} } {" +:+ nl
  +:+ "    error " +:+ dq +:+ "Failed to find pin!" +:+ dq +:+ nl
  +:+ "}" +:+ nl
  +:+ "set net [get_nets -of_object $pin]" +:+ nl
  +:+ "if { $net == {} } {" +:+ nl
  +:+ "    error " +:+ dq +:+ "Failed to find net!" +:+ dq +:+ nl
  +:+ "}" +:+ nl.

Definition fixed_route_text (self : Module_) (net : Net) : string :=
  nl +:+ "set_property FIXED_ROUTE "
  +:+ join " " (make_fixed_route net (mod_conn self)
                  (mod_wire_pkey_to_wire self))
  +:+ " $net" +:+ nl.

(** The lines one iteration of the loop over [self.nets.items()] yields. *)
Definition output_net (self : Module_) (w : World) (kn : Z * Net)
  : list string :=
  let '(net_wire_pkey, net) := kn in
  if decide (net_wire_pkey = ZERO_NET) then
    ["set net [get_nets {<const0>}]"; fixed_route_text self net]
  else if decide (net_wire_pkey = ONE_NET) then
    ["set net [get_nets {<const1>}]"; fixed_route_text self net]
  else
    match dict_get net_wire_pkey (mod_source_bels self) with
    | None => []
    | Some (bel, pin) =>
        if negb (is_net_alive net) then []
        else [find_pin_text (get_cell (bel_at w bel)) pin;
              fixed_route_text self net]
    end.

Definition output_nets (self : Module_) (w : World) : result (list string) :=
  nets ← match mod_nets self with
         | Some nets => Ok nets
         | None => Raise AttributeError
         end;
  _ ← assert_r (bool_decide (0 < length nets)%nat);
  Ok (flat_map (output_net self w) nets).

(** *** [Site.remove_bel] *)

(** [enumerate] and [break] on the first element that passes [p]. *)
Fixpoint first_index {A} (p : A → bool) (l : list A) : option nat :=
  match l with
  | [] => None
  | x :: l' => if p x then Some 0%nat else S <$> first_index p l'
  end.

(** [site_wire in bel_to_remove.outputs]: [outputs] holds BEL pin names
    (see [add_source], [add_internal_source]). *)
Definition connection_in (site_wire : connection) (outputs : gset string)
  : bool :=
  match site_wire with
  | ConnWire w => bool_decide (w ∈ outputs)
  | _ => false
  end.

Section remove_bel.
Local Open Scope py_scope.
Variable self : site_ref.
Variable bel_to_remove : bel_ref.

Definition is_removed (bel : bel_ref) : bool :=
  bool_decide (bel = bel_to_remove).

Definition check_unused_by (bel : bel_ref) : M World unit :=
  if is_removed bel then ret tt
  else
    b <- the_bel bel ;;
    r <- the_bel bel_to_remove ;;
    for_ (dict_values (bel_connections b)) (λ site_wire,
      assert_ (negb (connection_in site_wire (bel_outputs r)))).

Definition remove_from_sink (sk : string * list (bel_ref * string))
  : M (list Z * World) unit :=
  let '(sink_wire, bels_using_sink) := sk in
  let bel_idx := first_index (λ '(bel, _), is_removed bel) bels_using_sink in
  let bels_using_sink :=
    match bel_idx with
    | Some idx => delete idx bels_using_sink
    | None => bels_using_sink
    end in
  match bel_idx with
  | Some _ =>
      mod_w (upd_site self (λ s,
        with_sinks (dict_set sink_wire bels_using_sink (site_sinks s)) s))
  | None => ret tt
  end ;;
  if decide (length bels_using_sink = 0%nat) then
    s <- gets (λ st, site_at st.2 self) ;;
    k <- lift_r (getitem (dict_get sink_wire (site_site_wire_to_wire_pkey s))) ;;
    mod_l (λ removed_sinks, removed_sinks ++ [k])
  else ret tt.

(** The local variables are [removed_sources] and [sources_to_remove]. *)
Definition collect_source (sv : string * option (bel_ref * string))
  : M ((list Z * list string) * World) unit :=
  let '(source_wire, v) := sv in
  match v with
  | None => raise TypeError
  | Some (bel, _) =>
      if is_removed bel then
        s <- gets (λ st, site_at st.2 self) ;;
        k <- lift_r (getitem
               (dict_get source_wire (site_site_wire_to_wire_pkey s))) ;;
        mod_l (λ '(removed_sources, sources_to_remove),
                 (removed_sources ++ [k], sources_to_remove ++ [source_wire]))
      else ret tt
  end.

Definition Site_remove_bel : M World (list Z * list Z) :=
  s <- the_site self ;;
  let bel_idx := first_index is_removed (site_bels s) in
  assert_ (bool_decide (is_Some bel_idx)) ;;
  for_ (site_bels s) check_unused_by ;;
  modify (upd_site self (λ s,
    with_bels (match bel_idx with
               | Some idx => delete idx (site_bels s)
               | None => site_bels s
               end) s)) ;;
  removed_sinks <- run_local [] (for_ (site_sinks s) remove_from_sink) ;;
  s <- the_site self ;;
  removed <- run_local ([], []) (for_ (site_sources s) collect_source) ;;
  let '(removed_sources, sources_to_remove) := removed in
  for_ sources_to_remove (λ wire,
    modify (upd_site self (λ s,
      with_sources (dict_del wire (site_sources s)) s))) ;;
  ret (removed_sinks, removed_sources).
End remove_bel.
End module.

(** ** Further methods of [Site] *)

(** [Site.maybe_get_bel] *)
Definition maybe_get_bel (self : Site) (name : string) : option bel_ref :=
  if dict_mem name (site_bel_map self) then dict_get name (site_bel_map self)
  else None.

(** [Site.set_post_route_cleanup_function]: the callback is kept as a handle. *)
Definition set_post_route_cleanup_function (self : site_ref) (func : nat)
  : M World unit :=
  modify (upd_site self (λ s,
    mkSite (site_bels s) (site_sinks s) (site_sources s) (site_outputs s)
      (site_internal_sources s) (site_set_features s) (Some func)
      (site_bel_map s) (site_site_wire_to_wire_pkey s) (site_tile s)
      (site_site s))).

(** [wire in d] for a connection value: only a wire name can be a key. *)
Definition connection_key_in {V} (c : connection) (d : dict string V) : bool :=
  match c with
  | ConnWire x => dict_mem x d
  | _ => false
  end.

(** [Site.find_internal_source] *)
Fixpoint find_other_source (bel : bel_ref) (internal_source : string)
    (sources : dict string (option (bel_ref * string)))
  : result (option string) :=
  match sources with
  | [] => Ok None
  | (source, v) :: sources' =>
      match v with
      | None => Raise TypeError
      | Some (bel_source, bel_wire) =>
          if negb (bool_decide (bel_source = bel))
          then find_other_source bel internal_source sources'
          else if bool_decide (bel_wire = internal_source)
          then find_other_source bel internal_source sources'
          else Ok (Some source)
      end
  end.

Definition find_internal_source (self : Site) (b : Bel) (bel : bel_ref)
    (internal_source : string) : result (option string) :=
  source_wire ← getitem (dict_get internal_source (bel_connections b));
  _ ← assert_r (connection_key_in source_wire (site_internal_sources self));
  find_other_source bel internal_source (site_sources self).

(** [Site.find_internal_sink] *)
Definition find_internal_sink (self : Site) (b : Bel) (internal_sink : string)
  : result (option string) :=
  sink_wire ← getitem (dict_get internal_sink (bel_connections b));
  _ ← assert_r (negb (connection_in sink_wire (bel_outputs b)));
  if negb (connection_key_in sink_wire (site_internal_sources self)) then
    _ ← assert_r (connection_key_in sink_wire (site_sinks self));
    match sink_wire with
    | ConnWire x => Ok (Some x)
    | _ => Ok None
    end
  else Ok None.

(** The loop of [remove_internal_sink] that collects [idx_to_remove],
    started at index [idx]. *)
Fixpoint idx_to_remove_from (bel : bel_ref) (internal_sink : string)
    (l : list (bel_ref * string)) (idx : nat) : result (list nat) :=
  match l with
  | [] => Ok []
  | (other_bel, other_internal_sink) :: l' =>
      if bool_decide (bel = other_bel) then
        _ ← assert_r (bool_decide (other_internal_sink = internal_sink));
        rest ← idx_to_remove_from bel internal_sink l' (S idx);
        Ok (idx :: rest)
      else idx_to_remove_from bel internal_sink l' (S idx)
  end.

(** [Site.remove_internal_sink] *)
Definition remove_internal_sink (self : site_ref) (bel : bel_ref)
    (internal_sink : string) : M World (option Z) :=
  (s <- the_site self ;;
   b <- the_bel bel ;;
   sink_wire <- lift_r (find_internal_sink s b internal_sink) ;;
   modify (upd_bel bel (λ b,
     with_connections (dict_set internal_sink ConnNone (bel_connections b)) b)) ;;
   match sink_wire with
   | None => ret None
   | Some sink_wire =>
       l <- lift_r (getitem (dict_get sink_wire (site_sinks s))) ;;
       idx_to_remove <- lift_r (idx_to_remove_from bel internal_sink l 0) ;;
       for_ (reverse (merge_sort le idx_to_remove)) (λ idx,
         modify (upd_site self (λ s,
           match dict_get sink_wire (site_sinks s) with
           | Some l => with_sinks (dict_set sink_wire (delete idx l)
                                     (site_sinks s)) s
           | None => s
           end))) ;;
       s <- the_site self ;;
       l <- lift_r (getitem (dict_get sink_wire (site_sinks s))) ;;
       if decide (length l = 0%nat) then
         modify (upd_site self (λ s,
           with_sinks (dict_del sink_wire (site_sinks s)) s)) ;;
         s <- the_site self ;;
         k <- lift_r (getitem
                (dict_get sink_wire (site_site_wire_to_wire_pkey s))) ;;
         ret (Some k)
       else ret None
   end)%py.

(** ** Further methods of [Module] *)

Section module_more.
Context {Conn Net : Type}.
Local Open Scope py_scope.

Definition with_root_out (v : gset string) (m : @Module_ Conn Net)
  : @Module_ Conn Net :=
  mkModule (mod_name m) (mod_iostandard m) (mod_conn m) (mod_sites m)
    (mod_source_bels m) (mod_shorted_nets m) (mod_wire_pkey_to_wire m)
    (mod_unrouted_sinks m) (mod_unrouted_sources m) (mod_active_pips m)
    (mod_root_in m) v (mod_root_inout m) (mod_wires m)
    (mod_wire_assigns m) (mod_site_to_signal m) (mod_nets m) (mod_net_map m).

Definition with_root_inout (v : gset string) (m : @Module_ Conn Net)
  : @Module_ Conn Net :=
  mkModule (mod_name m) (mod_iostandard m) (mod_conn m) (mod_sites m)
    (mod_source_bels m) (mod_shorted_nets m) (mod_wire_pkey_to_wire m)
    (mod_unrouted_sinks m) (mod_unrouted_sources m) (mod_active_pips m)
    (mod_root_in m) (mod_root_out m) v (mod_wires m)
    (mod_wire_assigns m) (mod_site_to_signal m) (mod_nets m) (mod_net_map m).

(** [Module.add_top_out_port] *)
Definition add_top_out_port (tile site name : string)
  : M (@Module_ Conn Net) string :=
  self <- gets id ;;
  let port := _check_top_name self tile site name in
  assert_ (negb (bool_decide (port ∈ mod_root_out self))) ;;
  modify (λ self, with_root_out (mod_root_out self ∪ {[port]}) self) ;;
  ret port.

(** [Module.add_top_inout_port] *)
Definition add_top_inout_port (tile site name : string)
  : M (@Module_ Conn Net) string :=
  self <- gets id ;;
  let port := _check_top_name self tile site name in
  assert_ (negb (bool_decide (port ∈ mod_root_inout self))) ;;
  modify (λ self, with_root_inout (mod_root_inout self ∪ {[port]}) self) ;;
  ret port.

(** [Module.get_bels] *)
Definition get_bels (self : @Module_ Conn Net) (w : World) : list bel_ref :=
  flat_map (λ site, site_bels (site_at w site)) (mod_sites self).

(** [Module.remove_sink] *)
Definition remove_sink (wire_pkey : Z) : M (@Module_ Conn Net) unit :=
  self <- gets id ;;
  sinks' <- lift_r (set_remove wire_pkey (mod_unrouted_sinks self)) ;;
  modify (with_unrouted_sinks sinks') ;;
  wire <- lift_r (getitem (dict_get wire_pkey (mod_wire_pkey_to_wire self))) ;;
  wires' <- lift_r (set_remove wire (mod_wires self)) ;;
  modify (with_wires wires') ;;
  sink_wire <- lift_r (getitem
                 (dict_get wire_pkey (mod_wire_pkey_to_wire self))) ;;
  if dict_mem sink_wire (mod_wire_assigns self)
  then modify (λ self,
         with_wire_assigns (dict_del sink_wire (mod_wire_assigns self)) self)
  else ret tt.

(** One iteration of the loop of [Module.remove_bel] over the removed
    sources. *)
Definition remove_source (wire_pkey : Z) : M (@Module_ Conn Net) unit :=
  self <- gets id ;;
  source_wire <- lift_r (getitem
                   (dict_get wire_pkey (mod_wire_pkey_to_wire self))) ;;
  lift_r (for_r (dict_values (mod_wire_assigns self)) (λ other_source_wire,
            assert_r (negb (bool_decide (source_wire = other_source_wire))))) ;;
  sources' <- lift_r (set_remove wire_pkey (mod_unrouted_sources self)) ;;
  modify (with_unrouted_sources sources') ;;
  self <- gets id ;;
  (if dict_mem wire_pkey (mod_source_bels self)
   then modify (λ self,
          with_source_bels (dict_del wire_pkey (mod_source_bels self)) self)
   else raise KeyError).

(** [Module.remove_bel] *)
Definition Module_remove_bel (site : site_ref) (bel : bel_ref)
  : M (@Module_ Conn Net * World) unit :=
  removed <- lift_w (Site_remove_bel site bel) ;;
  let '(removed_sinks, removed_sources) := removed in
  for_ removed_sources (λ wire_pkey, in_module (remove_source wire_pkey)) ;;
  for_ removed_sinks (λ wire_pkey, in_module (remove_sink wire_pkey)).

(** [Module.find_sinks_from_source] *)
Definition find_sinks_from_source (self : @Module_ Conn Net) (site : Site)
    (site_wire : string) : result (list string) :=
  wire_pkey ← getitem (dict_get site_wire (site_site_wire_to_wire_pkey site));
  nets ← match mod_nets self with
         | Some nets => Ok nets
         | None => Raise AttributeError
         end;
  _ ← assert_r (dict_mem wire_pkey nets);
  source_wire ← getitem (dict_get wire_pkey (mod_wire_pkey_to_wire self));
  Ok (omap (λ '(sink_wire, other_source_wire),
             if decide (source_wire = other_source_wire)
             then Some sink_wire else None)
           (mod_wire_assigns self)).
End module_more.

(** ** Specification predicates and example inputs *)

(** What [check_site] enforces: internal source names are disjoint from sink
    names and from source names, and every BEL named by a source, a sink
    or an internal source is owned by the site. *)
Definition site_consistent (s : Site) : Prop :=
  (∀ w, w ∈ dict_keys (site_internal_sources s) → w ∉ dict_keys (site_sinks s))
  ∧ (∀ w, w ∈ dict_keys (site_internal_sources s)
          → w ∉ dict_keys (site_sources s))
  ∧ (∀ w bel pin, (w, Some (bel, pin)) ∈ site_sources s → bel ∈ site_bels s)
  ∧ (∀ w l bel pin, (w, l) ∈ site_sinks s → (bel, pin) ∈ l → bel ∈ site_bels s)
  ∧ (∀ w bel pin, (w, Some (bel, pin)) ∈ site_internal_sources s
                  → bel ∈ site_bels s).

(** A site as [Site.__init__] leaves it, and a world of fresh objects. *)
Definition blank_site (tile : string) (site : SiteInfo) : Site :=
  mkSite [] [] [] [] [] ∅ None [] [] tile site.

Definition slice_info : SiteInfo :=
  mkSiteInfo "SLICE_X0Y0"
    [mkSitePin "AX" "CLBLL_L_AX"; mkSitePin "AMUX" "CLBLL_L_AMUX";
     mkSitePin "A" "CLBLL_L_A"].

Definition fresh_world : World :=
  mkWorld (λ _, Bel_init "LUT6" None true)
          (λ _, blank_site "CLBLL_L_X2Y3" slice_info).

(** The state a sequence of calls leaves behind. *)
Definition exec {St A} (m : M St A) (st : St) : St := (m st).2.

(** A site on which wire [AX] is registered both as a sink and as a
    source of BEL 0. *)
Definition overlap_world : World :=
  exec (add_bel 0 0 None ;;
        add_sink 0 0 "I0" "AX" ;;
        add_source 0 0 "O" "AX")%py fresh_world.

(** The suffix [Site.__init__] records for a feature, and the tile and site
    parts of its name. *)
Definition feature_suffix (f : Feature) : string :=
  join "." (drop 2 (split "." (feature f))).

Definition same_tile_and_site (f f0 : Feature) : Prop :=
  split "." (feature f) !! 0%nat = split "." (feature f0) !! 0%nat
  ∧ split "." (feature f) !! 1%nat = split "." (feature f0) !! 1%nat.

(** A batch whose second feature has weight zero and names another tile. *)
Definition stray_zero_batch : list Feature :=
  [mkFeature "CLBLL_L_X2Y3.SLICEL_X0.ALUT.INIT[0]" 1;
   mkFeature "CLBLL_R_X9Y9.SLICEL_X0.AFF.ZINI" 0].

(** The bus an indexed wire name belongs to, and its index, as [make_bus]
    reads them off the name. *)
Definition wire_bus (w : string) : option string :=
  if decide (find "[" w ≠ -1)%Z then Some (slice 0 (find "[" w) w) else None.

Definition wire_index (w : string) : result Z :=
  int (slice (find "[" w + 1) (-1) w).

(** The indices of the wires of family [name], in the order met. *)
Definition family_indices (wires : list string) (name : string) : list Z :=
  omap (λ w, if decide (wire_bus w = Some name)
             then match wire_index w with Ok n => Some n | Raise _ => None end
             else None) wires.

(** A family of bus indices that is not [0 .. k-1] once each: it has a
    duplicate, lacks index 0, has a negative index, or has a gap. *)
Definition malformed_bus (values : list Z) : Prop :=
  ¬ NoDup values
  ∨ 0%Z ∉ values
  ∨ (∃ v, v ∈ values ∧ (v < 0)%Z)
  ∨ (∃ v i, v ∈ values ∧ (0 ≤ i < v)%Z ∧ i ∉ values).

(** What the first loop of [make_bus] has built after the wires [pre]. *)
Definition make_bus_collected (pre : list string)
    (st : list (string * option Z) * list (string * list Z)) : Prop :=
  NoDup (dict_keys st.1) ∧ NoDup (dict_keys st.2)
  ∧ (∀ name, dict_get name st.2
             = if decide (family_indices pre name = []) then None
               else Some (family_indices pre name))
  ∧ (∀ w v, dict_get w st.1 = Some v → v = None)
  ∧ (∀ w, w ∈ dict_keys st.1 ↔ w ∈ pre ∧ wire_bus w = None).

(** What the second loop of [make_bus] has recorded after the buses [pre]. *)
Definition make_bus_checked (output0 : list (string * option Z))
    (pre : list (string * list Z)) (out : list (string * option Z)) : Prop :=
  (∀ name values, (name, values) ∈ pre →
     values ≡ₚ seqZ 0 (Z.of_nat (length values))
     ∧ dict_get name out = Some (Some (Z.of_nat (length values) - 1)%Z))
  ∧ (∀ name, name ∉ dict_keys pre → dict_get name out = dict_get name output0)
  ∧ NoDup (dict_keys out).

(** ** Reasoning about methods *)

(** [preserves I m]: whatever [m] does, and whether it returns or raises,
    it leaves a state that satisfies [I] if it started in one. *)
Definition preserves {St A} (I : St → Prop) (m : M St A) : Prop :=
  ∀ st, I st → I (m st).2.

(** [returns P m Q]: when [m] starts in a state that satisfies [P] and
    returns [a], it leaves a state that satisfies [Q a]. *)
Definition returns {St A} (P : St → Prop) (m : M St A) (Q : A → St → Prop)
  : Prop :=
  ∀ st a st', P st → m st = (Ok a, st') → Q a st'.

(** The global identity of a site wire: its site pin's tile wire, looked
    up in the wire index. *)
Definition wire_identity {Conn} (get_wire_pkey : Conn → string → string → Z)
    (conn : Conn) (s : Site) (wire : string) : option Z :=
  get_wire_pkey conn (site_tile s)
    <$> make_site_pin_map (info_site_pins (site_site s)) !! wire.

(** Every source that a shorted net starts from has left the unrouted
    sources. *)
Definition shorted_sources_routed (r : IntegratedSite) : Prop :=
  ∀ src, src ∈ dict_keys (shorted_nets r) → src ∉ unrouted_sources r.

(** From [r1] to [r2] the unrouted pools only shrink and the shorted nets
    only grow. *)
Definition shorting_progress (r1 r2 : IntegratedSite) : Prop :=
  unrouted_sources r2 ⊆ unrouted_sources r1
  ∧ unrouted_sinks r2 ⊆ unrouted_sinks r1
  ∧ (∀ src k, dict_get src (shorted_nets r1) = Some k →
              dict_get src (shorted_nets r2) = Some k).

(** A wire index for the example sites. *)
Definition example_wire_pkey (_ : unit) (tile wire : string) : Z :=
  if decide (wire = "CLBLL_L_AX") then 1
  else if decide (wire = "CLBLL_L_AMUX") then 2
  else if decide (wire = "CLBLL_L_A") then 3
  else 0.

Definition example_module : @Module_ unit unit := Module_init tt "top".

(** BEL 0 consumes and drives [AX]; [AMUX] mirrors [AX] and is driven by
    BEL 1. *)
Definition mirror_world : World :=
  exec (add_bel 0 0 None ;;
        add_bel 0 1 None ;;
        add_sink 0 0 "I0" "AX" ;;
        add_source 0 0 "O" "AX" ;;
        add_output_from_output 0 "AMUX" "AX" ;;
        add_source 0 1 "O" "AMUX")%py fresh_world.

Definition mirror_result : result IntegratedSite * World :=
  integrate_site example_wire_pkey 0 tt example_module mirror_world.

Definition mirror_integrated : IntegratedSite :=
  match mirror_result.1 with Ok r => r | Raise _ => empty_integration end.

(** Every wire of [pre] has an identity and that identity is in the pool. *)
Definition sinks_resolved {Conn} (get_wire_pkey : Conn → string → string → Z)
    (conn : Conn) (s : Site) (pre : list string) (r : IntegratedSite) : Prop :=
  ∀ wire, wire ∈ pre →
    ∃ k, wire_identity get_wire_pkey conn s wire = Some k
         ∧ k ∈ unrouted_sinks r.

Definition sources_resolved {Conn} (get_wire_pkey : Conn → string → string → Z)
    (conn : Conn) (s : Site) (pre : list string) (r : IntegratedSite) : Prop :=
  ∀ wire, wire ∈ pre →
    ∃ k, wire_identity get_wire_pkey conn s wire = Some k
         ∧ k ∈ unrouted_sources r.

(** A module whose top-level input port is named [AX], like the sink and
    source wire of [overlap_world]. *)
Definition top_module : @Module_ unit unit :=
  exec (set_site_to_signal [("IOB_X0Y1", "AX")] ;;
        add_top_in_port "LIOB33_X0Y1" "IOB_X0Y1" "IPAD")%py example_module.

Definition top_result : result IntegratedSite * World :=
  integrate_site example_wire_pkey 0 tt top_module overlap_world.

Definition top_integrated : IntegratedSite :=
  match top_result.1 with Ok r => r | Raise _ => empty_integration end.

(** The dictionaries of an integration result have each key once. *)
Definition dicts_wf (r : IntegratedSite) : Prop :=
  NoDup (dict_keys (wire_pkey_to_wire r))
  ∧ NoDup (dict_keys (source_bels r))
  ∧ NoDup (dict_keys (wire_assigns r))
  ∧ NoDup (dict_keys (shorted_nets r)).

Definition keys_disjoint {K V} (dict_a dict_b : list (K * V)) : Prop :=
  ∀ k, k ∈ dict_keys dict_a → k ∉ dict_keys dict_b.

(** No name and no identity of the integration result is in the
    corresponding collection of the module yet. *)
Definition merge_disjoint {Conn Net} (m : @Module_ Conn Net)
    (r : IntegratedSite) : Prop :=
  mod_wires m ## wires r
  ∧ mod_unrouted_sinks m ## unrouted_sinks r
  ∧ mod_unrouted_sources m ## unrouted_sources r
  ∧ keys_disjoint (mod_wire_pkey_to_wire m) (wire_pkey_to_wire r)
  ∧ keys_disjoint (mod_source_bels m) (source_bels r)
  ∧ keys_disjoint (mod_wire_assigns m) (wire_assigns r)
  ∧ keys_disjoint (mod_shorted_nets m) (shorted_nets r).

(** The module with every collection of the integration result joined to
    its own, and the site appended. *)
Definition merged_module {Conn Net} (site : site_ref) (m : @Module_ Conn Net)
    (r : IntegratedSite) : @Module_ Conn Net :=
  mkModule (mod_name m) (mod_iostandard m) (mod_conn m)
    (mod_sites m ++ [site])
    (mod_source_bels m ++ source_bels r)
    (mod_shorted_nets m ++ shorted_nets r)
    (mod_wire_pkey_to_wire m ++ wire_pkey_to_wire r)
    (mod_unrouted_sinks m ∪ unrouted_sinks r)
    (mod_unrouted_sources m ∪ unrouted_sources r)
    (mod_active_pips m) (mod_root_in m) (mod_root_out m) (mod_root_inout m)
    (mod_wires m ∪ wires r)
    (mod_wire_assigns m ++ wire_assigns r)
    (mod_site_to_signal m) (mod_nets m) (mod_net_map m).

(** Every name, identity and dictionary entry of [m] is still in [m']. *)
Definition nothing_overwritten {Conn Net} (m m' : @Module_ Conn Net) : Prop :=
  mod_wires m ⊆ mod_wires m'
  ∧ mod_unrouted_sinks m ⊆ mod_unrouted_sinks m'
  ∧ mod_unrouted_sources m ⊆ mod_unrouted_sources m'
  ∧ (∀ k v, dict_get k (mod_wire_pkey_to_wire m) = Some v →
            dict_get k (mod_wire_pkey_to_wire m') = Some v)
  ∧ (∀ k v, dict_get k (mod_source_bels m) = Some v →
            dict_get k (mod_source_bels m') = Some v)
  ∧ (∀ k v, dict_get k (mod_wire_assigns m) = Some v →
            dict_get k (mod_wire_assigns m') = Some v)
  ∧ (∀ k v, dict_get k (mod_shorted_nets m) = Some v →
            dict_get k (mod_shorted_nets m') = Some v).

(** Two sites that claim the same wires: [overlap_world] integrated twice. *)
Definition once_added : result unit * (@Module_ unit unit * World) :=
  add_site example_wire_pkey 0 (example_module, overlap_world).

Definition twice_added : result unit * (@Module_ unit unit * World) :=
  add_site example_wire_pkey 0 once_added.2.

Definition overlap_result : result IntegratedSite * World :=
  integrate_site example_wire_pkey 0 tt example_module overlap_world.

Definition overlap_integrated : IntegratedSite :=
  match overlap_result.1 with Ok r => r | Raise _ => empty_integration end.

(** [raises_only E m]: when [m] raises, the exception is one of [E]. *)
Definition raises_only {St A} (E : exn → Prop) (m : M St A) : Prop :=
  ∀ st e st', m st = (Raise e, st') → E e.

(** What the guard of [Site.remove_bel] looks for: another owned BEL with a
    connection whose wire name is one of the names in the removed BEL's
    [outputs]. *)
Definition output_name_in_use (w : World) (s : Site) (b : bel_ref) : Prop :=
  ∃ bel pin x,
    bel ∈ site_bels s ∧ bel ≠ b
    ∧ (pin, ConnWire x) ∈ bel_connections (bel_at w bel)
    ∧ x ∈ bel_outputs (bel_at w b).

(** A LUT (BEL 0) drives the internal wire [A6LUT_O6] from its pin [O6],
    and a flip-flop (BEL 1) consumes that wire on its pin [D]. *)
Definition lut_ff_world : World :=
  exec (add_bel 0 0 None ;;
        add_bel 0 1 None ;;
        add_internal_source 0 0 "O6" "A6LUT_O6" ;;
        connect_internal 0 1 "D" "A6LUT_O6")%py fresh_world.

(** What [Site.remove_bel] leaves alone: every BEL, every other site, and
    of its own site everything but [bels], [sinks] and [sources]. *)
Definition remove_bel_frame (self : site_ref) (w w' : World) : Prop :=
  bel_at w' = bel_at w
  ∧ (∀ r, r ≠ self → site_at w' r = site_at w r)
  ∧ site_internal_sources (site_at w' self)
    = site_internal_sources (site_at w self)
  ∧ site_outputs (site_at w' self) = site_outputs (site_at w self)
  ∧ site_bel_map (site_at w' self) = site_bel_map (site_at w self)
  ∧ site_site_wire_to_wire_pkey (site_at w' self)
    = site_site_wire_to_wire_pkey (site_at w self).

(** In [lut_ff_world] the flip-flop's pin [D] is connected to the wire
    that the LUT's output pin [O6] drives. *)
Definition pin_of_ff_consumes_lut_output (w : World) : Prop :=
  dict_get "D" (bel_connections (bel_at w 1)) = Some (ConnWire "A6LUT_O6")
  ∧ dict_get "O6" (bel_connections (bel_at w 0)) = Some (ConnWire "A6LUT_O6")
  ∧ bel_outputs (bel_at w 0) = {["O6"]}.

(** Every pin that drives a source or an internal source of the site is in
    the [outputs] of its BEL. *)
Definition drivers_are_outputs (self : site_ref) (w : World) : Prop :=
  (∀ wire bel pin, (wire, Some (bel, pin)) ∈ site_sources (site_at w self) →
     pin ∈ bel_outputs (bel_at w bel))
  ∧ (∀ wire bel pin,
       (wire, Some (bel, pin)) ∈ site_internal_sources (site_at w self) →
       pin ∈ bel_outputs (bel_at w bel)).

(** The calls a site is built with. *)
Inductive site_call : Type :=
| CallAddSink (bel : bel_ref) (bel_pin sink : string)
| CallAddSource (bel : bel_ref) (bel_pin source : string)
| CallAddOutputFromInternal (source internal_source : string)
| CallAddOutputFromOutput (source other_source : string)
| CallAddInternalSource (bel : bel_ref) (bel_pin wire_name : string)
| CallConnectInternal (bel : bel_ref) (bel_pin source : string)
| CallAddBel (bel : bel_ref) (name : option string).

Definition run_site_call (self : site_ref) (c : site_call) : M World unit :=
  match c with
  | CallAddSink bel bel_pin sink => add_sink self bel bel_pin sink
  | CallAddSource bel bel_pin source => add_source self bel bel_pin source
  | CallAddOutputFromInternal source internal_source =>
      add_output_from_internal self source internal_source
  | CallAddOutputFromOutput source other_source =>
      add_output_from_output self source other_source
  | CallAddInternalSource bel bel_pin wire_name =>
      add_internal_source self bel bel_pin wire_name
  | CallConnectInternal bel bel_pin source =>
      connect_internal self bel bel_pin source
  | CallAddBel bel name => add_bel self bel name
  end.

(** A name without the character [c]. *)
Definition lacks (c : ascii) (s : string) : Prop := find c s = (-1)%Z.

(** The feature [tile.site.rest] with weight [v]. *)
Definition site_feature (tile site : string) (rv : string * Z) : Feature :=
  mkFeature (tile +:+ "." +:+ site +:+ "." +:+ rv.1) rv.2.

(** A BEL as [integrate_site] labels it: prefix and site name set. *)
Definition labelled (s : Site) (b : Bel) : Bel :=
  set_site (info_name (site_site s))
    (set_prefix (site_tile s +:+ "_" +:+ info_name (site_site s)) b).

(** A connection target that [integrate_site] accepts. *)
Definition connection_known {Conn Net} (module : @Module_ Conn Net) (s : Site)
    (c : connection) : Prop :=
  match c with
  | ConnConst _ => True
  | ConnWire wire =>
      wire ∈ dict_keys (site_sinks s) ∨ wire ∈ dict_keys (site_sources s)
      ∨ wire ∈ dict_keys (site_internal_sources s)
      ∨ is_top_level module wire = true
  | ConnNone => False
  end.

(** The BELs of [pre] are labelled and have only known connections; all
    other BELs and all sites are as in [w]. *)
Definition bels_integrated {Conn Net} (module : @Module_ Conn Net) (s : Site)
    (w : World) (pre : list bel_ref) (w1 : World) : Prop :=
  site_at w1 = site_at w
  ∧ (∀ r, bel_at w1 r
          = if decide (r ∈ pre) then labelled s (bel_at w r) else bel_at w r)
  ∧ (∀ r pin c, r ∈ pre → (pin, c) ∈ bel_connections (bel_at w r) →
       connection_known module s c).

(** The state of the loops of [integrate_site] over the sinks and the
    sources, started in [w1]: only the reverse map of the site has changed,
    and it maps every wire of [pre] to its identity. *)
Definition wires_mapped {Conn} (get_wire_pkey : Conn → string → string → Z)
    (conn : Conn) (self : site_ref) (s : Site) (w1 : World)
    (pre : list string) (w2 : World) : Prop :=
  bel_at w2 = bel_at w1
  ∧ (∀ r, r ≠ self → site_at w2 r = site_at w1 r)
  ∧ site_at w2 self
    = with_site_wire_to_wire_pkey
        (site_site_wire_to_wire_pkey (site_at w2 self)) (site_at w1 self)
  ∧ (∀ wire, wire ∈ pre →
       ∃ k, wire_identity get_wire_pkey conn s wire = Some k
            ∧ dict_get wire (site_site_wire_to_wire_pkey (site_at w2 self))
              = Some k).

(** A BEL pin name of the form [bus[n]], as [Bel.output_verilog] reads it:
    one opening bracket, a closing bracket at the end, an integer between. *)
Definition indexed_pin (wire bus : string) (n : Z) : Prop :=
  contains "[" wire = true
  ∧ ∃ address, split "[" wire = [bus; address]
               ∧ last_char address = Ok "]"%char
               ∧ int (slice 0 (-1) address) = Ok n.

(** The buses [Bel.output_verilog] has collected from the connections
    [pre]: every indexed pin of [pre] has an entry in its bus and the
    direction of the bus is the pin's, and every entry of a bus is the
    connection of an indexed pin of [pre]. *)
Definition buses_collected (top : string → bool) (self : Bel)
    (pre : list (string * connection))
    (buses : dict string (dict Z connection))
    (bus_is_output : dict string bool) : Prop :=
  (∀ wire c, (wire, c) ∈ pre → contains "[" wire = true →
     ∃ bus n bits,
       indexed_pin wire bus n
       ∧ dict_get bus buses = Some bits
       ∧ is_Some (dict_get n bits)
       ∧ dict_get bus bus_is_output
         = Some (bool_decide (wire ∈ bel_outputs self)))
  ∧ (∀ bus bits n cw,
       dict_get bus buses = Some bits → dict_get n bits = Some cw →
       ∃ wire c, (wire, c) ∈ pre ∧ indexed_pin wire bus n
                 ∧ cw = connection_wire_of top self c)
  ∧ (∀ bus bits, dict_get bus buses = Some bits → bits ≠ [])
  ∧ NoDup (dict_keys buses).

(** The bus of a pin name with exactly one opening bracket. *)
Definition pin_bus (wire : string) : option string :=
  if contains "[" wire then
    match split "[" wire with
    | [bus; _] => Some bus
    | _ => None
    end
  else None.

(** Among the pins [pre] there is a pin of [bus] that is marked as an
    output when [wire] is not, or the other way round. *)
Definition mixed_direction (self : Bel) (pre : list (string * connection))
    (bus wire : string) : Prop :=
  Exists (λ p, pin_bus p.1 = Some bus
               ∧ bool_decide (p.1 ∈ bel_outputs self)
                 ≠ bool_decide (wire ∈ bel_outputs self)) pre.

#[global] Instance mixed_direction_dec self pre bus wire :
  Decision (mixed_direction self pre bus wire).
Proof. unfold mixed_direction. apply _. Defined.

(** The exception [Bel.output_verilog] raises when it reads the pin
    [wire] after the pins [pre], if any.  A name with an opening bracket
    must have one such bracket ([ValueError]), something behind it
    ([IndexError]) that ends in a closing bracket ([AssertionError]), the
    marking of the earlier pins of its bus ([AssertionError]), and an
    integer between the brackets ([ValueError]). *)
Definition pin_error (self : Bel) (pre : list (string * connection))
    (wire : string) : option exn :=
  if contains "[" wire then
    match split "[" wire with
    | [bus; address] =>
        match last_char address with
        | Raise e => Some e
        | Ok c =>
            if decide (c = "]"%char) then
              if decide (mixed_direction self pre bus wire)
              then Some AssertionError
              else match int (slice 0 (-1) address) with
                   | Ok _ => None
                   | Raise _ => Some ValueError
                   end
            else Some AssertionError
        end
    | _ => Some ValueError
    end
  else None.

(** The error of the first pin of [conns] that has one, read after [pre]. *)
Fixpoint pins_error (self : Bel) (pre conns : list (string * connection))
  : option exn :=
  match conns with
  | [] => None
  | p :: rest =>
      match pin_error self pre p.1 with
      | Some e => Some e
      | None => pins_error self (pre ++ [p]) rest
      end
  end.

(** A BEL whose bus [A] has an output pin and an input pin, behind a pin
    whose index is not an integer. *)
Definition skewed_bel : Bel :=
  {| bel_module := "LUT6_2";
     bel_name := "LUT6_2";
     bel_connections := [("B[x]", ConnWire "BX"); ("A[0]", ConnWire "AMUX");
                         ("A[1]", ConnWire "AX")];
     bel_unused_connections := ∅;
     bel_parameters := [];
     bel_outputs := {["A[0]"]};
     bel_prefix := None;
     bel_site := None;
     bel_keep := true;
     bel_bel := None |}.

(** A carry BEL with a two-bit output bus. *)
Definition carry_bel : Bel :=
  {| bel_module := "CARRY4";
     bel_name := "CARRY4";
     bel_connections := [("O[0]", ConnWire "AMUX"); ("O[1]", ConnWire "BMUX");
                         ("CI", ConnConst false)];
     bel_unused_connections := ∅;
     bel_parameters := [];
     bel_outputs := {["O[0]"; "O[1]"]};
     bel_prefix := Some "T_S";
     bel_site := None;
     bel_keep := true;
     bel_bel := None |}.

Definition carry_lines : list string :=
  match Bel_output_verilog (λ _, false) carry_bel "  " with
  | Ok lines => lines
  | Raise _ => []
  end.

(** [m'] is [m] but for the recorded IOSTANDARD. *)
Definition same_but_iostandard {Conn Net} (m m' : @Module_ Conn Net) : Prop :=
  mod_name m' = mod_name m ∧ mod_conn m' = mod_conn m
  ∧ mod_sites m' = mod_sites m
  ∧ mod_source_bels m' = mod_source_bels m
  ∧ mod_shorted_nets m' = mod_shorted_nets m
  ∧ mod_wire_pkey_to_wire m' = mod_wire_pkey_to_wire m
  ∧ mod_unrouted_sinks m' = mod_unrouted_sinks m
  ∧ mod_unrouted_sources m' = mod_unrouted_sources m
  ∧ mod_active_pips m' = mod_active_pips m
  ∧ mod_root_in m' = mod_root_in m ∧ mod_root_out m' = mod_root_out m
  ∧ mod_root_inout m' = mod_root_inout m ∧ mod_wires m' = mod_wires m
  ∧ mod_wire_assigns m' = mod_wire_assigns m
  ∧ mod_site_to_signal m' = mod_site_to_signal m
  ∧ mod_nets m' = mod_nets m ∧ mod_net_map m' = mod_net_map m.

(** The dot-separated parts [parts] of a feature name begin with the two
    parts that [aparts], those of the first feature, begin with: both
    asserts of [Site.__init__] can be evaluated and hold. *)
Definition parts_match (parts aparts : list string) : Prop :=
  ∃ tile site,
    parts !! 0%nat = Some tile ∧ aparts !! 0%nat = Some tile
    ∧ parts !! 1%nat = Some site ∧ aparts !! 1%nat = Some site.

Definition tile_and_site_match (f f0 : Feature) : Prop :=
  parts_match (split "." (feature f)) (split "." (feature f0)).

(** The name of the feature has a tile and a site part. *)
Definition two_parts (f : Feature) : Prop :=
  (2 ≤ length (split "." (feature f)))%nat.

(** The suffixes of the features of non-zero weight. *)
Definition enabled_suffixes (features : list Feature) : gset string :=
  list_to_set (feature_suffix <$> filter (λ f, value f ≠ 0%Z) features).

(** The exception [make_bus] raises when it reads the wire [w], if any: an
    indexed wire must end in a closing bracket ([AssertionError]) and have
    an integer between the brackets ([ValueError]). *)
Definition wire_error (w : string) : option exn :=
  match wire_bus w with
  | None => None
  | Some _ =>
      match last_char w with
      | Ok c =>
          if decide (c = "]"%char) then
            match wire_index w with
            | Ok _ => None
            | Raise _ => Some ValueError
            end
          else Some AssertionError
      | Raise e => Some e
      end
  end.

(** The error of the first wire that has one. *)
Definition first_wire_error (wires : list string) : option exn :=
  head (omap wire_error wires).

(** The indices [0 .. k-1], once each. *)
Definition consecutive_bus (values : list Z) : Prop :=
  values ≡ₚ seqZ 0 (Z.of_nat (length values)).

(** The bound [make_bus] reports for a name: [k-1] for a family of [k]
    indexed wires, [None] for a name without indexed wires. *)
Definition bus_bound (wires : list string) (name : string) : option Z :=
  if decide (family_indices wires name = []) then None
  else Some (Z.of_nat (length (family_indices wires name)) - 1)%Z.

(** The listing of [wires]: sorted by name, each name once; the names are
    the unindexed wires and the names of the indexed families, each with
    its bound. *)
Definition bus_listing (wires : list string)
    (out : list (string * option Z)) : Prop :=
  Sorted String.le out.*1 ∧ NoDup out.*1
  ∧ ∀ name v,
      (name, v) ∈ out
      ↔ ((name ∈ wires ∧ wire_bus name = None)
         ∨ family_indices wires name ≠ [])
        ∧ v = bus_bound wires name.

(** The fixed name of a constant rail, by the identity of the net. *)
Definition rail_name (ZERO_NET ONE_NET : Z) (net_wire_pkey : Z)
  : option string :=
  if decide (net_wire_pkey = ZERO_NET) then Some "<const0>"
  else if decide (net_wire_pkey = ONE_NET) then Some "<const1>"
  else None.

(** The lines of one net: a rail is named by its fixed name; another net
    is found through the pin of its driver, and is left out when it has no
    known driver or is not alive; the fixed route follows. *)
Definition net_block {Conn Net} (ZERO_NET ONE_NET : Z)
    (is_net_alive : Net → bool)
    (make_fixed_route : Net → Conn → dict Z string → list string)
    (self : @Module_ Conn Net) (w : World) (kn : Z * Net) : list string :=
  match rail_name ZERO_NET ONE_NET kn.1 with
  | Some name =>
      ["set net [get_nets {" +:+ name +:+ "}]";
       fixed_route_text make_fixed_route self kn.2]
  | None =>
      match dict_get kn.1 (mod_source_bels self) with
      | Some (bel, pin) =>
          if is_net_alive kn.2
          then [find_pin_text (get_cell (bel_at w bel)) pin;
                fixed_route_text make_fixed_route self kn.2]
          else []
      | None => []
      end
  end.

(** A Module after routing: the net of identity 0 has a driver on record,
    the net of identity 7 has none. *)
Definition routed_module : @Module_ unit unit :=
  mkModule "top" None tt [] [(0%Z, (0, "O"))] [] [] ∅ ∅ ∅ ∅ ∅ ∅ ∅ [] []
    (Some [(0%Z, tt); (7%Z, tt)]) (Some []).

(** * Theorems *)

(** ** Loops and results *)

Lemma assert_r_ok b : assert_r b = Ok tt ↔ b = true.
Proof. destruct b; simpl; split; congruence. Qed.

Lemma assert_r_cases b : assert_r b = Ok tt ∨ assert_r b = Raise AssertionError.
Proof. destruct b; simpl; auto. Qed.

Lemma for_r_ok {A} (l : list A) (body : A → result unit) :
  for_r l body = Ok tt ↔ ∀ x, x ∈ l → body x = Ok tt.
Proof.
  induction l as [|x l IH]; simpl.
  - split; [intros _ x Hx; inversion Hx | done].
  - split.
    + intros H y Hy. destruct (body x) as [[]|e] eqn:Hb; simpl in H; [|done].
      apply elem_of_cons in Hy as [->|Hy]; [done|]. by apply IH.
    + intros H. rewrite (H x) by left. simpl. apply IH.
      intros y Hy. apply H. by right.
Qed.

Lemma for_r_raises {A} (l : list A) (body : A → result unit) e0 :
  (∀ x, body x = Ok tt ∨ body x = Raise e0) →
  for_r l body = Ok tt ∨ for_r l body = Raise e0.
Proof.
  intros Hb. induction l as [|x l IH]; simpl; [auto|].
  destruct (Hb x) as [-> | ->]; simpl; auto.
Qed.

Lemma check_bel_pair_ok ids p :
  check_bel_pair ids p = Ok tt ↔ ∀ bel pin, p = Some (bel, pin) → bel ∈ ids.
Proof.
  destruct p as [[bel pin]|]; simpl.
  - rewrite assert_r_ok, bool_decide_eq_true. split.
    + intros H ?? [= <- <-]. done.
    + eauto.
  - split; [intros _ ?? [=] | done].
Qed.

Lemma check_bel_pair_cases ids p :
  check_bel_pair ids p = Ok tt ∨ check_bel_pair ids p = Raise AssertionError.
Proof. destruct p as [[??]|]; simpl; auto using assert_r_cases. Qed.

Lemma bind_unit_cases (m k : result unit) e0 :
  m = Ok tt ∨ m = Raise e0 → k = Ok tt ∨ k = Raise e0 →
  (m ≫= λ _, k) = Ok tt ∨ (m ≫= λ _, k) = Raise e0.
Proof. intros [-> | ->] Hk; simpl; auto. Qed.

Lemma check_site_cases s :
  check_site s = Ok tt ∨ check_site s = Raise AssertionError.
Proof.
  unfold check_site.
  repeat apply bind_unit_cases; try apply assert_r_cases.
  - apply for_r_raises, check_bel_pair_cases.
  - apply for_r_raises. intros l. apply for_r_raises.
    intros [??]. apply assert_r_cases.
  - apply for_r_raises, check_bel_pair_cases.
Qed.

Lemma bind_unit_ok (m k : result unit) :
  (m ≫= λ _, k) = Ok tt ↔ m = Ok tt ∧ k = Ok tt.
Proof. destruct m as [[]|e]; simpl; naive_solver. Qed.

Lemma disjoint_keys_size `{Countable K} (l1 l2 : list K) :
  size ((list_to_set l1 : gset K) ∩ list_to_set l2) = 0%nat
  ↔ ∀ k, k ∈ l1 → k ∉ l2.
Proof.
  rewrite size_empty_iff. split.
  - intros Hd k Hk1 Hk2. apply (not_elem_of_empty (C:=gset K) k).
    rewrite <- Hd. set_solver.
  - intros Hd. apply set_equiv. intros k. set_solver.
Qed.

Lemma dict_values_elem {K V} (d : list (K * V)) v :
  v ∈ dict_values d ↔ ∃ k, (k, v) ∈ d.
Proof.
  unfold dict_values. rewrite list_elem_of_fmap. split.
  - intros ([k v'] & -> & Hin). by exists k.
  - intros (k & Hin). by exists (k, v).
Qed.

Lemma dict_keys_elem {K V} (d : list (K * V)) k :
  k ∈ dict_keys d ↔ ∃ v, (k, v) ∈ d.
Proof.
  unfold dict_keys. rewrite list_elem_of_fmap. split.
  - intros ([k' v] & -> & Hin). by exists v.
  - intros (v & Hin). by exists (k, v).
Qed.

Lemma check_site_ok s : check_site s = Ok tt ↔ site_consistent s.
Proof.
  unfold check_site, site_consistent.
  rewrite !bind_unit_ok, !assert_r_ok, !bool_decide_eq_true,
    !disjoint_keys_size, !for_r_ok.
  do 2 (apply and_iff_compat_l). split.
  - intros (Hs & Hk & Hi). split_and!.
    + intros w bel pin Hin.
      pose proof (Hs (Some (bel, pin))
        (proj2 (dict_values_elem _ _) (ex_intro _ w Hin))) as Hv.
      rewrite check_bel_pair_ok in Hv. specialize (Hv bel pin eq_refl).
      by apply elem_of_list_to_set in Hv.
    + intros w l bel pin Hin Hb.
      pose proof (Hk l (proj2 (dict_values_elem _ _) (ex_intro _ w Hin)))
        as Hv.
      rewrite for_r_ok in Hv. specialize (Hv (bel, pin) Hb). simpl in Hv.
      apply assert_r_ok, bool_decide_eq_true in Hv.
      by apply elem_of_list_to_set in Hv.
    + intros w bel pin Hin.
      pose proof (Hi (Some (bel, pin))
        (proj2 (dict_values_elem _ _) (ex_intro _ w Hin))) as Hv.
      rewrite check_bel_pair_ok in Hv. specialize (Hv bel pin eq_refl).
      by apply elem_of_list_to_set in Hv.
  - intros (Hs & Hk & Hi). split_and!.
    + intros p (w & Hin)%dict_values_elem. apply check_bel_pair_ok.
      intros bel pin ->. apply elem_of_list_to_set. eauto.
    + intros l (w & Hin)%dict_values_elem. apply for_r_ok.
      intros [bel pin] Hb. apply assert_r_ok, bool_decide_eq_true,
        elem_of_list_to_set. eauto.
    + intros p (w & Hin)%dict_values_elem. apply check_bel_pair_ok.
      intros bel pin ->. apply elem_of_list_to_set. eauto.
Qed.

(** C4 (as amended): [check_site] returns without raising exactly when the
    names of the internal sources are disjoint from the sink names and from
    the source names and every (Bel, pin) referenced by [sources], [sinks]
    or [internal_sources] names a Bel the site owns; any violation raises
    an [AssertionError].  Sink names and source names are not compared. *)
Theorem check_site_enforces_consistency (s : Site) :
  (check_site s = Ok tt ↔ site_consistent s)
  ∧ (¬ site_consistent s → check_site s = Raise AssertionError).
Proof.
  split; [apply check_site_ok|].
  intros Hn. destruct (check_site_cases s) as [Hok|Hr]; [|done].
  by apply check_site_ok in Hok.
Qed.

(** C4, counterexample: the site built by [add_bel], [add_sink],
    [add_source] with the wire [AX] both a sink and a source passes
    [check_site], although the key sets of [sinks] and [sources] meet. *)
Lemma check_site_accepts_sink_source_overlap :
  let s := site_at overlap_world 0 in
  check_site s = Ok tt
  ∧ "AX" ∈ dict_keys (site_sinks s)
  ∧ "AX" ∈ dict_keys (site_sources s).
Proof. vm_compute. split_and!; [done| |]; apply list_elem_of_here. Qed.

(** ** [Module.set_iostandard] *)

Lemma elem_of_foldl_intersection (ls : list (list string)) (P : gset string) x :
  x ∈ foldl (λ possible l, possible ∩ list_to_set l) P ls
  ↔ x ∈ P ∧ ∀ l, l ∈ ls → x ∈ l.
Proof.
  revert P. induction ls as [|l ls IH]; intros P; simpl.
  - split; [|tauto]. intros HP. split; [done|]. intros l Hl. inversion Hl.
  - rewrite IH, elem_of_intersection, elem_of_list_to_set. split.
    + intros [[HP Hl] Hls]. split; [done|].
      intros l' [->|Hl']%elem_of_cons; auto.
    + intros [HP Hls]. split_and!; [done|..].
      * apply Hls. left.
      * intros l' Hl'. apply Hls. by right.
Qed.

(** C8 (as amended): for every list of candidate sets that is not empty,
    when exactly one value lies in all of them [set_iostandard] returns,
    the IOSTANDARD of the Module is that value and nothing else of the
    Module has changed; when no value or more than one value lies in all
    of them it raises the [RuntimeError] of the ambiguity check and leaves
    the Module as it was.  On the empty list the lookup [iostandards[0]]
    raises an [IndexError], and the Module is as it was. *)
Theorem set_iostandard_unique_or_raises {Conn Net : Type}
    (iostandards : list (list string)) (m : @Module_ Conn Net) :
  let common x := ∀ l, l ∈ iostandards → x ∈ l in
  (iostandards = [] →
     set_iostandard iostandards m = (Raise IndexError, m))
  ∧ (iostandards ≠ [] →
     (∀ x, common x → (∀ y, common y → y = x) →
        ∃ m', set_iostandard iostandards m = (Ok tt, m')
              ∧ mod_iostandard m' = Some x
              ∧ same_but_iostandard m m')
     ∧ ((¬ ∃ x, common x ∧ ∀ y, common y → y = x) →
        set_iostandard iostandards m = (Raise RuntimeError, m))).
Proof.
  intros common. unfold set_iostandard, bind, lift_r, index.
  destruct iostandards as [|l0 ls]; simpl; [by split|].
  split; [done|]. intros _.
  set (possible := foldl _ _ ls).
  assert (∀ x, x ∈ possible ↔ common x) as Hposs.
  { intros x. unfold possible. rewrite elem_of_foldl_intersection.
    rewrite elem_of_intersection, elem_of_list_to_set. unfold common. split.
    - intros [[H0 _] Hls] l [->|Hl]%elem_of_cons; auto.
    - intros Hc. split_and!; try (apply Hc; left).
      intros l Hl. apply Hc. by right. }
  case_bool_decide as Hsize; simpl.
  - apply size_1_elem_of in Hsize as [x Hx]. apply leibniz_equiv in Hx.
    rewrite Hx, elements_singleton. unfold modify. split.
    + intros y Hy Hu. assert (x = y) as ->.
      { apply Hu, Hposs. rewrite Hx. set_solver. }
      eexists. split; [reflexivity|]. split; [reflexivity|].
      by repeat split.
    + intros Hn. exfalso. apply Hn. exists x. split.
      * apply Hposs. rewrite Hx. set_solver.
      * intros y Hy%Hposs. rewrite Hx in Hy. set_solver.
  - unfold raise. split; [|done].
    intros x Hx Hu. exfalso. apply Hsize.
    replace possible with ({[x]} : gset string); [apply size_singleton|].
    apply set_eq. intros y. rewrite elem_of_singleton, Hposs. split.
    + by intros ->.
    + apply Hu.
Qed.

(** C8, counterexample: on the empty list no value is the only one that
    lies in every candidate set, and [set_iostandard] does not raise the
    [RuntimeError] of the ambiguity check: it raises an [IndexError]. *)
Lemma set_iostandard_empty_list_raises_IndexError :
  (¬ ∃ x : string, (∀ l : list string, l ∈ [] → x ∈ l)
                   ∧ ∀ y : string, (∀ l : list string, l ∈ [] → y ∈ l) → y = x)
  ∧ set_iostandard [] example_module = (Raise IndexError, example_module)
  ∧ set_iostandard [] example_module ≠ (Raise RuntimeError, example_module).
Proof.
  split_and!; [|reflexivity|discriminate].
  intros (x & _ & Hu).
  pose proof (Hu "a" ltac:(intros ? Hl; inversion Hl)).
  pose proof (Hu "b" ltac:(intros ? Hl; inversion Hl)). congruence.
Qed.

(** Two candidate sets with one common value, and two with none. *)
Example set_iostandard_picks_common :
  mod_iostandard
    (set_iostandard [["LVCMOS33"; "LVCMOS25"]; ["LVCMOS33"]] example_module).2
  = Some "LVCMOS33".
Proof. vm_compute. reflexivity. Qed.

Example set_iostandard_none_common :
  set_iostandard [["LVCMOS33"]; ["LVCMOS25"]] example_module
  = (Raise RuntimeError, example_module).
Proof. vm_compute. reflexivity. Qed.

(** ** [Site.__init__] *)

Lemma fold_r_inv {A St} (body : A → St → result St)
    (I : list A → St → Prop) (l : list A) (st0 st : St) :
  I [] st0 →
  (∀ pre x st st', I pre st → body x st = Ok st' → I (pre ++ [x]) st') →
  fold_r body l st0 = Ok st → I l st.
Proof.
  intros H0 Hstep.
  enough (∀ pre st1, I pre st1 → fold_r body l st1 = Ok st → I (pre ++ l) st)
    as Hgen by (apply (Hgen [] st0 H0)).
  induction l as [|x l IH]; intros pre st1 HI; simpl.
  - intros [= ->]. by rewrite app_nil_r.
  - destruct (body x st1) as [st'|e] eqn:Hb; simpl; [|done].
    intros Hl. rewrite (cons_middle x pre l), app_assoc.
    eapply IH; [|done]. eauto.
Qed.

Lemma index_ok {A} (l : list A) i a : index l i = Ok a ↔ l !! i = Some a.
Proof. unfold index. destruct (l !! i); naive_solver. Qed.

Lemma add_feature_ok aparts f sf sf' :
  add_feature aparts f sf = Ok sf' →
  (value f = 0%Z ∧ sf' = sf)
  ∨ (value f ≠ 0%Z
     ∧ split "." (feature f) !! 0%nat = aparts !! 0%nat
     ∧ split "." (feature f) !! 1%nat = aparts !! 1%nat
     ∧ sf' = sf ∪ {[feature_suffix f]}).
Proof.
  unfold add_feature. case_decide as Hv; [intros [= ->]; by left|].
  intros H. right.
  destruct (index (split _ _) 0) as [p0|] eqn:Hp0; simpl in H; [|done].
  destruct (index aparts 0) as [a0|] eqn:Ha0; simpl in H; [|done].
  destruct (assert_r _) as [[]|] eqn:He0; simpl in H; [|done].
  destruct (index (split _ _) 1) as [p1|] eqn:Hp1; simpl in H; [|done].
  destruct (index aparts 1) as [a1|] eqn:Ha1; simpl in H; [|done].
  destruct (assert_r (bool_decide (p1 = a1))) as [[]|] eqn:He1;
    simpl in H; [|done].
  apply assert_r_ok, bool_decide_eq_true in He0, He1. subst.
  apply index_ok in Hp0, Ha0, Hp1, Ha1. injection H as <-.
  by rewrite Hp0, Ha0, Hp1, Ha1.
Qed.

Lemma fold_r_cons {A St} (body : A → St → result St) x l st :
  fold_r body (x :: l) st = body x st ≫= fold_r body l.
Proof. done. Qed.

Lemma split_nonempty (c : ascii) (s : string) : split c s ≠ [].
Proof.
  destruct s as [|a s]; simpl; [done|].
  destruct (decide (a = c)); [done|]. by destruct (split c s).
Qed.

(** One iteration of the loop of [Site.__init__] on a feature of non-zero
    weight. *)
Lemma add_feature_spec aparts f sf :
  value f ≠ 0%Z →
  match add_feature aparts f sf with
  | Ok sf' =>
      parts_match (split "." (feature f)) aparts
      ∧ sf' = sf ∪ {[feature_suffix f]}
  | Raise e =>
      ¬ parts_match (split "." (feature f)) aparts
      ∧ (e = AssertionError ∨ e = IndexError)
      ∧ ((2 ≤ length aparts)%nat → two_parts f → e = AssertionError)
  end.
Proof.
  intros Hv. unfold add_feature, two_parts, parts_match, index.
  rewrite decide_False by done.
  destruct (split "." (feature f) !! 0%nat) as [p0|] eqn:Hp0; simpl.
  2:{ split_and!; [naive_solver|by right|].
      intros _ Hlen. apply lookup_ge_None in Hp0. lia. }
  destruct (aparts !! 0%nat) as [a0|] eqn:Ha0; simpl.
  2:{ split_and!; [naive_solver|by right|].
      intros Hlen. apply lookup_ge_None in Ha0. lia. }
  destruct (decide (p0 = a0)) as [->|Hne0].
  2:{ rewrite bool_decide_eq_false_2 by done. simpl.
      split_and!; [naive_solver|by left|done]. }
  rewrite bool_decide_eq_true_2 by done. simpl.
  destruct (split "." (feature f) !! 1%nat) as [p1|] eqn:Hp1; simpl.
  2:{ split_and!; [naive_solver|by right|].
      intros _ Hlen. apply lookup_ge_None in Hp1. lia. }
  destruct (aparts !! 1%nat) as [a1|] eqn:Ha1; simpl.
  2:{ split_and!; [naive_solver|by right|].
      intros Hlen. apply lookup_ge_None in Ha1. lia. }
  destruct (decide (p1 = a1)) as [->|Hne1].
  2:{ rewrite bool_decide_eq_false_2 by done. simpl.
      split_and!; [naive_solver|by left|done]. }
  rewrite bool_decide_eq_true_2 by done. simpl.
  split; [by exists a0, a1|done].
Qed.

Lemma enabled_suffixes_cons f l :
  enabled_suffixes (f :: l)
  = if decide (value f = 0%Z) then enabled_suffixes l
    else {[feature_suffix f]} ∪ enabled_suffixes l.
Proof.
  unfold enabled_suffixes. rewrite filter_cons.
  destruct (decide (value f = 0%Z)) as [Hz|Hnz].
  - by rewrite decide_False by (intros Hn; by apply Hn).
  - by rewrite decide_True by done.
Qed.

(** The loop of [Site.__init__] over the features. *)
Lemma add_features_spec aparts l sf :
  match fold_r (add_feature aparts) l sf with
  | Ok sf' =>
      (∀ f, f ∈ l → value f ≠ 0%Z →
         parts_match (split "." (feature f)) aparts)
      ∧ sf' = sf ∪ enabled_suffixes l
  | Raise e =>
      ¬ (∀ f, f ∈ l → value f ≠ 0%Z →
           parts_match (split "." (feature f)) aparts)
      ∧ (e = AssertionError ∨ e = IndexError)
      ∧ ((2 ≤ length aparts)%nat →
         (∀ f, f ∈ l → value f ≠ 0%Z → two_parts f) → e = AssertionError)
  end.
Proof.
  revert sf. induction l as [|f l IH]; intros sf.
  { simpl. split; [intros f Hf; by apply elem_of_nil in Hf|].
    unfold enabled_suffixes. simpl. set_solver. }
  rewrite fold_r_cons, enabled_suffixes_cons.
  assert (∀ sf1,
    match fold_r (add_feature aparts) l sf1 with
    | Ok sf' =>
        (∀ g, g ∈ l → value g ≠ 0%Z →
           parts_match (split "." (feature g)) aparts)
        ∧ sf' = sf1 ∪ enabled_suffixes l
    | Raise e =>
        ¬ (∀ g, g ∈ f :: l → value g ≠ 0%Z →
             parts_match (split "." (feature g)) aparts)
        ∧ (e = AssertionError ∨ e = IndexError)
        ∧ ((2 ≤ length aparts)%nat →
           (∀ g, g ∈ f :: l → value g ≠ 0%Z → two_parts g) →
           e = AssertionError)
    end) as Hrest.
  { intros sf1. specialize (IH sf1).
    destruct (fold_r (add_feature aparts) l sf1) as [sf'|e]; [done|].
    destruct IH as (Hn & He & Ha). split_and!; [|done|].
    - intros Hall. apply Hn. intros g Hg. apply Hall. by right.
    - intros Hlen Hall. apply Ha; [done|]. intros g Hg. apply Hall.
      by right. }
  destruct (decide (value f = 0%Z)) as [Hz|Hnz].
  - assert (add_feature aparts f sf = Ok sf) as ->.
    { unfold add_feature. by case_decide. }
    simpl. specialize (Hrest sf).
    destruct (fold_r (add_feature aparts) l sf) as [sf'|e]; [|done].
    destruct Hrest as [Hall ->]. split; [|done].
    intros g [->|Hg]%elem_of_cons Hgv; [done|by apply Hall].
  - pose proof (add_feature_spec aparts f sf Hnz) as Hstep.
    destruct (add_feature aparts f sf) as [sf1|e]; simpl.
    + destruct Hstep as [Hm ->].
      specialize (Hrest (sf ∪ {[feature_suffix f]})).
      destruct (fold_r (add_feature aparts) l _) as [sf'|e]; [|done].
      destruct Hrest as [Hall ->]. split; [|set_solver].
      intros g [->|Hg]%elem_of_cons Hgv; [done|by apply Hall].
    + destruct Hstep as (Hn & He & Ha). split_and!; [|done|].
      * intros Hall. apply Hn, Hall; [left|done].
      * intros Hlen Hall. apply Ha; [done|]. apply Hall; [left|done].
Qed.

(** C5 (as amended): on a batch that is not empty, when every feature of
    non-zero weight has the tile and the site part of the first feature,
    construction returns a site without BELs and wires whose enabled
    feature-suffix set holds exactly the suffixes of the features of
    non-zero weight: a feature of zero weight is dropped, and it is skipped
    before its prefix is compared, so its tile and site parts do not
    matter.  When a feature of non-zero weight differs from the first
    feature in its tile or its site part, construction raises: an
    [AssertionError] if the first feature and all features of non-zero
    weight have two parts, an [AssertionError] or an [IndexError]
    otherwise.  On the empty batch construction raises an [IndexError]. *)
Theorem Site_init_keeps_set_features
    (features : list Feature) (site : SiteInfo) (tile : option string) :
  (features = [] → Site_init features site tile = Raise IndexError)
  ∧ (∀ f0, features !! 0%nat = Some f0 →
       ((∀ f, f ∈ features → value f ≠ 0%Z → tile_and_site_match f f0) →
          ∃ tile', Site_init features site tile
                   = Ok (mkSite [] [] [] [] [] (enabled_suffixes features)
                           None [] [] tile' site)
                   ∧ match tile with
                     | Some t => tile' = t
                     | None => split "." (feature f0) !! 0%nat = Some tile'
                     end)
       ∧ (¬ (∀ f, f ∈ features → value f ≠ 0%Z → tile_and_site_match f f0) →
          ∃ e, Site_init features site tile = Raise e
               ∧ (e = AssertionError ∨ e = IndexError)
               ∧ (two_parts f0 →
                  (∀ f, f ∈ features → value f ≠ 0%Z → two_parts f) →
                  e = AssertionError))).
Proof.
  split; [by intros ->|].
  intros f0 Hf0. unfold Site_init, index. rewrite Hf0. simpl.
  pose proof (add_features_spec (split "." (feature f0)) features ∅) as Hloop.
  pose proof (split_nonempty "." (feature f0)) as Hparts.
  destruct (split "." (feature f0)) as [|tile0 aparts'] eqn:Hsplit; [done|].
  fold (tile_and_site_match) in Hloop.
  unfold tile_and_site_match. rewrite Hsplit.
  destruct (fold_r _ features ∅) as [sf|e]; simpl.
  - destruct Hloop as [Hall ->]. split; [|intros Hn; by destruct Hn].
    intros _. rewrite (left_id_L ∅ (∪)).
    destruct tile as [t|]; simpl; eauto.
  - destruct Hloop as (Hn & He & Ha). split; [done|].
    intros _. exists e. split_and!; [done..|].
    intros H2. apply Ha. unfold two_parts in H2. by rewrite Hsplit in H2.
Qed.

(** C5, counterexample: the second feature of [stray_zero_batch] names
    another tile than the first, yet construction succeeds, because the
    feature has weight zero. *)
Lemma Site_init_ignores_prefix_of_zero_weight :
  ∃ s f f0, Site_init stray_zero_batch slice_info None = Ok s
    ∧ stray_zero_batch !! 0%nat = Some f0
    ∧ f ∈ stray_zero_batch
    ∧ ¬ same_tile_and_site f f0.
Proof.
  eexists _, (mkFeature "CLBLL_R_X9Y9.SLICEL_X0.AFF.ZINI" 0), _.
  split_and!; [vm_compute; reflexivity | reflexivity | |].
  - apply list_elem_of_further, list_elem_of_here.
  - intros [H0 _]. vm_compute in H0. discriminate.
Qed.

(** ** Dictionaries *)

Section dict_facts.
Context {K V : Type} `{EqDecision K}.
Implicit Types (d : list (K * V)) (k : K) (v : V).

Lemma dict_get_set d k k' v :
  dict_get k (dict_set k' v d) = if decide (k = k') then Some v else dict_get k d.
Proof.
  induction d as [|[k0 v0] d IH]; simpl.
  - by destruct (decide (k = k')).
  - destruct (decide (k' = k0)) as [Heq|Hne]; simpl.
    + destruct (decide (k = k')), (decide (k = k0)); congruence.
    + rewrite IH. destruct (decide (k = k')), (decide (k = k0)); congruence.
Qed.

Lemma dict_get_set_eq d k v : dict_get k (dict_set k v d) = Some v.
Proof. rewrite dict_get_set. by destruct (decide (k = k)). Qed.

Lemma dict_get_set_ne d k k' v :
  k ≠ k' → dict_get k (dict_set k' v d) = dict_get k d.
Proof. intros. rewrite dict_get_set. by destruct (decide (k = k')). Qed.

Lemma dict_get_Some_elem d k v : dict_get k d = Some v → (k, v) ∈ d.
Proof.
  induction d as [|[k0 v0] d IH]; simpl; [done|].
  destruct (decide (k = k0)) as [->|].
  - intros [= ->]. left.
  - intros. right. auto.
Qed.

Lemma dict_get_None d k : dict_get k d = None ↔ k ∉ dict_keys d.
Proof.
  unfold dict_keys. induction d as [|[k0 v0] d IH]; simpl.
  - split; [|done]. intros _ Hin. inversion Hin.
  - rewrite not_elem_of_cons. destruct (decide (k = k0)) as [->|]; naive_solver.
Qed.

Lemma dict_get_is_Some d k : is_Some (dict_get k d) ↔ k ∈ dict_keys d.
Proof.
  rewrite <- not_eq_None_Some, dict_get_None.
  destruct (decide (k ∈ dict_keys d)); naive_solver.
Qed.

Lemma dict_mem_true d k : dict_mem k d = true ↔ k ∈ dict_keys d.
Proof. unfold dict_mem. by rewrite bool_decide_eq_true, dict_get_is_Some. Qed.

Lemma dict_mem_false d k : dict_mem k d = false ↔ k ∉ dict_keys d.
Proof. rewrite <- dict_mem_true. destruct (dict_mem k d); naive_solver. Qed.

Lemma dict_elem_get d k v :
  NoDup (dict_keys d) → (k, v) ∈ d → dict_get k d = Some v.
Proof.
  unfold dict_keys. induction d as [|[k0 v0] d IH]; simpl.
  - intros _ Hin. inversion Hin.
  - intros [Hk0 Hnd]%NoDup_cons [[= -> ->]|Hin]%elem_of_cons.
    + by destruct (decide (k0 = k0)).
    + destruct (decide (k = k0)) as [->|]; [|auto].
      exfalso. apply Hk0. apply list_elem_of_fmap. by exists (k0, v).
Qed.

Lemma dict_keys_set d k v :
  dict_keys (dict_set k v d)
  = if decide (k ∈ dict_keys d) then dict_keys d else dict_keys d ++ [k].
Proof.
  unfold dict_keys. induction d as [|[k0 v0] d IH].
  - simpl. destruct (decide (k ∈ [])) as [Hin|]; [inversion Hin|done].
  - cbn [dict_set fmap list_fmap fst].
    destruct (decide (k = k0)) as [->|Hne]; cbn [fmap list_fmap fst].
    + destruct (decide (k0 ∈ k0 :: d.*1)) as [|Hn]; [done|].
      exfalso. apply Hn. left.
    + rewrite IH. destruct (decide (k ∈ d.*1)) as [Hin|Hnin].
      * destruct (decide (k ∈ k0 :: d.*1)) as [|Hn]; [done|].
        exfalso. apply Hn. by right.
      * destruct (decide (k ∈ k0 :: d.*1)) as [[?|?]%elem_of_cons|Hn]; done.
Qed.

Lemma dict_keys_set_elem d k k' v :
  k ∈ dict_keys (dict_set k' v d) ↔ k = k' ∨ k ∈ dict_keys d.
Proof.
  rewrite dict_keys_set. destruct (decide (k' ∈ dict_keys d)).
  - naive_solver.
  - rewrite elem_of_app, list_elem_of_singleton. tauto.
Qed.

Lemma dict_keys_set_NoDup d k v :
  NoDup (dict_keys d) → NoDup (dict_keys (dict_set k v d)).
Proof.
  intros Hnd. rewrite dict_keys_set. destruct (decide (k ∈ dict_keys d)).
  - done.
  - apply NoDup_app. split_and!; [done| |apply NoDup_singleton].
    intros x Hx ->%list_elem_of_singleton. done.
Qed.

(** Where the keys are new, [update] appends. *)
Lemma dict_update_disjoint d1 d2 :
  NoDup (dict_keys d2) →
  (∀ k, k ∈ dict_keys d1 → k ∉ dict_keys d2) →
  dict_update d1 d2 = d1 ++ d2.
Proof.
  unfold dict_update. revert d1.
  induction d2 as [|[k v] d2 IH]; intros d1 Hnd Hdisj; simpl.
  - by rewrite app_nil_r.
  - assert (dict_set k v d1 = d1 ++ [(k, v)]) as ->.
    { assert (k ∉ dict_keys d1) as Hk.
      { intros Hin. apply (Hdisj k Hin). left. }
      clear -Hk. unfold dict_keys in Hk.
      induction d1 as [|[k0 v0] d1 IH]; simpl; [done|].
      apply not_elem_of_cons in Hk as [Hne Hk]. simpl in Hne.
      rewrite decide_False by done. by rewrite IH. }
    unfold dict_keys in Hnd. simpl in Hnd. apply NoDup_cons in Hnd as [Hk Hnd].
    rewrite IH, <- app_assoc; [done|done|].
    intros k' Hin. unfold dict_keys in Hin. rewrite fmap_app in Hin.
    apply elem_of_app in Hin as [Hin|Hin%list_elem_of_singleton].
    + intros Hin2. apply (Hdisj k' Hin). by right.
    + simpl in Hin. by subst k'.
Qed.
End dict_facts.

(** ** [make_bus] *)

Lemma fold_r_inv_prefix {A St} (body : A → St → result St)
    (I : list A → St → Prop) (l : list A) (st0 st : St) :
  I [] st0 →
  (∀ pre x post st st',
     l = pre ++ x :: post → I pre st → body x st = Ok st' → I (pre ++ [x]) st') →
  fold_r body l st0 = Ok st → I l st.
Proof.
  intros H0 Hstep.
  enough (∀ pre post st1, l = pre ++ post → I pre st1 →
            fold_r body post st1 = Ok st → I l st)
    as Hgen by (apply (Hgen [] l st0 eq_refl H0)).
  intros pre post. revert pre.
  induction post as [|x post IH]; intros pre st1 Hl HI; simpl.
  - intros [= ->]. by rewrite Hl, app_nil_r.
  - destruct (body x st1) as [st'|e] eqn:Hb; simpl; [|done].
    apply (IH (pre ++ [x])); [by rewrite <- app_assoc|]. eauto.
Qed.

Lemma foldl_min_le (l : list Z) a :
  (foldl Z.min a l ≤ a)%Z ∧ (∀ x, x ∈ l → foldl Z.min a l ≤ x)%Z.
Proof.
  revert a. induction l as [|y l IH]; intros a; simpl.
  - split; [lia|]. intros x Hx. inversion Hx.
  - destruct (IH (Z.min a y)) as [H1 H2]. split; [lia|].
    intros x [->|Hx]%elem_of_cons; [lia|auto].
Qed.

Lemma foldl_max_ge (l : list Z) a :
  (a ≤ foldl Z.max a l)%Z ∧ (∀ x, x ∈ l → x ≤ foldl Z.max a l)%Z.
Proof.
  revert a. induction l as [|y l IH]; intros a; simpl.
  - split; [lia|]. intros x Hx. inversion Hx.
  - destruct (IH (Z.max a y)) as [H1 H2]. split; [lia|].
    intros x [->|Hx]%elem_of_cons; [lia|auto].
Qed.

Lemma foldl_min_elem (l : list Z) a : foldl Z.min a l ∈ a :: l.
Proof.
  revert a. induction l as [|y l IH]; intros a; simpl; [left|].
  pose proof (IH (Z.min a y)) as [Heq|Hin]%elem_of_cons.
  - rewrite Heq. destruct (Z.min_spec a y) as [[_ ->]|[_ ->]].
    + left.
    + right. left.
  - right. by right.
Qed.

Lemma py_min_spec l lo :
  py_min l = Ok lo → lo ∈ l ∧ ∀ x, x ∈ l → (lo ≤ x)%Z.
Proof.
  destruct l as [|a l]; simpl; [done|]. intros [= <-].
  split; [apply foldl_min_elem|].
  destruct (foldl_min_le l a) as [H1 H2].
  intros x [->|Hx]%elem_of_cons; auto.
Qed.

Lemma py_max_spec l hi : py_max l = Ok hi → ∀ x, x ∈ l → (x ≤ hi)%Z.
Proof.
  destruct l as [|a l]; simpl; [done|]. intros [= <-].
  destruct (foldl_max_ge l a) as [H1 H2].
  intros x [->|Hx]%elem_of_cons; auto.
Qed.

Lemma remove_dups_length_le {A} `{EqDecision A} (l : list A) :
  length (remove_dups l) ≤ length l.
Proof.
  induction l as [|x l IH]; simpl; [done|].
  destruct (decide_rel _ _ _); simpl; lia.
Qed.

Lemma size_list_to_set_NoDup (l : list Z) :
  length l = size (list_to_set l : gset Z) → NoDup l.
Proof.
  intros Hlen.
  assert (length (remove_dups l) = length l) as Hrd.
  { rewrite Hlen. rewrite <- (size_list_to_set (C:=gset Z) (remove_dups l))
      by apply NoDup_remove_dups.
    f_equal. apply set_eq. intros x.
    by rewrite !elem_of_list_to_set, elem_of_remove_dups. }
  clear Hlen. induction l as [|x l IH]; [constructor|].
  simpl in Hrd. destruct (decide_rel _ _ _) as [Hin|Hnin].
  - pose proof (remove_dups_length_le l). lia.
  - simpl in Hrd. constructor; [done|]. apply IH. lia.
Qed.

(** Zero-based, dense, duplicate-free indices are [0 .. k-1] once each. *)
Lemma bus_indices_permutation (values : list Z) lo hi :
  py_min values = Ok lo → lo = 0%Z →
  py_max values = Ok hi → hi = (Z.of_nat (length values) - 1)%Z →
  length values = size (list_to_set values : gset Z) →
  values ≡ₚ seqZ 0 (Z.of_nat (length values)).
Proof.
  intros Hmin -> Hmax -> Hnd%size_list_to_set_NoDup.
  apply py_min_spec in Hmin as [_ Hlo]. pose proof (py_max_spec _ _ Hmax) as Hhi.
  apply submseteq_length_Permutation.
  - apply NoDup_submseteq; [done|]. intros x Hx. apply elem_of_seqZ.
    specialize (Hlo x Hx). specialize (Hhi x Hx). lia.
  - rewrite length_seqZ. lia.
Qed.

Lemma malformed_bus_not_permutation (values : list Z) :
  values ≠ [] → malformed_bus values →
  ¬ values ≡ₚ seqZ 0 (Z.of_nat (length values)).
Proof.
  intros Hne Hbad Hperm.
  assert (∀ x, x ∈ values ↔ (0 ≤ x < Z.of_nat (length values))%Z) as Hin.
  { intros x. remember (Z.of_nat (length values)) as k.
    rewrite Hperm, elem_of_seqZ. lia. }
  destruct Hbad as [Hdup | [H0 | [(v & Hv & Hneg) | (v & i & Hv & Hi & Hni)]]].
  - apply Hdup. rewrite Hperm. apply NoDup_seqZ.
  - destruct values as [|a l]; [done|]. apply H0, Hin. simpl. lia.
  - apply Hin in Hv. lia.
  - apply Hni, Hin. apply Hin in Hv. lia.
Qed.

Lemma dict_set_set {K V} `{EqDecision K} (d : list (K * V)) k v v' :
  dict_set k v (dict_set k v' d) = dict_set k v d.
Proof.
  induction d as [|[k0 v0] d IH]; simpl.
  - by rewrite decide_True.
  - destruct (decide (k = k0)) as [->|Hne]; simpl.
    + by rewrite decide_True.
    + rewrite decide_False by done. by rewrite IH.
Qed.

Lemma make_bus_wire_ok w output buses st' :
  make_bus_wire w (output, buses) = Ok st' →
  match wire_bus w with
  | Some bus =>
      ∃ n, wire_index w = Ok n
           ∧ st' = (output,
                    dict_set bus (default [] (dict_get bus buses) ++ [n]) buses)
  | None => st' = (dict_set w None output, buses)
  end.
Proof.
  unfold make_bus_wire, wire_bus, wire_index.
  destruct (decide (find "[" w ≠ (-1)%Z)) as [Hidx|Hidx]; [|by intros [= <-]].
  destruct (last_char w) as [c|]; simpl; [|done].
  destruct (assert_r _) as [[]|]; simpl; [|done].
  set (bus := slice 0 (find "[" w) w).
  destruct (dict_mem bus buses) eqn:Hmem.
  - apply dict_mem_true, dict_get_is_Some in Hmem as [values Hv].
    rewrite Hv. simpl.
    destruct (int _) as [n|]; simpl; [|done].
    intros [= <-]. by exists n.
  - rewrite dict_get_set_eq. simpl.
    destruct (int _) as [n|]; simpl; [|done].
    intros [= <-]. exists n. split; [done|].
    apply dict_mem_false, dict_get_None in Hmem. rewrite Hmem. simpl.
    by rewrite dict_set_set.
Qed.

Lemma family_indices_snoc pre w name :
  family_indices (pre ++ [w]) name
  = family_indices pre name
    ++ match wire_bus w, wire_index w with
       | Some bus, Ok n => if decide (bus = name) then [n] else []
       | _, _ => []
       end.
Proof.
  unfold family_indices. rewrite omap_app. f_equal. simpl.
  destruct (wire_bus w) as [bus|], (wire_index w) as [n|];
    repeat case_decide; simplify_eq/=; done.
Qed.

Lemma make_bus_first_loop wires st :
  fold_r make_bus_wire wires ([], []) = Ok st → make_bus_collected wires st.
Proof.
  apply (fold_r_inv make_bus_wire make_bus_collected).
  - split_and!; simpl; try constructor; try done.
    + intros Hin. inversion Hin.
    + intros [Hin _]. inversion Hin.
  - intros pre w [output buses] st' (Hnd1 & Hnd2 & Hfam & Hnone & Hkeys) Hstep.
    simpl in *. apply make_bus_wire_ok in Hstep.
    destruct (wire_bus w) as [bus|] eqn:Hbus.
    + destruct Hstep as (n & Hn & ->). split_and!; cbn [fst snd].
      * done.
      * by apply dict_keys_set_NoDup.
      * intros name. rewrite family_indices_snoc, Hbus, Hn, dict_get_set.
        destruct (decide (name = bus)) as [->|Hne].
        -- rewrite (decide_True (P:=bus = bus)) by done. rewrite Hfam.
           rewrite (decide_False (P:=_ ++ [n] = [])).
           ++ by destruct (decide (family_indices pre bus = [])) as [->|].
           ++ by destruct (family_indices pre bus).
        -- rewrite (decide_False (P:=bus = name)) by done.
           by rewrite app_nil_r.
      * done.
      * intros w'. rewrite Hkeys, elem_of_app, list_elem_of_singleton.
        split; [tauto|]. intros [[?| ->] Hnb]; [tauto|congruence].
    + subst st'. split_and!; cbn [fst snd].
      * by apply dict_keys_set_NoDup.
      * done.
      * intros name. rewrite family_indices_snoc, Hbus. by rewrite app_nil_r.
      * intros w' v. rewrite dict_get_set. destruct (decide (w' = w)); [|eauto].
        by intros [= <-].
      * intros w'. rewrite dict_keys_set_elem, Hkeys, elem_of_app,
          list_elem_of_singleton. split; [|tauto].
        intros [-> | ?]; tauto.
Qed.

Lemma make_bus_check_ok bus values output out' :
  make_bus_check (bus, values) output = Ok out' →
  values ≡ₚ seqZ 0 (Z.of_nat (length values))
  ∧ out' = dict_set bus (Some (Z.of_nat (length values) - 1)%Z) output.
Proof.
  unfold make_bus_check.
  destruct (py_min values) as [lo|] eqn:Hmin; simpl; [|done].
  destruct (assert_r (bool_decide (lo = _))) as [[]|] eqn:Hlo; simpl; [|done].
  destruct (py_max values) as [hi|] eqn:Hmax; simpl; [|done].
  destruct (assert_r (bool_decide (hi = _))) as [[]|] eqn:Hhi; simpl; [|done].
  destruct (assert_r (bool_decide (length values = _))) as [[]|] eqn:Hnd;
    simpl; [|done].
  apply assert_r_ok, bool_decide_eq_true in Hlo, Hhi, Hnd.
  intros [= <-]. split; [by eapply bus_indices_permutation|by subst hi].
Qed.

Lemma make_bus_second_loop buses output0 out :
  NoDup (dict_keys buses) → NoDup (dict_keys output0) →
  fold_r make_bus_check buses output0 = Ok out →
  make_bus_checked output0 buses out.
Proof.
  intros Hnd Hnd0.
  apply (fold_r_inv_prefix make_bus_check (make_bus_checked output0)).
  - split_and!; [|done|done]. intros name values Hin. inversion Hin.
  - intros pre [bus values] post out1 out2 Hl (Hin & Hout & Hnd1) Hstep.
    apply make_bus_check_ok in Hstep as [Hperm ->].
    assert (bus ∉ dict_keys pre) as Hbus.
    { unfold dict_keys in *. rewrite Hl, fmap_app in Hnd.
      apply NoDup_app in Hnd as (_ & Hd & _). intros Hb.
      apply (Hd bus Hb). left. }
    split_and!.
    + intros name vs [Hpre | [= -> ->]%list_elem_of_singleton]%elem_of_app.
      * destruct (Hin name vs Hpre) as [Hp Hg]. split; [done|].
        rewrite dict_get_set_ne; [done|]. intros ->. apply Hbus.
        apply dict_keys_elem. eauto.
      * split; [done|]. apply dict_get_set_eq.
    + intros name Hname. unfold dict_keys in Hname.
      rewrite fmap_app, not_elem_of_app in Hname. destruct Hname as [Hn1 Hn2].
      rewrite dict_get_set_ne; [by apply Hout|].
      intros ->. apply Hn2. left.
    + by apply dict_keys_set_NoDup.
Qed.

Lemma map_r_getitem (output : list (string * option Z)) l res :
  map_r (λ name, v ← getitem (dict_get name output); Ok (name, v)) l = Ok res →
  res.*1 = l
  ∧ (∀ name v, (name, v) ∈ res ↔ name ∈ l ∧ dict_get name output = Some v).
Proof.
  revert res. induction l as [|x l IH]; intros res; simpl.
  - intros [= <-]. split; [done|]. intros name v. split.
    + intros Hin. inversion Hin.
    + intros [Hin _]. inversion Hin.
  - destruct (dict_get x output) as [vx|] eqn:Hx; simpl; [|done].
    destruct (map_r _ l) as [ys|]; simpl; [|done].
    intros [= <-]. destruct (IH ys eq_refl) as [IH1 IH2]. split.
    + rewrite fmap_cons. simpl. f_equal. exact IH1.
    + intros name v. rewrite !elem_of_cons, IH2. split.
      * intros [[= -> ->]|[??]]; auto.
      * intros [[->|?] Hv]; [left|right]; [congruence|done].
Qed.

Lemma int_raises s e : int s = Raise e → e = ValueError.
Proof.
  unfold int. destruct (match strip s with | EmptyString => _ | _ => _ end);
    [done|]. by intros [= <-].
Qed.

(** One iteration of the first loop of [make_bus] raises the error of the
    wire, and returns when the wire has none. *)
Lemma make_bus_wire_result w st :
  match wire_error w with
  | Some e => make_bus_wire w st = Raise e
  | None => ∃ st', make_bus_wire w st = Ok st'
  end.
Proof.
  destruct st as [output buses].
  unfold wire_error, make_bus_wire, wire_bus, wire_index.
  destruct (decide (find "[" w ≠ (-1)%Z)) as [Hidx|Hidx]; [|eauto].
  destruct (last_char w) as [c|e]; simpl; [|done].
  destruct (decide (c = "]"%char)) as [->|Hne].
  - rewrite bool_decide_eq_true_2 by done. simpl.
    set (bus := slice 0 (find "[" w) w).
    assert (∃ values,
      dict_get bus (if dict_mem bus buses then buses
                    else dict_set bus [] buses) = Some values) as [values ->].
    { destruct (dict_mem bus buses) eqn:Hmem.
      - by apply dict_mem_true, dict_get_is_Some in Hmem.
      - exists []. apply dict_get_set_eq. }
    simpl. destruct (int _) as [n|e] eqn:Hint; simpl; [eauto|].
    by rewrite (int_raises _ _ Hint).
  - rewrite bool_decide_eq_false_2 by done. done.
Qed.

Lemma make_bus_first_loop_result wires st :
  match first_wire_error wires with
  | Some e => fold_r make_bus_wire wires st = Raise e
  | None => ∃ st', fold_r make_bus_wire wires st = Ok st'
  end.
Proof.
  unfold first_wire_error. revert st.
  induction wires as [|w wires IH]; intros st; simpl; [eauto|].
  pose proof (make_bus_wire_result w st) as Hw.
  destruct (wire_error w) as [e|]; simpl.
  - by rewrite Hw.
  - destruct Hw as [st' ->]. simpl. apply IH.
Qed.

Lemma foldl_max_elem (l : list Z) a : foldl Z.max a l ∈ a :: l.
Proof.
  revert a. induction l as [|y l IH]; intros a; simpl; [left|].
  specialize (IH (Z.max a y)).
  apply elem_of_cons in IH as [->|Hin].
  - destruct (Z.max_spec a y) as [[_ ->]|[_ ->]]; [right; left|left].
  - right. by right.
Qed.

Lemma py_max_elem l hi : py_max l = Ok hi → hi ∈ l.
Proof.
  destruct l as [|a l]; simpl; [done|]. intros [= <-]. apply foldl_max_elem.
Qed.

(** The three asserts of the second loop hold on the indices [0 .. k-1],
    once each. *)
Lemma consecutive_bus_checks (values : list Z) lo hi :
  consecutive_bus values →
  py_min values = Ok lo → py_max values = Ok hi →
  lo = 0%Z ∧ hi = (Z.of_nat (length values) - 1)%Z
  ∧ length values = size (list_to_set values : gset Z).
Proof.
  unfold consecutive_bus. intros Hperm Hmin Hmax.
  assert (∀ x, x ∈ values ↔ (0 ≤ x < Z.of_nat (length values))%Z) as Hin.
  { intros x. remember (Z.of_nat (length values)) as k.
    rewrite Hperm, elem_of_seqZ. lia. }
  assert (0 < length values)%nat as Hlen.
  { destruct values; simpl; [done|lia]. }
  apply py_min_spec in Hmin as [Hlo_in Hlo].
  pose proof (py_max_spec _ _ Hmax) as Hhi.
  apply py_max_elem in Hmax as Hhi_in.
  apply Hin in Hlo_in, Hhi_in.
  specialize (Hlo 0%Z ltac:(apply Hin; lia)).
  specialize (Hhi (Z.of_nat (length values) - 1)%Z ltac:(apply Hin; lia)).
  split_and!; [lia..|].
  symmetry. apply size_list_to_set.
  remember (Z.of_nat (length values)) as k. rewrite Hperm. apply NoDup_seqZ.
Qed.

(** One iteration of the second loop of [make_bus]. *)
Lemma make_bus_check_result bus values output :
  values ≠ [] →
  (consecutive_bus values
   ∧ make_bus_check (bus, values) output
     = Ok (dict_set bus (Some (Z.of_nat (length values) - 1)%Z) output))
  ∨ (¬ consecutive_bus values
     ∧ make_bus_check (bus, values) output = Raise AssertionError).
Proof.
  intros Hne. unfold make_bus_check.
  destruct (py_min values) as [lo|] eqn:Hmin; [|by destruct values].
  destruct (py_max values) as [hi|] eqn:Hmax; [|by destruct values].
  simpl.
  destruct (decide (lo = 0%Z)) as [Hlo|Hlo].
  2:{ right. rewrite (bool_decide_eq_false_2 (lo = 0%Z)) by done.
      split; [|done]. intros Hc.
      by destruct (consecutive_bus_checks _ _ _ Hc Hmin Hmax). }
  rewrite (bool_decide_eq_true_2 (lo = 0%Z)) by done. simpl.
  destruct (decide (hi = (Z.of_nat (length values) - 1)%Z)) as [Hhi|Hhi].
  2:{ right. rewrite (bool_decide_eq_false_2 (hi = _)) by done.
      split; [|done]. intros Hc.
      by destruct (consecutive_bus_checks _ _ _ Hc Hmin Hmax) as (_ & ? & _). }
  rewrite (bool_decide_eq_true_2 (hi = _)) by done. simpl.
  destruct (decide (length values = size (list_to_set values : gset Z)))
    as [Hnd|Hnd].
  2:{ right. rewrite (bool_decide_eq_false_2 (length values = _)) by done.
      split; [|done]. intros Hc.
      by destruct (consecutive_bus_checks _ _ _ Hc Hmin Hmax) as (_ & _ & ?). }
  rewrite (bool_decide_eq_true_2 (length values = _)) by done. simpl.
  left. split; [by eapply bus_indices_permutation|by rewrite Hhi].
Qed.

Lemma make_bus_second_loop_result buses output0 :
  (∀ bus values, (bus, values) ∈ buses → values ≠ []) →
  match fold_r make_bus_check buses output0 with
  | Ok _ => ∀ bus values, (bus, values) ∈ buses → consecutive_bus values
  | Raise e =>
      e = AssertionError
      ∧ ¬ (∀ bus values, (bus, values) ∈ buses → consecutive_bus values)
  end.
Proof.
  revert output0. induction buses as [|[bus values] buses IH];
    intros output0 Hne.
  { intros bus values Hin. by apply elem_of_nil in Hin. }
  rewrite fold_r_cons.
  destruct (make_bus_check_result bus values output0) as [[Hc ->]|[Hc ->]];
    simpl.
  - apply (Hne bus values). left.
  - specialize (IH (dict_set bus (Some (Z.of_nat (length values) - 1)%Z)
                      output0)
                   (λ b v Hin, Hne b v (list_elem_of_further _ _ _ Hin))).
    destruct (fold_r make_bus_check buses _) as [out|e].
    + intros b v [[= -> ->]|Hin]%elem_of_cons; [done|by apply (IH b)].
    + destruct IH as [-> Hn]. split; [done|].
      intros Hall. apply Hn. intros b v Hin. apply (Hall b v). by right.
  - split; [done|]. intros Hall. apply Hc, (Hall bus values). left.
Qed.

Lemma map_r_getitem_returns (output : list (string * option Z)) l :
  (∀ name, name ∈ l → is_Some (dict_get name output)) →
  ∃ res, map_r (λ name, v ← getitem (dict_get name output); Ok (name, v)) l
         = Ok res.
Proof.
  induction l as [|x l IH]; intros Hl; simpl; [eauto|].
  destruct (Hl x) as [v ->]; [left|]. simpl.
  destruct IH as [res ->]; [|simpl; eauto].
  intros name Hin. apply Hl. by right.
Qed.

(** The outcome of [make_bus]: the listing of the wires when no wire has
    an error and every family is [0 .. k-1] once each; the error of the
    first wire that has one; an [AssertionError] when no wire has an error
    and some family is not [0 .. k-1] once each. *)
Lemma make_bus_outcome (wires : list string) :
  let consecutive :=
    ∀ name, family_indices wires name ≠ [] →
            consecutive_bus (family_indices wires name) in
  match make_bus wires with
  | Ok out =>
      first_wire_error wires = None ∧ consecutive ∧ bus_listing wires out
  | Raise e =>
      first_wire_error wires = Some e
      ∨ (first_wire_error wires = None ∧ e = AssertionError ∧ ¬ consecutive)
  end.
Proof.
  intros consecutive. unfold make_bus.
  pose proof (make_bus_first_loop_result wires ([], [])) as H1.
  destruct (first_wire_error wires) as [e|] eqn:Hfirst.
  { rewrite H1. simpl. by left. }
  destruct H1 as [[output buses] H1]. rewrite H1. simpl.
  apply make_bus_first_loop in H1 as (Hnd1 & Hnd2 & Hfam & Hout & Hkeys).
  simpl in Hnd1, Hnd2, Hfam, Hout, Hkeys.
  assert (∀ bus values, (bus, values) ∈ buses →
    values = family_indices wires bus ∧ values ≠ []) as Hbuses.
  { intros bus values Hin. apply (dict_elem_get _ _ _ Hnd2) in Hin.
    rewrite Hfam in Hin. case_decide; [done|]. by injection Hin as <-. }
  assert (∀ name, family_indices wires name ≠ [] →
    (name, family_indices wires name) ∈ buses) as Hfamilies.
  { intros name Hne. apply dict_get_Some_elem. rewrite Hfam.
    by rewrite decide_False. }
  assert ((∀ bus values, (bus, values) ∈ buses → consecutive_bus values)
          ↔ consecutive) as Hcons.
  { split.
    - intros Hall name Hne. by apply (Hall name), Hfamilies.
    - intros Hall bus values Hin. destruct (Hbuses bus values Hin) as [-> ?].
      by apply Hall. }
  pose proof (make_bus_second_loop_result buses output
                (λ b v Hin, proj2 (Hbuses b v Hin))) as H2.
  destruct (fold_r make_bus_check buses output) as [output'|e] eqn:Hloop;
    simpl.
  2:{ destruct H2 as [-> Hn]. right. rewrite <- Hcons. by split_and!. }
  apply Hcons in H2.
  apply make_bus_second_loop in Hloop as (Hin & Hrest & Hnd3); [|done..].
  assert (∀ name v, dict_get name output' = Some v ↔
    ((name ∈ wires ∧ wire_bus name = None)
     ∨ family_indices wires name ≠ []) ∧ v = bus_bound wires name) as Hget.
  { intros name v. unfold bus_bound.
    destruct (decide (family_indices wires name = [])) as [Hnil|Hne].
    - rewrite (Hrest name)
        by (apply dict_get_None; by rewrite Hfam, decide_True).
      split.
      + intros Hv. rewrite (Hout name v Hv). split; [|done]. left.
        apply Hkeys, dict_get_is_Some. by rewrite Hv.
      + intros [[Hw|?] ->]; [|done].
        apply Hkeys, dict_get_is_Some in Hw as [v Hv].
        by rewrite Hv, (Hout name v Hv).
    - destruct (Hin _ _ (Hfamilies name Hne)) as [_ ->]. split.
      + intros [= <-]. split; [by right|done].
      + by intros [_ ->]. }
  destruct (map_r_getitem_returns output' (sorted (dict_keys output')))
    as [out Hmap].
  { intros name. unfold sorted. rewrite merge_sort_Permutation.
    by rewrite dict_get_is_Some. }
  rewrite Hmap. split_and!; [done..|].
  apply map_r_getitem in Hmap as [Hfst Hres].
  split_and!.
  - rewrite Hfst. apply (Sorted_merge_sort String.le).
  - rewrite Hfst. unfold sorted. by rewrite merge_sort_Permutation.
  - intros name v. rewrite Hres, <- Hget. split; [by intros [_ ?]|].
    intros Hv. split; [|done]. unfold sorted.
    rewrite merge_sort_Permutation. apply dict_get_is_Some. by rewrite Hv.
Qed.

(** C6 (as amended): [make_bus] raises for the first wire that contains an
    opening bracket and does not end in a closing bracket (an
    [AssertionError]) or whose text between the brackets is not an integer
    (a [ValueError]).  When no wire has such an error and every indexed
    family has the indices [0 .. k-1] once each, [make_bus] returns the
    listing of the wires: ordered by name, each name once, every indexed
    family with the bound [k-1] and every unindexed name that no indexed
    family shares with [None].  When no wire has such an error and some
    family is not [0 .. k-1] once each -- it has a duplicate index, no
    index 0, a negative index or a gap -- [make_bus] raises an
    [AssertionError]. *)
Theorem make_bus_groups_indexed_families (wires : list string) :
  let consecutive :=
    ∀ name, family_indices wires name ≠ [] →
            consecutive_bus (family_indices wires name) in
  (∀ e, first_wire_error wires = Some e → make_bus wires = Raise e)
  ∧ (first_wire_error wires = None →
     (consecutive → ∃ out, make_bus wires = Ok out ∧ bus_listing wires out)
     ∧ (¬ consecutive → make_bus wires = Raise AssertionError)
     ∧ (∀ name, family_indices wires name ≠ [] →
          malformed_bus (family_indices wires name) →
          make_bus wires = Raise AssertionError)).
Proof.
  intros consecutive. pose proof (make_bus_outcome wires) as Hout.
  cbv zeta in Hout. fold consecutive in Hout.
  assert (first_wire_error wires = None → ¬ consecutive →
          make_bus wires = Raise AssertionError) as Hbad.
  { intros Hnone Hn. destruct (make_bus wires) as [out|e].
    - by destruct Hout as (_ & Hc & _).
    - destruct Hout as [He|(_ & -> & _)]; [congruence|done]. }
  split.
  - intros e He. destruct (make_bus wires) as [out|e'].
    + destruct Hout as [Hnone _]. congruence.
    + destruct Hout as [He'|[Hnone _]]; congruence.
  - intros Hnone. split_and!.
    + intros Hc. destruct (make_bus wires) as [out|e].
      * exists out. by destruct Hout as (_ & _ & Hlist).
      * destruct Hout as [He|(_ & _ & Hn)]; [congruence|done].
    + by apply Hbad.
    + intros name Hne Hmal. apply Hbad; [done|]. intros Hc.
      by apply (malformed_bus_not_permutation _ Hne Hmal), Hc.
Qed.

(** C6, counterexample: the collection holds the indexed family [A[0]] and
    the unindexed name [A]; [make_bus] reports [A] with bound 0, not with
    [None]. *)
Lemma make_bus_unindexed_name_shadowed :
  make_bus ["A"; "A[0]"] = Ok [("A", Some 0%Z)]
  ∧ wire_bus "A" = None
  ∧ family_indices ["A"; "A[0]"] "A" = [0%Z].
Proof. vm_compute. done. Qed.

(** The examples of the docstring, as the code evaluates them. *)
Example make_bus_doc1 :
  make_bus ["A"; "B"] = Ok [("A", None); ("B", None)].
Proof. vm_compute. reflexivity. Qed.

Example make_bus_doc2 :
  make_bus ["A[0]"; "A[1]"; "B"] = Ok [("A", Some 1%Z); ("B", None)].
Proof. vm_compute. reflexivity. Qed.

Example make_bus_gap : make_bus ["A[0]"; "A[2]"] = Raise AssertionError.
Proof. vm_compute. reflexivity. Qed.

(** A wire whose index is not an integer comes before the gap of [A]. *)
Example make_bus_bad_index :
  make_bus ["A[0]"; "A[2]"; "B[x]"] = Raise ValueError.
Proof. vm_compute. reflexivity. Qed.

(** [int] does not strip the separator 31; it strips the blank 160. *)
Example make_bus_separator_index :
  make_bus ["A[" +:+ String (ascii_of_nat 31) "0]"] = Raise ValueError
  ∧ make_bus ["A[" +:+ String (ascii_of_nat 160) "0]"] = Ok [("A", Some 0%Z)].
Proof. vm_compute. done. Qed.

(** ** Methods: invariants and results *)

Section method_facts.
Context {St : Type}.
Implicit Types (I P : St → Prop).

Lemma preserves_ret {A} I (a : A) : preserves I (ret a).
Proof. by intros st. Qed.

Lemma preserves_raise {A} I e : preserves I (raise (A:=A) e).
Proof. by intros st. Qed.

Lemma preserves_lift_r {A} I (r : result A) : preserves I (lift_r r).
Proof. by intros st. Qed.

Lemma preserves_assert I b : preserves I (assert_ b).
Proof. by intros st. Qed.

Lemma preserves_gets {A} I (f : St → A) : preserves I (gets f).
Proof. by intros st. Qed.

Lemma preserves_modify I (f : St → St) :
  (∀ st, I st → I (f st)) → preserves I (modify f).
Proof. intros Hf st. apply Hf. Qed.

Lemma preserves_bind {A B} I (m : M St A) (k : A → M St B) :
  preserves I m → (∀ a, preserves I (k a)) → preserves I (bind m k).
Proof.
  intros Hm Hk st HI. unfold bind. specialize (Hm st HI).
  destruct (m st) as [[a|e] st']; simpl in *; [by apply Hk|done].
Qed.

Lemma preserves_for {A} I (l : list A) (body : A → M St unit) :
  (∀ x, preserves I (body x)) → preserves I (for_ l body).
Proof.
  intros Hb. induction l as [|x l IH]; simpl.
  - apply preserves_ret.
  - apply preserves_bind; [apply Hb|]. intros _. apply IH.
Qed.

Lemma returns_bind {A B} P (m : M St A) (k : A → M St B) Q R :
  returns P m Q → (∀ a, returns (Q a) (k a) R) → returns P (bind m k) R.
Proof.
  intros Hm Hk st b st' HP. unfold bind.
  destruct (m st) as [[a|e] st1] eqn:Hst; [|done].
  intros Hk'. eapply Hk; [|done]. by eapply Hm.
Qed.

Lemma returns_for {A} (I : list A → St → Prop) (l : list A)
    (body : A → M St unit) :
  (∀ pre x, returns (I pre) (body x) (λ _, I (pre ++ [x]))) →
  returns (I []) (for_ l body) (λ _, I l).
Proof.
  intros Hb.
  enough (∀ pre, returns (I pre) (for_ l body) (λ _, I (pre ++ l))) as Hgen
    by (apply (Hgen [])).
  induction l as [|x l IH]; intros pre; simpl.
  - intros st [] st' HI [= <-]. by rewrite app_nil_r.
  - eapply returns_bind; [apply Hb|]. intros u.
    intros st a st' HI Hfor. rewrite (cons_middle x pre l), app_assoc.
    by eapply IH.
Qed.

Lemma returns_weaken {A} (P P' : St → Prop) (m : M St A) (Q Q' : A → St → Prop) :
  returns P' m Q' → (∀ st, P st → P' st) → (∀ a st, Q' a st → Q a st) →
  returns P m Q.
Proof. intros Hm HP HQ st a st' Hst Hrun. eapply HQ, Hm; eauto. Qed.

Lemma returns_preserves {A} I (m : M St A) :
  preserves I m → returns I m (λ _, I).
Proof. intros Hm st a st' HI Hrun. specialize (Hm st HI). by rewrite Hrun in Hm. Qed.

Lemma returns_and {A} P (m : M St A) (Q1 Q2 : A → St → Prop) :
  returns P m Q1 → returns P m Q2 → returns P m (λ a st, Q1 a st ∧ Q2 a st).
Proof. intros H1 H2 st a st' HP Hrun. split; eauto. Qed.
End method_facts.

Lemma preserves_mod_l {L W} (I : L * W → Prop) (f : L → L) :
  (∀ l w, I (l, w) → I (f l, w)) → preserves I (mod_l f).
Proof. intros Hf [l w] HI. by apply Hf. Qed.

Lemma preserves_mod_w {L W} (I : L * W → Prop) (f : W → W) :
  (∀ l w, I (l, w) → I (l, f w)) → preserves I (mod_w f).
Proof. intros Hf [l w] HI. by apply Hf. Qed.

Lemma preserves_lift_w {L W A} (I : L → Prop) (m : M W A) :
  preserves (λ st : L * W, I st.1) (lift_w m).
Proof. intros [l w] HI. unfold lift_w. simpl. by destruct (m w). Qed.

Lemma fold_r_app_inv {A St} (body : A → St → result St) pre x post st0 st :
  fold_r body (pre ++ x :: post) st0 = Ok st →
  ∃ st1 st2, fold_r body pre st0 = Ok st1 ∧ body x st1 = Ok st2
             ∧ fold_r body post st2 = Ok st.
Proof.
  revert st0. induction pre as [|y pre IH]; intros st0; simpl.
  - destruct (body x st0) as [st2|] eqn:Hb; simpl; [|done]. eauto.
  - destruct (body y st0) as [st'|]; simpl; [|done]. apply IH.
Qed.

(** ** [Site.integrate_site]: the loop over [self.outputs] *)

Lemma set_remove_ok `{Countable A} (x : A) (s s' : gset A) :
  set_remove x s = Ok s' ↔ x ∈ s ∧ s' = s ∖ {[x]}.
Proof. unfold set_remove. case_bool_decide; naive_solver. Qed.

Lemma dict_set_fresh {K V} `{EqDecision K} (d : list (K * V)) k v :
  k ∉ dict_keys d → dict_set k v d = d ++ [(k, v)].
Proof.
  unfold dict_keys. induction d as [|[k0 v0] d IH]; simpl; [done|].
  intros [Hne Hk]%not_elem_of_cons. rewrite decide_False by done.
  by rewrite IH.
Qed.

Lemma shorting_progress_refl r : shorting_progress r r.
Proof. by split_and!. Qed.

Lemma shorting_progress_trans r1 r2 r3 :
  shorting_progress r1 r2 → shorting_progress r2 r3 → shorting_progress r1 r3.
Proof.
  intros (Ha & Hb & Hc) (Ha' & Hb' & Hc'). split_and!; [set_solver..|eauto].
Qed.

Section integrate_facts.
Context {Conn Net : Type}.
Variable get_wire_pkey : Conn → string → string → Z.
Variable conn : Conn.
Variable s : Site.

Lemma integrate_output_cases source_wire sink_wire r1 r2 :
  integrate_output get_wire_pkey conn s (source_wire, sink_wire) r1 = Ok r2 →
  (∃ k src,
      wire_identity get_wire_pkey conn s sink_wire = Some k
      ∧ k ∈ unrouted_sinks r1
      ∧ wire_identity get_wire_pkey conn s source_wire = Some src
      ∧ src ∈ unrouted_sources r1
      ∧ shorted_nets r2 = dict_set src k (shorted_nets r1)
      ∧ unrouted_sources r2 = unrouted_sources r1 ∖ {[src]}
      ∧ unrouted_sinks r2 = unrouted_sinks r1 ∖ {[k]})
  ∨ ((∀ k, wire_identity get_wire_pkey conn s sink_wire = Some k →
           k ∉ unrouted_sinks r1)
     ∧ shorted_nets r2 = shorted_nets r1
     ∧ unrouted_sources r2 = unrouted_sources r1
     ∧ unrouted_sinks r2 = unrouted_sinks r1).
Proof.
  unfold integrate_output, wire_identity.
  destruct (make_site_pin_map _ !! sink_wire) as [sink_pin|]; simpl.
  2:{ intros [= <-]. right. by split_and!. }
  destruct (make_site_pin_map _ !! source_wire) as [source_pin|]; simpl;
    [|done].
  case_bool_decide as Hk; simpl.
  - destruct (set_remove _ (unrouted_sources r1)) as [sources'|] eqn:Hsrc;
      simpl; [|done].
    destruct (set_remove _ (unrouted_sinks r1)) as [sinks'|] eqn:Hsnk;
      simpl; [|done].
    apply set_remove_ok in Hsrc as [Hsrc ->], Hsnk as [Hsnk ->].
    intros [= <-]. left. eexists _, _. by split_and!.
  - intros [= <-]. right. split_and!; [|done..]. by intros k [= <-].
Qed.

Lemma integrate_output_step o r1 r2 :
  shorted_sources_routed r1 →
  integrate_output get_wire_pkey conn s o r1 = Ok r2 →
  shorted_sources_routed r2 ∧ shorting_progress r1 r2.
Proof.
  destruct o as [source_wire sink_wire]. intros Hinv Hstep.
  apply integrate_output_cases in Hstep
    as [(k & src & _ & Hk & _ & Hsrc & Hsh & Hso & Hsi) | (_ & Hsh & Hso & Hsi)].
  - split.
    + intros src'. rewrite Hsh, Hso, dict_keys_set_elem.
      intros [-> | Hin]; [set_solver|]. specialize (Hinv src' Hin). set_solver.
    + split_and!; [set_solver..|]. intros src' k' Hget. rewrite Hsh.
      rewrite dict_get_set_ne; [done|]. intros ->.
      apply (Hinv src); [|done]. apply dict_get_is_Some. by rewrite Hget.
  - split.
    + intros src'. rewrite Hsh, Hso. apply Hinv.
    + split_and!; [set_solver..|]. by rewrite Hsh.
Qed.

Lemma integrate_outputs_progress l r1 r :
  shorted_sources_routed r1 →
  fold_r (integrate_output get_wire_pkey conn s) l r1 = Ok r →
  shorted_sources_routed r ∧ shorting_progress r1 r.
Proof.
  intros Hinv.
  apply (fold_r_inv _ (λ _ r, shorted_sources_routed r ∧ shorting_progress r1 r)).
  - split; [done|apply shorting_progress_refl].
  - intros pre o r2 r3 [Hi Hp] Hstep.
    destruct (integrate_output_step o r2 r3 Hi Hstep) as [Hi' Hp'].
    split; [done|]. by eapply shorting_progress_trans.
Qed.
End integrate_facts.

Ltac preserves_step :=
  first
    [ apply preserves_ret | apply preserves_raise | apply preserves_lift_r
    | apply preserves_assert | apply preserves_gets
    | apply preserves_for; intros ?
    | apply preserves_bind; [|intros ?]
    | apply preserves_mod_w; intros ? ? ?; assumption
    | apply preserves_mod_l; intros ? ? ?; simpl in *; assumption ].

Section integrate_site_facts.
Context {Conn Net : Type}.
Variable get_wire_pkey : Conn → string → string → Z.
Variable self : site_ref.
Variable conn : Conn.
Variable module : @Module_ Conn Net.

(** A property of the local variables that the five loop bodies keep is
    kept by the method up to the loop over the outputs. *)
Lemma integrate_wires_preserves (I : IntegratedSite → Prop) s :
  (∀ wire r, I r → I (add_wire wire r)) →
  (∀ k wire r, I r → I (set_wire_pkey_to_wire k wire r)) →
  (∀ k r, I r → I (add_unrouted_sink k r)) →
  (∀ k r, I r → I (add_unrouted_source k r)) →
  (∀ k v r, I r → I (set_source_bel k v r)) →
  preserves (λ st : IntegratedSite * World, I st.1)
    (integrate_wires get_wire_pkey self conn module s).
Proof.
  intros H1 H2 H3 H4 H5. unfold integrate_wires.
  apply preserves_bind; [apply preserves_lift_r|intros _].
  apply preserves_bind; [apply (preserves_lift_w I)|intros _].
  apply preserves_bind; [|intros _].
  { apply preserves_for. intros wire. apply preserves_mod_l. simpl. auto. }
  apply preserves_bind; [|intros _].
  - apply preserves_for. intros wire. unfold integrate_sink.
    destruct (py_is_bool _ _); [apply preserves_ret|].
    repeat (apply preserves_bind; [|intros ?]);
      try apply preserves_lift_r;
      try (apply preserves_mod_w; intros ? ? ?; assumption);
      apply preserves_mod_l; simpl; auto.
  - apply preserves_for. intros wire. unfold integrate_source.
    destruct (py_is_bool _ _); [apply preserves_ret|].
    repeat (apply preserves_bind; [|intros ?]);
      try apply preserves_lift_r;
      try (apply preserves_mod_w; intros ? ? ?; assumption);
      try (apply preserves_mod_l; simpl; auto; fail).
    match goal with |- preserves _ (match ?x with _ => _ end) => destruct x end;
      [apply preserves_mod_l; simpl; auto | apply preserves_ret].
Qed.

Lemma integrate_wires_no_shorted_nets s r0 w w' res :
  integrate_wires get_wire_pkey self conn module s (empty_integration, w)
    = (res, (r0, w')) →
  shorted_nets r0 = [].
Proof.
  intros Hrun.
  pose proof (integrate_wires_preserves (λ r, shorted_nets r = []) s
    ltac:(done) ltac:(done) ltac:(done) ltac:(done) ltac:(done)
    (empty_integration, w) eq_refl) as Hp.
  by rewrite Hrun in Hp.
Qed.

(** [integrate_site] returns what the loop over the outputs makes of the
    local variables the earlier loops have built. *)
Lemma integrate_site_returns w r w' :
  integrate_site get_wire_pkey self conn module w = (Ok r, w') →
  ∃ r0,
    integrate_wires get_wire_pkey self conn module (site_at w self)
      (empty_integration, w) = (Ok tt, (r0, w'))
    ∧ fold_r (integrate_output get_wire_pkey conn (site_at w self))
        (site_outputs (site_at w self)) r0 = Ok r.
Proof.
  unfold integrate_site, run_local, integrate_site_body, bind, gets, lift_r,
    mod_l, modify.
  destruct (integrate_wires _ _ _ _ _ _) as [[[]|e] [r0 w1]] eqn:Hw;
    simpl; [|done].
  destruct (fold_r _ _ r0) as [r'|e] eqn:Hf; simpl; [|done].
  intros [= <- <-]. by exists r0.
Qed.

End integrate_site_facts.



(** ** [Site.integrate_site]: the loops over the sinks and the sources *)

Section integrate_wires_facts.
Context {Conn Net : Type}.
Variable get_wire_pkey : Conn → string → string → Z.
Variable self : site_ref.
Variable conn : Conn.
Variable module : @Module_ Conn Net.
Variable s : Site.

(** The guard of both loops compares a [str] with a [bool] for identity. *)
Lemma top_level_guard_never_skips (m : @Module_ Conn Net) (wire : string) :
  py_is_bool (PyStr wire) (is_top_level m wire) = false.
Proof. reflexivity. Qed.

Lemma integrate_sink_returns pre wire :
  returns (λ st, sinks_resolved get_wire_pkey conn s pre st.1)
    (integrate_sink get_wire_pkey self conn module s wire)
    (λ _ st, sinks_resolved get_wire_pkey conn s (pre ++ [wire]) st.1).
Proof.
  intros [r w] [] [r' w'] Hpre. unfold integrate_sink. simpl.
  unfold bind, mod_l, mod_w, modify, lift_r. simpl.
  destruct (make_site_pin_map _ !! wire) as [pin|] eqn:Hpin; simpl; [|done].
  intros [= <- <-]. simpl.
  intros wire' [Hin | ->%list_elem_of_singleton]%elem_of_app.
  - destruct (Hpre wire' Hin) as (k & Hk & Hkin). exists k. split; [done|].
    simpl in *. set_solver.
  - eexists. unfold wire_identity. rewrite Hpin. split; [done|].
    simpl. set_solver.
Qed.

Lemma integrate_source_returns pre wire :
  returns (λ st, sources_resolved get_wire_pkey conn s pre st.1)
    (integrate_source get_wire_pkey self conn module s wire)
    (λ _ st, sources_resolved get_wire_pkey conn s (pre ++ [wire]) st.1).
Proof.
  intros [r w] [] [r' w'] Hpre. unfold integrate_source. simpl.
  unfold bind, mod_l, mod_w, modify, lift_r. simpl.
  destruct (make_site_pin_map _ !! wire) as [pin|] eqn:Hpin; simpl; [|done].
  destruct (dict_get wire (site_sources s)) as [[source_bel|]|]; simpl;
    [| |done].
  all: intros [= <- <-]; simpl.
  all: intros wire' [Hin | ->%list_elem_of_singleton]%elem_of_app.
  all: try (destruct (Hpre wire' Hin) as (k & Hk & Hkin); exists k;
            split; [done|]; simpl in *; set_solver).
  all: eexists; unfold wire_identity; rewrite Hpin; split; [done|];
    simpl; set_solver.
Qed.

Lemma integrate_source_keeps_sinks (P : gset Z → Prop) wire :
  preserves (λ st : IntegratedSite * World, P (unrouted_sinks st.1))
    (integrate_source get_wire_pkey self conn module s wire).
Proof.
  intros [r w] HP. unfold integrate_source. simpl.
  unfold bind, mod_l, mod_w, modify, lift_r. simpl.
  destruct (make_site_pin_map _ !! wire) as [pin|]; simpl; [|done].
  by destruct (dict_get wire (site_sources s)) as [[source_bel|]|].
Qed.

Lemma integrate_wires_returns :
  returns (λ _, True)
    (integrate_wires get_wire_pkey self conn module s)
    (λ _ st,
       sinks_resolved get_wire_pkey conn s (dict_keys (site_sinks s)) st.1
       ∧ sources_resolved get_wire_pkey conn s
           (dict_keys (site_sources s)) st.1).
Proof.
  unfold integrate_wires.
  apply returns_bind with (Q := λ _ _, True); [done|intros _].
  apply returns_bind with (Q := λ _ _, True); [done|intros _].
  apply returns_bind with (Q := λ _ _, True); [done|intros _].
  apply returns_bind with
    (Q := λ _ st, sinks_resolved get_wire_pkey conn s
                    (dict_keys (site_sinks s)) st.1); [|intros _].
  - eapply returns_weaken.
    + apply (returns_for (λ pre st,
        sinks_resolved get_wire_pkey conn s pre st.1)).
      apply integrate_sink_returns.
    + intros st _ wire Hin. inversion Hin.
    + done.
  - apply returns_and.
    + apply returns_preserves.
      apply (preserves_for (λ st : IntegratedSite * World,
        sinks_resolved get_wire_pkey conn s (dict_keys (site_sinks s)) st.1)).
      intros wire.
      apply (integrate_source_keeps_sinks (λ X, ∀ wire, wire ∈ _ →
        ∃ k, _ = Some k ∧ k ∈ X)).
    + eapply returns_weaken.
      * apply (returns_for (λ pre st,
          sources_resolved get_wire_pkey conn s pre st.1)).
        apply integrate_source_returns.
      * intros st _ wire Hin. inversion Hin.
      * done.
Qed.
End integrate_wires_facts.



(** ** [Module.add_site] *)

Lemma merge_exclusive_sets_spec `{Countable A} (set_a set_b : gset A) :
  (set_a ## set_b ∧ merge_exclusive_sets set_a set_b = Ok (set_a ∪ set_b))
  ∨ (¬ set_a ## set_b
     ∧ merge_exclusive_sets set_a set_b = Raise AssertionError).
Proof.
  unfold merge_exclusive_sets. case_bool_decide as Hsize; simpl.
  - left. split; [|done]. apply size_empty_iff in Hsize. set_solver.
  - right. split; [|done]. intros Hd. apply Hsize, size_empty_iff. set_solver.
Qed.

Lemma merge_exclusive_dicts_spec `{Countable K} {V} (dict_a dict_b : list (K * V)) :
  (keys_disjoint dict_a dict_b
   ∧ merge_exclusive_dicts dict_a dict_b = Ok (dict_update dict_a dict_b))
  ∨ (¬ keys_disjoint dict_a dict_b
     ∧ merge_exclusive_dicts dict_a dict_b = Raise AssertionError).
Proof.
  unfold merge_exclusive_dicts, keys_disjoint. case_bool_decide as Hsize; simpl.
  - left. split; [|done]. by apply disjoint_keys_size.
  - right. split; [|done]. intros Hd. by apply Hsize, disjoint_keys_size.
Qed.

Lemma dict_get_update_l {K V} `{EqDecision K} (d1 d2 : list (K * V)) k :
  k ∉ dict_keys d2 → dict_get k (dict_update d1 d2) = dict_get k d1.
Proof.
  unfold dict_update, dict_keys. revert d1.
  induction d2 as [|[k2 v2] d2 IH]; intros d1; simpl; [done|].
  intros [Hne Hk]%not_elem_of_cons. rewrite IH by done.
  by apply dict_get_set_ne.
Qed.

Lemma dict_update_keeps {K V} `{EqDecision K} (d1 d2 : list (K * V)) k v :
  keys_disjoint d1 d2 → dict_get k d1 = Some v →
  dict_get k (dict_update d1 d2) = Some v.
Proof.
  intros Hd Hget. rewrite dict_get_update_l; [done|].
  apply Hd, dict_get_is_Some. by rewrite Hget.
Qed.

Section dicts_wf_facts.
Context {Conn Net : Type}.
Variable get_wire_pkey : Conn → string → string → Z.

Lemma integrate_output_dicts_wf conn s o r1 r2 :
  dicts_wf r1 → integrate_output get_wire_pkey conn s o r1 = Ok r2 →
  dicts_wf r2.
Proof.
  destruct o as [source_wire sink_wire]. intros (H1 & H2 & H3 & H4).
  unfold integrate_output.
  destruct (make_site_pin_map _ !! sink_wire) as [sink_pin|]; simpl.
  2:{ intros [= <-]. split_and!; simpl; auto using dict_keys_set_NoDup. }
  destruct (make_site_pin_map _ !! source_wire) as [source_pin|]; simpl;
    [|done].
  case_bool_decide; simpl.
  - destruct (set_remove _ (unrouted_sources r1)); simpl; [|done].
    destruct (set_remove _ (unrouted_sinks r1)); simpl; [|done].
    intros [= <-]. split_and!; simpl; auto using dict_keys_set_NoDup.
  - intros [= <-]. split_and!; simpl; auto using dict_keys_set_NoDup.
Qed.

Lemma integrate_site_dicts_wf self conn (module : @Module_ Conn Net) w r w' :
  integrate_site get_wire_pkey self conn module w = (Ok r, w') → dicts_wf r.
Proof.
  intros (r0 & Hwires & Hfold)%integrate_site_returns.
  assert (dicts_wf r0) as Hwf0.
  { pose proof (integrate_wires_preserves get_wire_pkey self conn module
      dicts_wf (site_at w self)) as Hp.
    specialize (Hp ltac:(by intros ?? (?&?&?&?))).
    specialize (Hp ltac:(intros ??? (?&?&?&?); split_and!; simpl;
                         auto using dict_keys_set_NoDup)).
    specialize (Hp ltac:(by intros ?? (?&?&?&?))).
    specialize (Hp ltac:(by intros ?? (?&?&?&?))).
    specialize (Hp ltac:(intros ??? (?&?&?&?); split_and!; simpl;
                         auto using dict_keys_set_NoDup)).
    specialize (Hp (empty_integration, w)). rewrite Hwires in Hp.
    apply Hp. split_and!; constructor. }
  revert Hfold. apply (fold_r_inv _ (λ _ r, dicts_wf r)); [done|].
  intros pre o r1 r2 Hwf Hstep. by eapply integrate_output_dicts_wf.
Qed.
End dicts_wf_facts.

Lemma bind_ok {St A B} (m : M St A) (k : A → M St B) st a st' :
  m st = (Ok a, st') → bind m k st = k a st'.
Proof. unfold bind. by intros ->. Qed.

Lemma bind_raise {St A B} (m : M St A) (k : A → M St B) st e st' :
  m st = (Raise e, st') → bind m k st = (Raise e, st').
Proof. unfold bind. by intros ->. Qed.

Lemma merge_into_ok {Conn Net A} (get_a : @Module_ Conn Net → A) set_a merge
    (b : A) m (w : World) a' :
  merge (get_a m) b = Ok a' →
  merge_into get_a set_a merge b (m, w) = (Ok tt, (set_a a' m, w)).
Proof.
  intros Hm. unfold merge_into, bind, gets, lift_r, mod_l, modify.
  cbn [fst snd]. by rewrite Hm.
Qed.

Lemma merge_into_raise {Conn Net A} (get_a : @Module_ Conn Net → A) set_a merge
    (b : A) m (w : World) e :
  merge (get_a m) b = Raise e →
  merge_into get_a set_a merge b (m, w) = (Raise e, (m, w)).
Proof.
  intros Hm. unfold merge_into, bind, gets, lift_r, mod_l, modify.
  cbn [fst snd]. by rewrite Hm.
Qed.

(** Two modules with the same attributes are the same module. *)
Lemma Module_ext {Conn Net} (m1 m2 : @Module_ Conn Net) :
  mod_name m1 = mod_name m2 → mod_iostandard m1 = mod_iostandard m2 →
  mod_conn m1 = mod_conn m2 → mod_sites m1 = mod_sites m2 →
  mod_source_bels m1 = mod_source_bels m2 →
  mod_shorted_nets m1 = mod_shorted_nets m2 →
  mod_wire_pkey_to_wire m1 = mod_wire_pkey_to_wire m2 →
  mod_unrouted_sinks m1 = mod_unrouted_sinks m2 →
  mod_unrouted_sources m1 = mod_unrouted_sources m2 →
  mod_active_pips m1 = mod_active_pips m2 →
  mod_root_in m1 = mod_root_in m2 → mod_root_out m1 = mod_root_out m2 →
  mod_root_inout m1 = mod_root_inout m2 → mod_wires m1 = mod_wires m2 →
  mod_wire_assigns m1 = mod_wire_assigns m2 →
  mod_site_to_signal m1 = mod_site_to_signal m2 →
  mod_nets m1 = mod_nets m2 → mod_net_map m1 = mod_net_map m2 →
  m1 = m2.
Proof. destruct m1, m2. simpl. by repeat intros ->. Qed.

Lemma nothing_overwritten_refl {Conn Net} (m : @Module_ Conn Net) :
  nothing_overwritten m m.
Proof. by split_and!. Qed.



(** Integrating the same site a second time collides on its wire names. *)
Example add_site_twice_raises : twice_added.1 = Raise AssertionError.
Proof. vm_compute. reflexivity. Qed.

(** ** [Site.remove_bel] *)

Section raises_facts.
Context {St : Type}.

Lemma raises_only_ret {A} E (a : A) : raises_only (St:=St) E (ret a).
Proof. by intros st e st'. Qed.

Lemma raises_only_gets {A} E (f : St → A) : raises_only E (gets f).
Proof. by intros st e st'. Qed.

Lemma raises_only_modify E (f : St → St) : raises_only E (modify f).
Proof. by intros st e st'. Qed.

Lemma raises_only_raise {A} (E : exn → Prop) e :
  E e → raises_only (St:=St) (A:=A) E (raise e).
Proof. intros He st e' st' [= <- _]. done. Qed.

Lemma raises_only_lift_r {A} (E : exn → Prop) (r : result A) :
  (∀ e, r = Raise e → E e) → raises_only (St:=St) E (lift_r r).
Proof. intros Hr st e st' [= -> _]. by apply Hr. Qed.

Lemma raises_only_bind {A B} E (m : M St A) (k : A → M St B) :
  raises_only E m → (∀ a, raises_only E (k a)) → raises_only E (bind m k).
Proof.
  intros Hm Hk st e st'. unfold bind.
  destruct (m st) as [[a|e1] st1] eqn:Hst.
  - apply Hk.
  - intros [= <- _]. by eapply Hm.
Qed.

Lemma raises_only_for {A} E (l : list A) (body : A → M St unit) :
  (∀ x, raises_only E (body x)) → raises_only E (for_ l body).
Proof.
  intros Hb. induction l as [|x l IH]; simpl.
  - apply raises_only_ret.
  - apply raises_only_bind; [apply Hb|]. intros _. apply IH.
Qed.

(** A loop whose body only checks is one check of the whole list. *)
Lemma for_checks {A} (l : list A) (body : A → M St unit)
    (check : A → St → result unit) st :
  (∀ x, body x st = (check x st, st)) →
  for_ l body st = (for_r l (λ x, check x st), st).
Proof.
  intros Hb. induction l as [|x l IH]; simpl; [done|].
  unfold bind. rewrite Hb. destruct (check x st) as [[]|e]; simpl; [|done].
  apply IH.
Qed.
End raises_facts.

Lemma for_r_raise_elem {A} (l : list A) (body : A → result unit) e :
  for_r l body = Raise e → ∃ x, x ∈ l ∧ body x = Raise e.
Proof.
  induction l as [|x l IH]; simpl; [done|].
  destruct (body x) as [[]|e'] eqn:Hb; simpl.
  - intros (y & Hy & Hby)%IH. exists y. split; [by right|done].
  - intros [= ->]. exists x. split; [left|done].
Qed.

Lemma raises_only_run_local {L W} E (l0 : L) (m : M (L * W) unit) :
  raises_only E m → raises_only E (run_local l0 m).
Proof.
  intros Hm w e w'. unfold run_local.
  destruct (m (l0, w)) as [[[]|e1] [l1 w1]] eqn:Hrun; [done|].
  intros [= <- _]. by eapply Hm.
Qed.

Lemma getitem_raises {A} (o : option A) e : getitem o = Raise e → e = KeyError.
Proof. destruct o; simpl; congruence. Qed.

Lemma first_index_None {A} (p : A → bool) l :
  first_index p l = None ↔ ∀ x, x ∈ l → p x = false.
Proof.
  induction l as [|x l IH]; simpl.
  - split; [|done]. intros _ y Hy. inversion Hy.
  - destruct (p x) eqn:Hp.
    + split; [done|]. intros H. specialize (H x ltac:(left)). congruence.
    + destruct (first_index p l) as [i|]; simpl.
      * split; [done|]. intros H. exfalso.
        assert (Some i = None) as Heq; [|done].
        apply IH. intros y Hy. apply H. by right.
      * split; [|done]. intros _ y [->|Hy]%elem_of_cons; [done|].
        by apply IH.
Qed.

Lemma first_index_lookup {A} (p : A → bool) l i :
  first_index p l = Some i →
  ∃ x, l !! i = Some x ∧ p x = true
       ∧ ∀ j y, (j < i)%nat → l !! j = Some y → p y = false.
Proof.
  revert i. induction l as [|x l IH]; intros i; simpl; [done|].
  destruct (p x) eqn:Hp.
  - intros [= <-]. exists x. split_and!; [done..|]. intros j y Hj. lia.
  - destruct (first_index p l) as [i'|]; simpl; [|done].
    intros [= <-]. destruct (IH i' eq_refl) as (y & Hy & Hpy & Hlt).
    exists y. split_and!; [done..|]. intros [|j] z Hj; simpl.
    + by intros [= <-].
    + apply Hlt. lia.
Qed.

Section remove_bel_facts.
Variable self : site_ref.
Variable b : bel_ref.

(** The check [remove_bel] makes on one owned BEL. *)
Lemma check_unused_by_checks bel w :
  check_unused_by b bel w
  = (if is_removed b bel then Ok tt
     else for_r (dict_values (bel_connections (bel_at w bel)))
            (λ site_wire, assert_r (negb (connection_in site_wire
                                            (bel_outputs (bel_at w b))))),
     w).
Proof.
  unfold check_unused_by. destruct (is_removed b bel); [done|].
  unfold bind, the_bel, gets.
  by apply (for_checks _ _ (λ site_wire _,
    assert_r (negb (connection_in site_wire (bel_outputs (bel_at w b)))))).
Qed.

Lemma unused_checks_ok w bels :
  for_r bels (λ bel, (check_unused_by b bel w).1) = Ok tt
  ↔ ∀ bel pin x, bel ∈ bels → bel ≠ b →
      (pin, ConnWire x) ∈ bel_connections (bel_at w bel) →
      x ∉ bel_outputs (bel_at w b).
Proof.
  rewrite for_r_ok. split.
  - intros Hall bel pin x Hbel Hne Hconn. specialize (Hall bel Hbel).
    rewrite check_unused_by_checks in Hall. simpl in Hall.
    unfold is_removed in Hall. rewrite bool_decide_eq_false_2 in Hall by done.
    rewrite for_r_ok in Hall.
    specialize (Hall (ConnWire x)
      ltac:(apply dict_values_elem; by exists pin)).
    apply assert_r_ok, negb_true_iff in Hall. simpl in Hall.
    by apply bool_decide_eq_false in Hall.
  - intros Hall bel Hbel. rewrite check_unused_by_checks. simpl.
    unfold is_removed. case_bool_decide as Heq; [done|].
    apply for_r_ok. intros site_wire (pin & Hin)%dict_values_elem.
    apply assert_r_ok, negb_true_iff.
    destruct site_wire as [x| |]; simpl; [|done..].
    apply bool_decide_eq_false. by eapply Hall.
Qed.

Lemma unused_checks_cases w bels :
  for_r bels (λ bel, (check_unused_by b bel w).1) = Ok tt
  ∨ for_r bels (λ bel, (check_unused_by b bel w).1) = Raise AssertionError.
Proof.
  apply for_r_raises. intros bel. rewrite check_unused_by_checks. simpl.
  destruct (is_removed b bel); [by left|].
  apply for_r_raises. intros site_wire. apply assert_r_cases.
Qed.

End remove_bel_facts.

Lemma site_at_upd_site self f w :
  site_at (upd_site self f w) self = f (site_at w self).
Proof. unfold upd_site. simpl. apply fn_lookup_insert. Qed.

Lemma site_at_upd_site_ne self r f w :
  r ≠ self → site_at (upd_site self f w) r = site_at w r.
Proof. intros Hne. unfold upd_site. simpl. by apply fn_lookup_insert_ne. Qed.

Lemma bel_at_upd_bel bel f w :
  bel_at (upd_bel bel f w) bel = f (bel_at w bel).
Proof. unfold upd_bel. simpl. apply fn_lookup_insert. Qed.

Lemma bel_at_upd_bel_ne bel r f w :
  r ≠ bel → bel_at (upd_bel bel f w) r = bel_at w r.
Proof. intros Hne. unfold upd_bel. simpl. by apply fn_lookup_insert_ne. Qed.

Lemma preserves_run_local {L W} (I : W → Prop) (l0 : L) (m : M (L * W) unit) :
  preserves (λ st : L * W, I st.2) m → preserves I (run_local l0 m).
Proof.
  intros Hm w HI. unfold run_local. specialize (Hm (l0, w) HI).
  by destruct (m (l0, w)) as [[[]|e] [l1 w1]].
Qed.

Lemma remove_bel_frame_refl self w : remove_bel_frame self w w.
Proof. by split_and!. Qed.

(** A change of the site's [bels], [sinks] or [sources] stays in the frame. *)
Lemma remove_bel_frame_upd self w w1 f :
  (∀ s, site_internal_sources (f s) = site_internal_sources s) →
  (∀ s, site_outputs (f s) = site_outputs s) →
  (∀ s, site_bel_map (f s) = site_bel_map s) →
  (∀ s, site_site_wire_to_wire_pkey (f s) = site_site_wire_to_wire_pkey s) →
  remove_bel_frame self w w1 →
  remove_bel_frame self w (upd_site self f w1).
Proof.
  intros H1 H2 H3 H4 (Hb & Hs & Hi & Ho & Hm & Hp).
  split_and!; rewrite ?site_at_upd_site, ?H1, ?H2, ?H3, ?H4; try done.
  intros r Hr. rewrite site_at_upd_site_ne by done. by apply Hs.
Qed.

Section remove_bel_frame_facts.
Variable self : site_ref.
Variable b : bel_ref.

Lemma remove_from_sink_frame w sk :
  preserves (λ st : list Z * World, remove_bel_frame self w st.2)
    (remove_from_sink self b sk).
Proof.
  destruct sk as [sink_wire bels_using_sink]. unfold remove_from_sink.
  apply preserves_bind; [|intros _].
  - destruct (first_index _ bels_using_sink); [|apply preserves_ret].
    apply preserves_mod_w. intros l w1 Hf. simpl in *.
    by apply remove_bel_frame_upd.
  - destruct (decide _); [|apply preserves_ret].
    apply preserves_bind; [apply preserves_gets|intros s1].
    apply preserves_bind; [apply preserves_lift_r|intros k].
    apply preserves_mod_l. by intros l w1.
Qed.

Lemma collect_source_frame w sv :
  preserves (λ st : (list Z * list string) * World,
               remove_bel_frame self w st.2)
    (collect_source self b sv).
Proof.
  destruct sv as [source_wire [[bel pin]|]]; unfold collect_source.
  - destruct (is_removed b bel); [|apply preserves_ret].
    apply preserves_bind; [apply preserves_gets|intros s1].
    apply preserves_bind; [apply preserves_lift_r|intros k].
    apply preserves_mod_l. by intros l w1.
  - apply preserves_raise.
Qed.

Lemma remove_bel_preserves_frame (w : World) :
  preserves (remove_bel_frame self w) (Site_remove_bel self b).
Proof.
  unfold Site_remove_bel.
  apply preserves_bind; [apply preserves_gets|intros s].
  apply preserves_bind; [apply preserves_assert|intros _].
  apply preserves_bind; [|intros _].
  { apply preserves_for. intros bel w1 Hf.
    by rewrite check_unused_by_checks. }
  apply preserves_bind; [|intros _].
  { apply preserves_modify. intros w1 Hf. by apply remove_bel_frame_upd. }
  apply preserves_bind; [|intros removed_sinks].
  { apply preserves_run_local, preserves_for. intros sk.
    apply remove_from_sink_frame. }
  apply preserves_bind; [apply preserves_gets|intros s1].
  apply preserves_bind; [|intros [removed_sources sources_to_remove]].
  { apply preserves_run_local, preserves_for. intros sv.
    apply collect_source_frame. }
  apply preserves_bind; [|intros _; apply preserves_ret].
  apply preserves_for. intros wire. apply preserves_modify.
  intros w1 Hf. by apply remove_bel_frame_upd.
Qed.

End remove_bel_frame_facts.

Lemma not_elem_of_delete_NoDup {A} (l : list A) i x :
  NoDup l → l !! i = Some x → x ∉ delete i l.
Proof.
  intros Hnd Hi. rewrite delete_take_drop.
  rewrite <- (take_drop_middle l i x Hi) in Hnd.
  apply NoDup_app in Hnd as (_ & Hdisj & [Hx _]%NoDup_cons).
  intros [Hin|Hin]%elem_of_app; [|done].
  apply (Hdisj x Hin). left.
Qed.

Section remove_bel_result_facts.
Variable self : site_ref.
Variable b : bel_ref.

Lemma remove_from_sink_keeps_bels X sk :
  preserves (λ st : list Z * World, site_bels (site_at st.2 self) = X)
    (remove_from_sink self b sk).
Proof.
  destruct sk as [sink_wire bels_using_sink]. unfold remove_from_sink.
  apply preserves_bind; [|intros _].
  - destruct (first_index _ bels_using_sink); [|apply preserves_ret].
    apply preserves_mod_w. intros l w1 Hf. cbn [fst snd] in *.
    rewrite site_at_upd_site. exact Hf.
  - destruct (decide _); [|apply preserves_ret].
    apply preserves_bind; [apply preserves_gets|intros s1].
    apply preserves_bind; [apply preserves_lift_r|intros k].
    apply preserves_mod_l. by intros l w1.
Qed.

Lemma collect_source_keeps_world (I : World → Prop) sv :
  preserves (λ st : (list Z * list string) * World, I st.2)
    (collect_source self b sv).
Proof.
  destruct sv as [source_wire [[bel pin]|]]; unfold collect_source.
  - destruct (is_removed b bel); [|apply preserves_ret].
    apply preserves_bind; [apply preserves_gets|intros s1].
    apply preserves_bind; [apply preserves_lift_r|intros k].
    apply preserves_mod_l. by intros l w1.
  - apply preserves_raise.
Qed.

(** When [remove_bel] returns, the site's list of BELs has lost the first
    entry that is the removed BEL, and nothing else. *)
Lemma remove_bel_returns_bels w res w' :
  Site_remove_bel self b w = (Ok res, w') →
  ∃ idx, site_bels (site_at w self) !! idx = Some b
         ∧ site_bels (site_at w' self) = delete idx (site_bels (site_at w self)).
Proof.
  unfold Site_remove_bel. rewrite (bind_ok _ _ w (site_at w self) w) by done.
  set (s := site_at w self).
  destruct (first_index (is_removed b) (site_bels s)) as [idx|] eqn:Hidx;
    [|done].
  rewrite (bind_ok _ _ w tt w) by done.
  pose proof (for_checks (site_bels s) (check_unused_by b)
    (λ bel w, (check_unused_by b bel w).1) w
    ltac:(intros bel; cbv beta; rewrite check_unused_by_checks; reflexivity))
    as Hfor. cbv beta in Hfor.
  destruct (for_r (site_bels s) _) as [[]|e].
  2:{ by rewrite (bind_raise _ _ _ _ _ Hfor). }
  rewrite (bind_ok _ _ _ _ _ Hfor).
  rewrite (bind_ok _ _ w tt
    (upd_site self (λ s0, with_bels (delete idx (site_bels s0)) s0) w))
    by done.
  intros Hrun. exists idx. split.
  { apply first_index_lookup in Hidx as (x & Hx & Hp & _).
    unfold is_removed in Hp. apply bool_decide_eq_true in Hp. by subst x. }
  match type of Hrun with ?m ?w0 = _ =>
    assert (preserves (λ w1, site_bels (site_at w1 self)
                             = delete idx (site_bels s)) m) as Hp
  end.
  { apply preserves_bind; [|intros removed_sinks].
    { apply preserves_run_local, preserves_for. intros sk.
      apply remove_from_sink_keeps_bels. }
    apply preserves_bind; [apply preserves_gets|intros s1].
    apply preserves_bind; [|intros [removed_sources sources_to_remove]].
    { apply preserves_run_local, preserves_for. intros sv.
      apply (collect_source_keeps_world
        (λ w1, site_bels (site_at w1 self) = delete idx (site_bels s))). }
    apply preserves_bind; [|intros _; apply preserves_ret].
    apply preserves_for. intros wire. apply preserves_modify.
    intros w1 Hf. rewrite site_at_upd_site. exact Hf. }
  specialize (Hp
    (upd_site self (λ s0, with_bels (delete idx (site_bels s0)) s0) w)
    ltac:(cbv beta; rewrite site_at_upd_site; reflexivity)).
  by rewrite Hrun in Hp.
Qed.

End remove_bel_result_facts.



(** ** The [Site] mutators *)

Lemma site_at_upd_bel bel f w r : site_at (upd_bel bel f w) r = site_at w r.
Proof. done. Qed.

Lemma bel_at_upd_site self f w r : bel_at (upd_site self f w) r = bel_at w r.
Proof. done. Qed.

Lemma dict_mem_set {K V} `{EqDecision K} (d : list (K * V)) k k' v :
  dict_mem k (dict_set k' v d) = true ↔ k = k' ∨ dict_mem k d = true.
Proof. by rewrite !dict_mem_true, dict_keys_set_elem. Qed.





Lemma elem_of_dict_set {K V} `{EqDecision K} (d : list (K * V)) k v kv :
  kv ∈ dict_set k v d → kv = (k, v) ∨ kv ∈ d.
Proof.
  induction d as [|[k0 v0] d IH]; simpl.
  - intros ->%list_elem_of_singleton. by left.
  - destruct (decide (k = k0)) as [->|Hne].
    + intros [->|Hin]%elem_of_cons; [by left|]. right. by right.
    + intros [->|Hin]%elem_of_cons; [right; left|].
      destruct (IH Hin) as [->|Hd]; [by left|]. right. by right.
Qed.

Section drivers_facts.
Variable self : site_ref.

Lemma drivers_upd_bel bel f w :
  (∀ b0, bel_outputs b0 ⊆ bel_outputs (f b0)) →
  drivers_are_outputs self w → drivers_are_outputs self (upd_bel bel f w).
Proof.
  intros Hf [Hs Hi].
  assert (∀ r pin, pin ∈ bel_outputs (bel_at w r) →
                   pin ∈ bel_outputs (bel_at (upd_bel bel f w) r)) as Hgrow.
  { intros r pin Hin. destruct (decide (r = bel)) as [->|Hne].
    - rewrite bel_at_upd_bel. by apply Hf.
    - by rewrite bel_at_upd_bel_ne. }
  split; intros wire b0 pin Hin; apply Hgrow; eauto.
Qed.

Lemma drivers_upd_site f w :
  (∀ s kv, kv ∈ site_sources (f s) →
     kv ∈ site_sources s
     ∨ ∀ bel pin, kv.2 = Some (bel, pin) → pin ∈ bel_outputs (bel_at w bel)) →
  (∀ s kv, kv ∈ site_internal_sources (f s) →
     kv ∈ site_internal_sources s
     ∨ ∀ bel pin, kv.2 = Some (bel, pin) → pin ∈ bel_outputs (bel_at w bel)) →
  drivers_are_outputs self w → drivers_are_outputs self (upd_site self f w).
Proof.
  intros Hfs Hfi [Hs Hi]. split; intros wire b0 pin;
    rewrite site_at_upd_site, bel_at_upd_site.
  - intros [Hin | Hnew]%Hfs; [eauto|]. by apply Hnew.
  - intros [Hin | Hnew]%Hfi; [eauto|]. by apply Hnew.
Qed.

Lemma drivers_upd_site_other f w :
  (∀ s, site_sources (f s) = site_sources s) →
  (∀ s, site_internal_sources (f s) = site_internal_sources s) →
  drivers_are_outputs self w → drivers_are_outputs self (upd_site self f w).
Proof.
  intros Hs Hi. apply drivers_upd_site; intros s kv.
  - rewrite Hs. by left.
  - rewrite Hi. by left.
Qed.

Lemma add_sink_keeps_drivers bel bel_pin sink :
  preserves (drivers_are_outputs self) (add_sink self bel bel_pin sink).
Proof.
  unfold add_sink.
  apply preserves_bind; [apply preserves_gets|intros b].
  apply preserves_bind; [apply preserves_assert|intros _].
  apply preserves_bind; [apply preserves_gets|intros s].
  apply preserves_bind; [|intros _].
  { destruct (dict_mem sink (site_sinks s)); [apply preserves_ret|].
    apply preserves_modify. intros w. by apply drivers_upd_site_other. }
  apply preserves_bind; [|intros _].
  { apply preserves_modify. intros w. by apply drivers_upd_bel. }
  apply preserves_bind; [apply preserves_gets|intros s'].
  apply preserves_bind; [apply preserves_lift_r|intros l].
  apply preserves_modify. intros w. by apply drivers_upd_site_other.
Qed.

Lemma add_source_keeps_drivers bel bel_pin source :
  preserves (drivers_are_outputs self) (add_source self bel bel_pin source).
Proof.
  intros w Hd. unfold add_source, the_site, the_bel, bind, gets, assert_,
    lift_r, modify. cbn [fst snd].
  destruct (dict_mem source _); cbn [negb assert_r fst snd]; [done|].
  destruct (dict_mem bel_pin _); cbn [negb assert_r fst snd]; [done|].
  apply drivers_upd_site.
  - intros s kv [->|Hin]%elem_of_dict_set; [|by left]. right.
    intros bel' pin' [= <- <-]. rewrite bel_at_upd_bel.
    cbn [bel_outputs with_bel_outputs]. set_solver.
  - intros s kv Hin. by left.
  - apply drivers_upd_bel; [intros b0; simpl; set_solver|].
    by apply drivers_upd_bel.
Qed.

Lemma add_internal_source_keeps_drivers bel bel_pin wire_name :
  preserves (drivers_are_outputs self)
    (add_internal_source self bel bel_pin wire_name).
Proof.
  intros w Hd. unfold add_internal_source, the_site, bind, gets, assert_,
    lift_r, modify. cbn [fst snd].
  assert (drivers_are_outputs self
    (upd_bel bel (λ b, with_bel_outputs (bel_outputs b ∪ {[bel_pin]}) b)
       (upd_bel bel (λ b, with_connections
          (dict_set bel_pin (ConnWire wire_name) (bel_connections b)) b) w)))
    as Hd'.
  { apply drivers_upd_bel; [intros b0; simpl; set_solver|].
    by apply drivers_upd_bel. }
  destruct (dict_mem wire_name _); cbn [negb assert_r fst snd]; [done|].
  apply drivers_upd_site; [by left| |done].
  intros s kv [->|Hin]%elem_of_dict_set; [|by left]. right.
  intros bel' pin' [= <- <-]. rewrite bel_at_upd_bel.
  cbn [bel_outputs with_bel_outputs]. set_solver.
Qed.

Lemma add_output_from_internal_keeps_drivers source internal_source :
  preserves (drivers_are_outputs self)
    (add_output_from_internal self source internal_source).
Proof.
  intros w Hd. unfold add_output_from_internal, the_site, bind, gets, assert_,
    lift_r, modify. cbn [fst snd].
  destruct (dict_mem source _); cbn [negb assert_r fst snd]; [done|].
  destruct (dict_mem internal_source _) eqn:Hmem;
    cbn [negb assert_r fst snd]; [|done].
  rewrite site_at_upd_site. cbn [site_internal_sources with_outputs].
  apply dict_mem_true, dict_get_is_Some in Hmem as [v Hv]. rewrite Hv.
  cbn [getitem fst snd].
  apply drivers_upd_site; [|by left|by apply drivers_upd_site_other].
  intros s kv [->|Hin]%elem_of_dict_set; [|by left]. right.
  intros bel pin Hv2. simpl in Hv2. subst v. rewrite bel_at_upd_site.
  destruct Hd as [_ Hi]. eapply Hi. by apply dict_get_Some_elem.
Qed.

End drivers_facts.


(** ** Top-level ports and the site-pin map *)


Lemma make_site_pin_map_snoc pins p :
  make_site_pin_map (pins ++ [p])
  = <[pin_name p := pin_wire p]> (make_site_pin_map pins).
Proof. unfold make_site_pin_map. by rewrite foldl_app. Qed.


(** ** [Site.__init__] on the features of one site *)

Lemma find_lower_bound (c : ascii) (s : string) : (-1 ≤ find c s)%Z.
Proof.
  induction s as [|a s IH]; simpl; [done|].
  destruct (decide (a = c)); [done|].
  destruct (decide (find c s = (-1)%Z)); lia.
Qed.

Lemma find_app_sep (c : ascii) (s1 s2 : string) :
  lacks c s1 → split c (s1 +:+ String c s2) = s1 :: split c s2.
Proof.
  unfold lacks. induction s1 as [|a s1 IH]; simpl.
  - intros _. by rewrite decide_True.
  - destruct (decide (a = c)) as [->|Hne]; [done|].
    pose proof (find_lower_bound c s1).
    destruct (decide (find c s1 = (-1)%Z)) as [Hf|Hf]; [|lia].
    intros _. by rewrite (IH Hf).
Qed.

Lemma join_split (c : ascii) (s : string) :
  join (String c EmptyString) (split c s) = s.
Proof.
  unfold join. induction s as [|a s IH]; simpl; [done|].
  destruct (decide (a = c)) as [->|Hne].
  - simpl. pose proof (split_nonempty c s).
    destruct (split c s) as [|h t] eqn:Hs; [done|].
    simpl in *. by rewrite IH.
  - pose proof (split_nonempty c s).
    destruct (split c s) as [|h t] eqn:Hs; [done|].
    simpl in *. destruct t; simpl in *; by rewrite <- IH.
Qed.

Lemma site_feature_parts tile site rv :
  lacks "." tile → lacks "." site →
  split "." (feature (site_feature tile site rv))
  = tile :: site :: split "." rv.1.
Proof.
  intros Ht Hs. unfold site_feature. simpl.
  change (tile +:+ "." +:+ site +:+ "." +:+ rv.1)
    with (tile +:+ String "." (site +:+ String "." rv.1)).
  by rewrite !find_app_sep.
Qed.

Lemma add_feature_site_feature tile site parts0 rest v sf :
  lacks "." tile → lacks "." site →
  add_feature (tile :: site :: parts0) (site_feature tile site (rest, v)) sf
  = Ok (if decide (v = 0%Z) then sf else sf ∪ {[rest]}).
Proof.
  intros Ht Hs. unfold add_feature.
  rewrite (site_feature_parts tile site (rest, v) Ht Hs).
  cbn [value site_feature snd fst].
  destruct (decide (v = 0%Z)); [done|].
  cbn [index lookup list_lookup mbind result_bind].
  rewrite !bool_decide_eq_true_2 by done.
  cbn [assert_r mbind result_bind drop].
  rewrite drop_0.
  change (join "." (split "." rest))
    with (join (String "." EmptyString) (split "." rest)).
  by rewrite join_split.
Qed.



(** ** [Site.integrate_site]: errors, the BELs and the reverse map *)

Lemma returns_lift_w {L W A} (P : W → Prop) (m : M W A) (Q : A → W → Prop) :
  returns P m Q →
  returns (λ st : L * W, P st.2) (lift_w m) (λ a st, Q a st.2).
Proof.
  intros Hm [l w] a [l' w'] HP. unfold lift_w. cbn [fst snd].
  destruct (m w) as [r w1] eqn:Hrun. intros [= -> <- <-]. by eapply Hm.
Qed.

Lemma labelled_idem s b : labelled s (labelled s b) = labelled s b.
Proof. done. Qed.

Lemma labelled_connections s b :
  bel_connections (labelled s b) = bel_connections b.
Proof. done. Qed.

Section integrate_bels_facts.
Context {Conn Net : Type}.
Variable module : @Module_ Conn Net.
Variable s : Site.

Lemma check_connection_checks (wire : connection) (w : World) :
  check_connection module s wire w
  = (match wire with
     | ConnConst _ => Ok tt
     | ConnWire wire =>
         assert_r (dict_mem wire (site_sinks s)
                   || dict_mem wire (site_sources s)
                   || dict_mem wire (site_internal_sources s)
                   || is_top_level module wire)
     | ConnNone => assert_r false
     end, w).
Proof. by destruct wire. Qed.

Lemma check_connection_known wire w :
  (check_connection module s wire w).1 = Ok tt ↔ connection_known module s wire.
Proof.
  rewrite check_connection_checks. destruct wire as [x|c|]; simpl.
  - rewrite assert_r_ok, !orb_true_iff, !dict_mem_true. tauto.
  - done.
  - done.
Qed.

Lemma integrate_bel_returns w pre bel :
  returns (bels_integrated module s w pre)
    (integrate_bel module s bel)
    (λ _, bels_integrated module s w (pre ++ [bel])).
Proof.
  intros w1 [] w2 (Hsites & Hbels & Hknown). unfold integrate_bel.
  unfold bind at 1. unfold modify at 1.
  unfold bind at 1. unfold modify at 1.
  unfold bind at 1. unfold gets at 1.
  set (w3 := upd_bel bel _ (upd_bel bel _ w1)).
  rewrite (for_checks _ _ (λ wire w0, (check_connection module s wire w0).1) w3)
    by (intros wire; by rewrite check_connection_checks).
  destruct (for_r _ _) as [[]|e] eqn:Hfor; [|done]. intros [= <-].
  assert (bel_at w3 bel = labelled s (bel_at w bel)) as Hbel.
  { unfold w3. rewrite !bel_at_upd_bel. rewrite Hbels.
    destruct (decide (bel ∈ pre)); done. }
  split_and!.
  - done.
  - intros r. destruct (decide (r = bel)) as [->|Hne].
    + rewrite Hbel, decide_True; [done|]. apply elem_of_app. right. left.
    + unfold w3. rewrite !bel_at_upd_bel_ne by done. rewrite Hbels.
      destruct (decide (r ∈ pre)) as [Hin|Hnin].
      * rewrite decide_True; [done|]. apply elem_of_app. by left.
      * rewrite decide_False; [done|].
        intros [?|?%list_elem_of_singleton]%elem_of_app; done.
  - intros r pin c [Hin | ->%list_elem_of_singleton]%elem_of_app Hc; [eauto|].
    rewrite for_r_ok in Hfor. apply (check_connection_known c w3), Hfor.
    rewrite Hbel, labelled_connections. apply dict_values_elem. eauto.
Qed.

Lemma integrate_bels_returns w :
  returns (λ w1, w1 = w)
    (for_ (site_bels s) (integrate_bel module s))
    (λ _, bels_integrated module s w (site_bels s)).
Proof.
  eapply returns_weaken.
  - apply (returns_for (bels_integrated module s w)).
    intros pre bel. apply integrate_bel_returns.
  - intros w1 ->. split_and!; [done| |].
    + intros r. rewrite decide_False; [done|]. intros Hin. inversion Hin.
    + intros r pin c Hin. inversion Hin.
  - done.
Qed.
End integrate_bels_facts.

Section integrate_map_facts.
Context {Conn Net : Type}.
Variable get_wire_pkey : Conn → string → string → Z.
Variable self : site_ref.
Variable conn : Conn.
Variable module : @Module_ Conn Net.
Variable s : Site.

(** Recording the identity of one more wire keeps what is recorded. *)
Lemma wires_mapped_record w1 pre w2 wire pin :
  make_site_pin_map (info_site_pins (site_site s)) !! wire = Some pin →
  wires_mapped get_wire_pkey conn self s w1 pre w2 →
  wires_mapped get_wire_pkey conn self s w1 (pre ++ [wire])
    (upd_site self (λ s', with_site_wire_to_wire_pkey
       (dict_set wire (get_wire_pkey conn (site_tile s) pin)
          (site_site_wire_to_wire_pkey s')) s') w2).
Proof.
  intros Hpin (Hb & Hs & Hself & Hmap). split_and!.
  - done.
  - intros r Hr. rewrite site_at_upd_site_ne by done. by apply Hs.
  - rewrite site_at_upd_site. rewrite Hself at 2. done.
  - intros wire' Hin. rewrite site_at_upd_site.
    cbn [site_site_wire_to_wire_pkey with_site_wire_to_wire_pkey].
    destruct (decide (wire' = wire)) as [->|Hne].
    + eexists. split; [|apply dict_get_set_eq].
      unfold wire_identity. by rewrite Hpin.
    + rewrite dict_get_set_ne by done. apply Hmap.
      apply elem_of_app in Hin as [?|?%list_elem_of_singleton]; done.
Qed.

Lemma integrate_sink_maps w1 pre wire :
  returns (λ st, wires_mapped get_wire_pkey conn self s w1 pre st.2)
    (integrate_sink get_wire_pkey self conn module s wire)
    (λ _ st, wires_mapped get_wire_pkey conn self s w1 (pre ++ [wire]) st.2).
Proof.
  intros [r w] [] [r' w'] Hpre. unfold integrate_sink. simpl.
  unfold bind, mod_l, mod_w, modify, lift_r. simpl.
  destruct (make_site_pin_map _ !! wire) as [pin|] eqn:Hpin; simpl; [|done].
  intros [= <- <-]. simpl. by apply wires_mapped_record.
Qed.

Lemma integrate_source_maps w1 pre wire :
  returns (λ st, wires_mapped get_wire_pkey conn self s w1 pre st.2)
    (integrate_source get_wire_pkey self conn module s wire)
    (λ _ st, wires_mapped get_wire_pkey conn self s w1 (pre ++ [wire]) st.2).
Proof.
  intros [r w] [] [r' w'] Hpre. unfold integrate_source. simpl.
  unfold bind, mod_l, mod_w, modify, lift_r. simpl.
  destruct (make_site_pin_map _ !! wire) as [pin|] eqn:Hpin; simpl; [|done].
  destruct (dict_get wire (site_sources s)) as [[source_bel|]|]; simpl;
    [| |done].
  all: intros [= <- <-]; simpl; by apply wires_mapped_record.
Qed.

Lemma integrate_sinks_sources_map w1 :
  returns (λ st, st.2 = w1)
    (for_ (dict_keys (site_sinks s))
        (integrate_sink get_wire_pkey self conn module s) ;;
      for_ (dict_keys (site_sources s))
        (integrate_source get_wire_pkey self conn module s))%py
    (λ _ st, wires_mapped get_wire_pkey conn self s w1
       (dict_keys (site_sinks s) ++ dict_keys (site_sources s)) st.2).
Proof.
  apply returns_bind with
    (Q := λ _ st, wires_mapped get_wire_pkey conn self s w1
                    (dict_keys (site_sinks s)) st.2); [|intros _].
  - eapply returns_weaken;
      [apply (returns_for
          (λ pre st, wires_mapped get_wire_pkey conn self s w1 pre st.2))
      | |done].
    + intros pre wire. apply integrate_sink_maps.
    + intros [l w2]; simpl; intros ->. split_and!; [done|done| |].
      * by destruct (site_at w1 self).
      * intros wire Hin. by apply elem_of_nil in Hin.
  - eapply returns_weaken;
      [apply (returns_for
          (λ pre st, wires_mapped get_wire_pkey conn self s w1
                       (dict_keys (site_sinks s) ++ pre) st.2))
      | |done].
    + intros pre wire. rewrite app_assoc. apply integrate_source_maps.
    + intros st. by rewrite app_nil_r.
Qed.

Lemma integrate_wires_post w :
  returns (λ st, st.2 = w)
    (integrate_wires get_wire_pkey self conn module s)
    (λ _ st, ∃ w1,
       site_consistent s
       ∧ bels_integrated module s w (site_bels s) w1
       ∧ wires_mapped get_wire_pkey conn self s w1
           (dict_keys (site_sinks s) ++ dict_keys (site_sources s)) st.2).
Proof.
  unfold integrate_wires.
  apply returns_bind with
    (Q := λ _ st, st.2 = w ∧ site_consistent s); [|intros _].
  { intros st [] st' Hst. unfold lift_r.
    destruct (check_site s) as [[]|e] eqn:Hc; [|done].
    intros [= <-]. split; [done|]. by apply check_site_ok. }
  apply returns_bind with
    (Q := λ _ st, site_consistent s
                  ∧ bels_integrated module s w (site_bels s) st.2);
    [|intros _].
  { intros st [] st' [Hst Hcons] Hrun. split; [done|].
    eapply (returns_lift_w (λ w1, w1 = w) _ _ (integrate_bels_returns module s w));
      [exact Hst|exact Hrun]. }
  apply returns_bind with
    (Q := λ _ st, site_consistent s
                  ∧ bels_integrated module s w (site_bels s) st.2);
    [|intros _].
  { apply returns_preserves.
    apply (preserves_for (λ st : IntegratedSite * World,
      site_consistent s ∧ bels_integrated module s w (site_bels s) st.2)).
    intros wire. apply preserves_mod_l. by intros l w1. }
  intros st [] st' [Hcons Hbels] Hrun. exists st.2. split_and!; [done..|].
  by eapply (integrate_sinks_sources_map st.2 st tt st').
Qed.
End integrate_map_facts.







(** ** [Bel.output_verilog] *)

Lemma elem_of_flat_map {A B} (f : A → list B) (l : list A) (y : B) :
  y ∈ flat_map f l ↔ ∃ x, x ∈ l ∧ y ∈ f x.
Proof.
  induction l as [|a l IH]; simpl.
  - split; [intros Hin; by apply elem_of_nil in Hin|].
    intros (x & Hx & _). by apply elem_of_nil in Hx.
  - rewrite elem_of_app, IH. split.
    + intros [Hy|(x & Hx & Hy)]; [exists a|exists x]; split; try done.
      * left.
      * by right.
    + intros (x & [->|Hx]%elem_of_cons & Hy); [by left|right; eauto].
Qed.

Lemma dict_set_nonempty {K V} `{EqDecision K} (d : list (K * V)) k v :
  dict_set k v d ≠ [].
Proof. destruct d as [|[k0 v0] d]; simpl; [done|]. by case_decide. Qed.

Lemma indexed_pin_bus wire bus n : indexed_pin wire bus n → pin_bus wire = Some bus.
Proof. intros (Hc & a & Hs & _). unfold pin_bus. by rewrite Hc, Hs. Qed.

Lemma pin_bus_contains wire bus : pin_bus wire = Some bus → contains "[" wire = true.
Proof. unfold pin_bus. by destruct (contains "[" wire). Qed.

Lemma indexed_pin_inj wire bus n bus' n' :
  indexed_pin wire bus n → indexed_pin wire bus' n' → bus = bus' ∧ n = n'.
Proof.
  intros (_ & a & Hs & _ & Hn) (_ & a' & Hs' & _ & Hn').
  rewrite Hs in Hs'. injection Hs' as <- <-.
  rewrite Hn in Hn'. by injection Hn' as <-.
Qed.

Lemma pins_error_app self pre0 pre rest :
  pins_error self pre0 (pre ++ rest)
  = match pins_error self pre0 pre with
    | Some e => Some e
    | None => pins_error self (pre0 ++ pre) rest
    end.
Proof.
  revert pre0. induction pre as [|p pre IH]; intros pre0; simpl.
  - by rewrite app_nil_r.
  - destruct (pin_error self pre0 p.1); [done|].
    by rewrite IH, <- app_assoc.
Qed.

Lemma map_r_getitem_keys {V} (d : list (string * V)) l :
  (∀ k, k ∈ l → k ∈ dict_keys d) →
  ∃ res, map_r (λ k, getitem (dict_get k d)) l = Ok res.
Proof.
  induction l as [|x l IH]; intros Hl; simpl; [eauto|].
  destruct (proj2 (dict_get_is_Some d x) (Hl x ltac:(left))) as [v ->].
  simpl. destruct IH as [res ->]; [|simpl; eauto].
  intros k Hk. apply Hl. by right.
Qed.

Section bel_output_facts.
Variable top : string → bool.
Variable self : Bel.
Variable indent : string.

(** What one iteration of the loop over the connections does when it does
    not raise. *)
Lemma collect_connection_ok wire c connections buses bus_is_output st' :
  collect_connection top self indent (wire, c)
    (connections, buses, bus_is_output) = Ok st' →
  (contains "[" wire = false ∧ st'.1.2 = buses ∧ st'.2 = bus_is_output)
  ∨ ∃ bus n bits,
      indexed_pin wire bus n
      ∧ st'.1.2 = dict_set bus
                    (dict_set n (connection_wire_of top self c) bits)
                    (if dict_mem bus buses then buses
                     else dict_set bus [] buses)
      ∧ ((dict_mem bus buses = false ∧ bits = []
          ∧ st'.2 = dict_set bus (bool_decide (wire ∈ bel_outputs self))
                      bus_is_output)
         ∨ (dict_get bus buses = Some bits
            ∧ dict_get bus bus_is_output
              = Some (bool_decide (wire ∈ bel_outputs self))
            ∧ st'.2 = bus_is_output)).
Proof.
  unfold collect_connection.
  destruct (contains "[" wire) eqn:Hc; [|intros [= <-]; left; done].
  destruct (split "[" wire) as [|bus [|address [|]]] eqn:Hs; try done.
  destruct (last_char address) as [ch|] eqn:Hl; simpl; [|done].
  destruct (decide (ch = "]"%char)) as [->|Hne];
    [rewrite (bool_decide_eq_true_2 ("]"%char = "]"%char)) by done
    |rewrite (bool_decide_eq_false_2 (ch = "]"%char)) by done; done].
  simpl. intros Hrun. right.
  destruct (dict_mem bus buses) eqn:Hm; simpl in Hrun.
  - destruct (dict_get bus bus_is_output) as [b|] eqn:Hb; simpl in Hrun;
      [|done].
    destruct (decide (b = bool_decide (wire ∈ bel_outputs self)))
      as [->|Hne];
      [rewrite (bool_decide_eq_true_2 (_ = _)) in Hrun by done
      |rewrite (bool_decide_eq_false_2 (b = _)) in Hrun by done; done].
    simpl in Hrun.
    destruct (dict_get bus buses) as [bits|] eqn:Hbits; simpl in Hrun; [|done].
    destruct (int (slice 0 (-1) address)) as [n|] eqn:Hn; simpl in Hrun;
      [|done].
    injection Hrun as <-. exists bus, n, bits.
    split_and!; [split; eauto|simpl; by rewrite Hm|eauto].
  - rewrite dict_get_set_eq in Hrun. simpl in Hrun.
    destruct (int (slice 0 (-1) address)) as [n|] eqn:Hn; simpl in Hrun;
      [|done].
    injection Hrun as <-. exists bus, n, [].
    split_and!; [split; eauto|simpl; by rewrite Hm|eauto].
Qed.

Lemma buses_collected_nil : buses_collected top self [] [] [].
Proof.
  split_and!; [|done|done|constructor].
  intros wire c Hin. by apply elem_of_nil in Hin.
Qed.

Lemma collect_connection_collects pre wire c st st' :
  buses_collected top self pre st.1.2 st.2 →
  collect_connection top self indent (wire, c) st = Ok st' →
  buses_collected top self (pre ++ [(wire, c)]) st'.1.2 st'.2.
Proof.
  destruct st as [[connections buses] bus_is_output].
  intros (J1 & J2 & J3 & J4) Hrun. simpl in J1, J2, J3, J4.
  apply collect_connection_ok in Hrun
    as [(Hc & -> & ->)|(bus & n & bits & Hpin & -> & Hcase)].
  { split_and!; [| |done|done].
    - intros wire2 c2 [Hin|[= -> ->]%list_elem_of_singleton]%elem_of_app Hc2;
        [by apply (J1 wire2 c2)|congruence].
    - intros bus bits n cw Hb Hn.
      destruct (J2 bus bits n cw Hb Hn) as (wire2 & c2 & Hin & ?).
      exists wire2, c2. split; [|done]. apply elem_of_app. by left. }
  assert (∀ bus2, bus2 ≠ bus →
    dict_get bus2 (if dict_mem bus buses then buses
                   else dict_set bus [] buses) = dict_get bus2 buses)
    as Hother.
  { intros bus2 Hne. destruct (dict_mem bus buses); [done|].
    by apply dict_get_set_ne. }
  assert (∀ bus2, bus2 ≠ bus →
    dict_get bus2 st'.2 = dict_get bus2 bus_is_output) as Hdir.
  { intros bus2 Hne. destruct Hcase as [(_ & _ & ->)|(_ & _ & ->)]; [|done].
    by apply dict_get_set_ne. }
  assert (∀ bits2, dict_get bus buses = Some bits2 →
    bits2 = bits ∧ st'.2 = bus_is_output) as Hsame.
  { intros bits2 Hb. destruct Hcase as [(Hm & _)|(Hb' & _ & ->)].
    - apply dict_mem_false, dict_get_None in Hm. congruence.
    - split; congruence. }
  split_and!.
  - intros wire2 c2 [Hin|[= -> ->]%list_elem_of_singleton]%elem_of_app Hc2.
    + destruct (J1 wire2 c2 Hin Hc2) as (bus2 & n2 & bits2 & Hp2 & Hb & Hn & Ho).
      destruct (decide (bus2 = bus)) as [->|Hne].
      * destruct (Hsame bits2 Hb) as [-> ->].
        exists bus, n2, (dict_set n (connection_wire_of top self c) bits).
        split_and!; [done|apply dict_get_set_eq| |done].
        rewrite dict_get_set. by destruct (decide (n2 = n)).
      * exists bus2, n2, bits2.
        rewrite dict_get_set_ne, Hother, Hdir by done. done.
    + exists bus, n, (dict_set n (connection_wire_of top self c) bits).
      split_and!; [done|apply dict_get_set_eq| |].
      * rewrite dict_get_set_eq. by eexists.
      * destruct Hcase as [(_ & _ & ->)|(_ & Ho & ->)]; [|done].
        apply dict_get_set_eq.
  - intros bus2 bits2 n2 cw Hb Hn.
    destruct (decide (bus2 = bus)) as [->|Hne].
    + rewrite dict_get_set_eq in Hb. injection Hb as <-.
      rewrite dict_get_set in Hn. destruct (decide (n2 = n)) as [->|Hnn].
      * injection Hn as <-. exists wire, c. split; [|done].
        apply elem_of_app. right. left.
      * assert (dict_get bus buses = Some bits) as Hb.
        { destruct Hcase as [(_ & -> & _)|(Hb & _)]; done. }
        destruct (J2 bus bits n2 cw Hb Hn) as (wire2 & c2 & Hin & ?).
        exists wire2, c2. split; [|done]. apply elem_of_app. by left.
    + rewrite dict_get_set_ne, Hother in Hb by done.
      destruct (J2 bus2 bits2 n2 cw Hb Hn) as (wire2 & c2 & Hin & ?).
      exists wire2, c2. split; [|done]. apply elem_of_app. by left.
  - intros bus2 bits2 Hb.
    destruct (decide (bus2 = bus)) as [->|Hne].
    + rewrite dict_get_set_eq in Hb. injection Hb as <-.
      apply dict_set_nonempty.
    + rewrite dict_get_set_ne, Hother in Hb by done. by apply (J3 bus2).
  - apply dict_keys_set_NoDup. destruct (dict_mem bus buses); [done|].
    by apply dict_keys_set_NoDup.
Qed.

Lemma collect_connections_collect st :
  fold_r (collect_connection top self indent) (bel_connections self)
    ([], [], []) = Ok st →
  buses_collected top self (bel_connections self) st.1.2 st.2.
Proof.
  apply (fold_r_inv _ (λ pre st, buses_collected top self pre st.1.2 st.2)).
  - apply buses_collected_nil.
  - intros pre [wire c] st1 st2. apply collect_connection_collects.
Qed.

(** One iteration of the loop over the connections raises the error of the
    pin, and returns when the pin has none. *)
Lemma collect_connection_result pre wire c st :
  buses_collected top self pre st.1.2 st.2 →
  match pin_error self pre wire with
  | Some e => collect_connection top self indent (wire, c) st = Raise e
  | None => ∃ st', collect_connection top self indent (wire, c) st = Ok st'
  end.
Proof.
  destruct st as [[connections buses] bus_is_output].
  intros (J1 & J2 & J3 & _). simpl in J1, J2, J3.
  unfold pin_error, collect_connection.
  destruct (contains "[" wire) eqn:Hc; [|eauto].
  destruct (split "[" wire) as [|bus [|address [|]]] eqn:Hs; try done.
  destruct (last_char address) as [ch|e] eqn:Hl; simpl; [|done].
  destruct (decide (ch = "]"%char)) as [->|Hne];
    [rewrite (bool_decide_eq_true_2 ("]"%char = "]"%char)) by done
    |by rewrite (bool_decide_eq_false_2 (ch = "]"%char)) by done].
  simpl.
  assert (∀ p, p ∈ pre → pin_bus p.1 = Some bus →
    dict_mem bus buses = true
    ∧ dict_get bus bus_is_output
      = Some (bool_decide (p.1 ∈ bel_outputs self))) as HA.
  { intros [w0 c0] Hin Hbus. simpl in *.
    destruct (J1 w0 c0 Hin (pin_bus_contains _ _ Hbus))
      as (bus0 & n0 & bits0 & Hp0 & Hb0 & _ & Ho0).
    apply indexed_pin_bus in Hp0. rewrite Hbus in Hp0. injection Hp0 as <-.
    split; [|done]. apply dict_mem_true, dict_get_is_Some. by rewrite Hb0. }
  destruct (dict_mem bus buses) eqn:Hm; simpl.
  - apply dict_mem_true, dict_get_is_Some in Hm as [bits Hb].
    pose proof (J3 bus bits Hb) as Hbits.
    destruct bits as [|[n0 cw0] bits']; [done|].
    destruct (J2 bus ((n0, cw0) :: bits') n0 cw0 Hb) as (w0 & c0 & Hin0 & Hp0 & _).
    { simpl. by rewrite decide_True. }
    destruct (HA (w0, c0) Hin0 (indexed_pin_bus _ _ _ Hp0)) as [_ Ho].
    simpl in Ho. rewrite Ho. simpl.
    destruct (decide (mixed_direction self pre bus wire)) as [Hmix|Hmix].
    + apply Exists_exists in Hmix as (p & Hp & Hpb & Hdir).
      destruct (HA p Hp Hpb) as [_ Ho']. rewrite Ho in Ho'.
      injection Ho' as Ho'. rewrite Ho' in *.
      by rewrite (bool_decide_eq_false_2 (_ = _)) by done.
    + destruct (decide (bool_decide (w0 ∈ bel_outputs self)
                        = bool_decide (wire ∈ bel_outputs self)))
        as [Heq|Hdiff].
      2:{ destruct Hmix. apply Exists_exists. exists (w0, c0).
          split; [done|]. split; [by eapply indexed_pin_bus|done]. }
      rewrite (bool_decide_eq_true_2 (_ = _)) by done. simpl.
      rewrite Hb. simpl.
      destruct (int (slice 0 (-1) address)) as [n|e] eqn:Hint; simpl;
        [eauto|by rewrite (int_raises _ _ Hint)].
  - destruct (decide (mixed_direction self pre bus wire)) as [Hmix|Hmix].
    { apply Exists_exists in Hmix as (p & Hp & Hpb & _).
      by destruct (HA p Hp Hpb). }
    rewrite dict_get_set_eq. simpl.
    destruct (int (slice 0 (-1) address)) as [n|e] eqn:Hint; simpl;
      [eauto|by rewrite (int_raises _ _ Hint)].
Qed.

Lemma collect_connections_result pre conns st :
  buses_collected top self pre st.1.2 st.2 →
  match pins_error self pre conns with
  | Some e => fold_r (collect_connection top self indent) conns st = Raise e
  | None =>
      ∃ st', fold_r (collect_connection top self indent) conns st = Ok st'
  end.
Proof.
  revert pre st. induction conns as [|[wire c] conns IH]; intros pre st Hst.
  { simpl. eauto. }
  rewrite fold_r_cons. cbn [pins_error fst].
  pose proof (collect_connection_result pre wire c st Hst) as Hstep.
  destruct (pin_error self pre wire) as [e|].
  - by rewrite Hstep.
  - destruct Hstep as [st' Hstep]. rewrite Hstep. simpl.
    apply IH. by eapply collect_connection_collects.
Qed.

Lemma emit_buses_returns bus_is_output buses st0 :
  (∀ bus bits, (bus, bits) ∈ buses →
     bits ≠ [] ∧ is_Some (dict_get bus bus_is_output)) →
  ∃ st, fold_r (emit_bus self indent bus_is_output) buses st0 = Ok st.
Proof.
  revert st0. induction buses as [|[bus bits] buses IH]; intros st0 Hall.
  { simpl. eauto. }
  rewrite fold_r_cons. destruct st0 as [connections lines].
  destruct (Hall bus bits ltac:(left)) as [Hne [o Ho]].
  destruct bits as [|[n cw] bits]; [done|].
  assert (∃ st1, emit_bus self indent bus_is_output (bus, (n, cw) :: bits)
                   (connections, lines) = Ok st1) as [st1 ->].
  { unfold emit_bus. cbn [py_max dict_keys fmap list_fmap fst mbind result_bind].
    rewrite Ho. cbn [getitem mbind result_bind]. eauto. }
  cbn [mbind result_bind].
  apply IH. intros b v Hin. apply Hall. by right.
Qed.

(** The lines of the loop over the buses: for every bus the declaration
    with the largest index, and the assignments of its entries. *)
Lemma emit_buses_lines bus_is_output buses connections st :
  fold_r (emit_bus self indent bus_is_output) buses (connections, [])
    = Ok st →
  ∀ bus bits, (bus, bits) ∈ buses →
    ∃ hi is_output,
      py_max (dict_keys bits) = Ok hi
      ∧ dict_get bus bus_is_output = Some is_output
      ∧ bus_decl indent (_prefix_things self bus) hi ∈ st.2
      ∧ ∀ line, line ∈ bus_assigns indent is_output
                         (_prefix_things self bus) bits → line ∈ st.2.
Proof.
  apply (fold_r_inv _ (λ pre st, ∀ bus bits, (bus, bits) ∈ pre →
    ∃ hi is_output,
      py_max (dict_keys bits) = Ok hi
      ∧ dict_get bus bus_is_output = Some is_output
      ∧ bus_decl indent (_prefix_things self bus) hi ∈ st.2
      ∧ ∀ line, line ∈ bus_assigns indent is_output
                         (_prefix_things self bus) bits → line ∈ st.2)).
  - intros bus bits Hin. by apply elem_of_nil in Hin.
  - intros pre [bus bits] [connections1 lines1] st2 IH Hrun bus2 bits2 Hin.
    unfold emit_bus in Hrun.
    destruct (py_max (dict_keys bits)) as [hi|] eqn:Hmax; simpl in Hrun;
      [|done].
    destruct (dict_get bus bus_is_output) as [is_output|] eqn:Hdir;
      simpl in Hrun; [|done].
    injection Hrun as <-. cbn [snd].
    apply elem_of_app in Hin as [Hin|[= -> ->]%list_elem_of_singleton].
    + destruct (IH bus2 bits2 Hin) as (hi2 & o2 & ? & ? & Hdecl & Hlines).
      exists hi2, o2. split_and!; [done..| |].
      * apply elem_of_app. by left.
      * intros line Hline. apply elem_of_app. left. by apply Hlines.
    + exists hi, is_output. split_and!; [done..| |].
      * apply elem_of_app. right. left.
      * intros line Hline. apply elem_of_app. right. by right.
Qed.

(** When [output_verilog] returns, both loops have run through and the
    lines of the loop over the buses are among the lines yielded. *)
Lemma Bel_output_verilog_returns lines :
  Bel_output_verilog top self indent = Ok lines →
  ∃ st1 st2,
    fold_r (collect_connection top self indent) (bel_connections self)
      ([], [], []) = Ok st1
    ∧ fold_r (emit_bus self indent st1.2) st1.1.2 (st1.1.1, []) = Ok st2
    ∧ ∀ line, line ∈ st2.2 → line ∈ lines.
Proof.
  unfold Bel_output_verilog.
  destruct (fold_r (collect_connection _ _ _) _ _)
    as [[[connections buses] bus_is_output]|] eqn:H1; simpl; [|done].
  destruct (fold_r (emit_bus _ _ _) _ _)
    as [[connections' bus_lines]|] eqn:H2; simpl; [|done].
  destruct (map_r _ _) as [ports|]; simpl; [|done].
  intros [= <-]. eexists _, _. split_and!; [done..|].
  simpl. intros line Hin. right. apply elem_of_app. by left.
Qed.

(** What [output_verilog] has read and yielded for an indexed pin when it
    returns: the pin's bus and index, the largest index of the bus, the
    direction of the bus, and the connection entered under the index. *)
Lemma Bel_output_verilog_bus lines wire c :
  Bel_output_verilog top self indent = Ok lines →
  (wire, c) ∈ bel_connections self → contains "[" wire = true →
  ∃ bus n bits hi,
    indexed_pin wire bus n
    ∧ is_Some (dict_get n bits)
    ∧ py_max (dict_keys bits) = Ok hi
    ∧ bus_decl indent (_prefix_things self bus) hi ∈ lines
    ∧ (∀ line,
         line ∈ bus_assigns indent (bool_decide (wire ∈ bel_outputs self))
                  (_prefix_things self bus) bits → line ∈ lines)
    ∧ (∀ k cw, dict_get k bits = Some cw →
         ∃ pin c', (pin, c') ∈ bel_connections self ∧ indexed_pin pin bus k
                   ∧ cw = connection_wire_of top self c')
    ∧ (∀ pin c' k, (pin, c') ∈ bel_connections self → indexed_pin pin bus k →
         is_Some (dict_get k bits)
         ∧ bool_decide (pin ∈ bel_outputs self)
           = bool_decide (wire ∈ bel_outputs self)).
Proof.
  intros (st1 & st2 & H1 & H2 & Hlines)%Bel_output_verilog_returns Hin Hc.
  destruct (collect_connections_collect _ H1) as (J1 & J2 & _).
  destruct (J1 wire c Hin Hc) as (bus & n & bits & Hpin & Hb & Hn & Ho).
  destruct (emit_buses_lines _ _ _ _ H2 bus bits (dict_get_Some_elem _ _ _ Hb))
    as (hi & is_output & Hmax & Ho' & Hdecl & Hassigns).
  rewrite Ho in Ho'. injection Ho' as <-.
  exists bus, n, bits, hi.
  split_and!; [done|done|done|by apply Hlines| | |].
  { intros line Hl. by apply Hlines, Hassigns. }
  { intros k cw Hk. by apply (J2 bus bits k cw). }
  intros pin c' k Hin' Hpin'.
  destruct (J1 pin c' Hin' (proj1 Hpin'))
    as (bus' & k' & bits' & Hpin'' & Hb' & Hk & Ho').
  destruct (indexed_pin_inj _ _ _ _ _ Hpin' Hpin'') as [<- <-].
  rewrite Hb in Hb'. injection Hb' as <-.
  rewrite Ho in Ho'. by injection Ho' as ->.
Qed.

(** Without a pin error [output_verilog] returns. *)
Lemma Bel_output_verilog_total :
  pins_error self [] (bel_connections self) = None →
  ∃ lines, Bel_output_verilog top self indent = Ok lines.
Proof.
  intros Hnone.
  pose proof (collect_connections_result [] (bel_connections self)
                ([], [], []) buses_collected_nil) as H1.
  rewrite Hnone in H1. destruct H1 as [st1 H1].
  pose proof (collect_connections_collect _ H1) as (J1 & J2 & J3 & J4).
  destruct st1 as [[connections buses] bus_is_output]. simpl in J1, J2, J3, J4.
  destruct (emit_buses_returns bus_is_output buses (connections, []))
    as [[connections' bus_lines] H2].
  { intros bus bits Hin. apply (dict_elem_get _ _ _ J4) in Hin as Hb.
    pose proof (J3 bus bits Hb) as Hne. split; [done|].
    destruct bits as [|[n cw] bits]; [done|].
    destruct (J2 bus _ n cw Hb) as (w0 & c0 & Hin0 & Hp0 & _).
    { simpl. by rewrite decide_True. }
    destruct (J1 w0 c0 Hin0 (proj1 Hp0)) as (bus0 & n0 & _ & Hp0' & _ & _ & Ho).
    destruct (indexed_pin_inj _ _ _ _ _ Hp0 Hp0') as [<- _]. by rewrite Ho. }
  unfold Bel_output_verilog. rewrite H1. cbn [mbind result_bind].
  rewrite H2. cbn [mbind result_bind].
  match goal with
  | |- context [map_r _ (sorted (dict_keys ?d))] =>
      destruct (map_r_getitem_keys d (sorted (dict_keys d))) as [ports ->]
  end.
  { intros k. unfold sorted. by rewrite merge_sort_Permutation. }
  cbn [mbind result_bind]. eauto.
Qed.

End bel_output_facts.


(** The carry BEL: its bus is declared with upper bound 1, and both bits
    are assigned from the bus. *)
Example Bel_output_verilog_carry :
  Bel_output_verilog (λ _, false) carry_bel "  "
  = Ok ["";
        "  wire [1:0] T_S_O;";
        "  assign T_S_AMUX = T_S_O[0];";
        "  assign T_S_BMUX = T_S_O[1];";
        "";
        "  CARRY4 #(";
        "  ) T_S_CARRY4 (";
        "    .CI(0)," +:+ nl +:+ "    .O(T_S_O)";
        "  );"].
Proof. vm_compute. reflexivity. Qed.

(** ** [Module.output_nets] *)

Section output_nets_facts.
Context {Conn Net : Type}.
Variables ZERO_NET ONE_NET : Z.
Variable is_net_alive : Net → bool.
Variable make_fixed_route : Net → Conn → list (Z * string) → list string.

Lemma output_net_block (self : @Module_ Conn Net) w kn :
  output_net ZERO_NET ONE_NET is_net_alive make_fixed_route self w kn
  = net_block ZERO_NET ONE_NET is_net_alive make_fixed_route self w kn.
Proof.
  destruct kn as [k net]. unfold output_net, net_block, rail_name. simpl.
  destruct (decide (k = ZERO_NET)); [done|].
  destruct (decide (k = ONE_NET)); [done|].
  destruct (dict_get k (mod_source_bels self)) as [[bel pin]|]; [|done].
  by destruct (is_net_alive net).
Qed.

End output_nets_facts.

(** A zero rail that is not alive and has a driver on record is still
    emitted under its fixed name; a net without a driver is left out. *)
Example output_nets_rails :
  output_nets 0 1 (λ _ : unit, false) (λ _ _ _, ["{ A B }"])
    routed_module fresh_world
  = Ok ["set net [get_nets {<const0>}]";
        nl +:+ "set_property FIXED_ROUTE { A B } $net" +:+ nl].
Proof. vm_compute. reflexivity. Qed.

(** ** [make_bus]: the order of the wires *)

Lemma first_wire_error_None wires :
  first_wire_error wires = None ↔ ∀ w, w ∈ wires → wire_error w = None.
Proof.
  unfold first_wire_error. induction wires as [|w wires IH]; simpl.
  - split; [|done]. intros _ w Hin. by apply elem_of_nil in Hin.
  - destruct (wire_error w) as [e|] eqn:He; simpl.
    + split; [done|]. intros Hall.
      specialize (Hall w ltac:(left)). congruence.
    + rewrite IH. split.
      * intros Hall w' [->|Hin]%elem_of_cons; auto.
      * intros Hall w' Hin. apply Hall. by right.
Qed.

Lemma family_indices_Permutation wires wires' name :
  wires ≡ₚ wires' → family_indices wires name ≡ₚ family_indices wires' name.
Proof. intros Hp. unfold family_indices. by rewrite Hp. Qed.

Lemma consecutive_bus_Permutation values values' :
  values ≡ₚ values' → consecutive_bus values → consecutive_bus values'.
Proof.
  unfold consecutive_bus. intros Hp Hc.
  rewrite <- (Permutation_length Hp). by rewrite <- Hp.
Qed.

Lemma bus_listing_Permutation wires wires' out :
  wires ≡ₚ wires' → bus_listing wires out → bus_listing wires' out.
Proof.
  intros Hp (Hs & Hnd & Hin). split_and!; [done..|].
  intros name v. rewrite Hin.
  pose proof (family_indices_Permutation wires wires' name Hp) as Hf.
  assert (family_indices wires name = [] ↔ family_indices wires' name = [])
    as Hnil.
  { split; intros Hn; rewrite Hn in Hf.
    - symmetry. by apply Permutation_nil_l.
    - by apply Permutation_nil_r. }
  assert (bus_bound wires name = bus_bound wires' name) as ->.
  { unfold bus_bound. rewrite (Permutation_length Hf).
    destruct (decide (family_indices wires name = [])) as [Hn|Hn].
    - by rewrite decide_True by (by apply Hnil).
    - by rewrite decide_False by (by rewrite <- Hnil). }
  by rewrite Hnil, Hp.
Qed.

(** A listing is determined by its entries. *)
Lemma sorted_listing_unique (l1 l2 : list (string * option Z)) :
  Sorted String.le l1.*1 → NoDup l1.*1 →
  Sorted String.le l2.*1 → NoDup l2.*1 →
  (∀ p, p ∈ l1 ↔ p ∈ l2) → l1 = l2.
Proof.
  intros Hs1 Hnd1 Hs2 Hnd2 Hin.
  assert (l1.*1 = l2.*1) as Hnames.
  { apply (Sorted_unique String.le); [done..|].
    apply NoDup_Permutation; [done..|]. intros name.
    rewrite !list_elem_of_fmap. split; intros ([n v] & -> & Hp);
      exists (n, v); (split; [done|]); by apply Hin. }
  clear Hs1 Hs2. revert l2 Hnd2 Hin Hnames.
  induction l1 as [|[n1 v1] l1 IH]; intros [|[n2 v2] l2] Hnd2 Hin Hnames;
    try done.
  simpl in *. injection Hnames as <- Hnames.
  apply NoDup_cons in Hnd1 as [Hn1 Hnd1].
  apply NoDup_cons in Hnd2 as [Hn2 Hnd2].
  assert (v1 = v2) as <-.
  { pose proof (proj1 (Hin (n1, v1)) ltac:(left)) as Hp.
    apply elem_of_cons in Hp as [|Hp]; [congruence|].
    destruct Hn2. apply list_elem_of_fmap. by exists (n1, v1). }
  f_equal. apply IH; [done..| |done].
  intros [n v]. split; intros Hp.
  - pose proof (proj1 (Hin (n, v)) ltac:(by right)) as Hq.
    apply elem_of_cons in Hq as [[= -> ->]|]; [|done].
    destruct Hn1. apply list_elem_of_fmap. by exists (n1, v1).
  - pose proof (proj2 (Hin (n, v)) ltac:(by right)) as Hq.
    apply elem_of_cons in Hq as [[= -> ->]|]; [|done].
    destruct Hn2. apply list_elem_of_fmap. by exists (n1, v1).
Qed.


